(** * ukbus-timetable-updater: the TransXChange consolidation engine

    A shallow embedding of [txc-build/build.js] (the revision that resolves
    operators), [txc-build/operator-resolver.js] and [txc-build/shard.js],
    with the properties of the validity filter, the version resolver, the
    operator resolver, the stop-service index, the output ordering and the
    sharder.

    Modelling conventions.
    - A string is the sequence of the bytes of its UTF-8 encoding; for ASCII
      text these are its UTF-16 code units. White space and line terminators
      outside ASCII are recognised in their encoded form; [slice] counts the
      code units of ASCII identifiers.
    - A leaf of the parsed XML tree is a JavaScript value ([Js.value]): the
      parser gives a string, a number or a boolean for the text of an
      element, an object for an element with attributes or children and an
      array for a repeated element; a missing property reads [undefined].
    - A [Date] is its time value in milliseconds since the epoch, in [Z], or
      [None] for [Invalid Date]; a revision number is an integer in [Z]; the
      numbers of the output comparator are doubles ([Js.number]).
    - An exception is [None], or the outcome [Threw] of the service loop.
    - [Map] objects whose iteration order is observable are insertion-ordered
      association lists ([JsMap]); the others are [gmap]s.
    - What the JavaScript platform supplies (the [Date] parser and
      formatter, the [Number] parser, [localeCompare], the JSON string
      quoting) is the interface [JsRuntime]; every general theorem holds for
      every runtime. *)

From Stdlib Require Import ZArith String Ascii List Permutation Sorted DecimalString.
From stdpp Require Import gmap strings list.

Local Open Scope Z_scope.

(** ** JavaScript values and strings *)

Module Js.

(** Truthiness of a string. *)
Definition nonEmpty (s : string) : bool :=
  match s with EmptyString => false | String _ _ => true end.

(** A value at a leaf of the parsed tree. A number is kept as the text
    [String(n)] of its value, from which its truthiness and every conversion
    the program applies to it follow. *)
#[warnings="-register-all"] Inductive value :=
| undefined
| text (s : string)
| numeric (s : string)
| boolean (b : bool)
| object
| array (elements : list value).

(** Truthiness: [undefined], the empty string, the numbers [0] and [NaN] and
    [false] are falsy. *)
Definition truthy (v : value) : bool :=
  match v with
  | undefined => false
  | text s => nonEmpty s
  | numeric s => negb (String.eqb s "0" || String.eqb s "NaN")
  | boolean b => b
  | object => true
  | array _ => true
  end.

(** [a || b] on values. *)
Definition or (a b : value) : value :=
  if truthy a then a else b.

(** [a ?? b] on values; the parsed tree holds no [null]. *)
Definition coalesce (a b : value) : value :=
  match a with undefined => b | _ => a end.

(** [String(v)], which is also [v.toString()] where [v] has the method; an
    array is the join of its elements, [undefined] elements giving the empty
    string. *)
Fixpoint toString (v : value) : string :=
  match v with
  | undefined => "undefined"
  | text s => s
  | numeric s => s
  | boolean b => if b then "true" else "false"
  | object => "[object Object]"
  | array elements =>
      (fix join (l : list value) : string :=
         match l with
         | [] => EmptyString
         | x :: l' =>
             let first := match x with undefined => EmptyString | _ => toString x end in
             match l' with
             | [] => first
             | _ :: _ => (first ++ "," ++ join l')%string
             end
         end) elements
  end.

(** [String(v || "")]. *)
Definition str (v : value) : string :=
  if truthy v then toString v else EmptyString.

(** [a || b] where [a] is an object or [null]: every object is truthy. *)
Definition orObj {A : Type} (a b : option A) : option A :=
  match a with Some _ => a | None => b end.

(** The [WhiteSpace] and [LineTerminator] code points, by the bytes of their
    encoding: TAB, LF, VT, FF, CR and SP; U+00A0; U+1680, U+2000 to U+200A,
    U+2028, U+2029, U+202F, U+205F, U+3000 and U+FEFF. *)
Definition white1 (a : ascii) : bool :=
  let n := nat_of_ascii a in
  (Nat.eqb n 32 || (Nat.leb 9 n && Nat.leb n 13))%bool.

Definition white2 (a b : ascii) : bool :=
  (Nat.eqb (nat_of_ascii a) 194 && Nat.eqb (nat_of_ascii b) 160)%bool.

Definition white3 (a b c : ascii) : bool :=
  let x := nat_of_ascii a in
  let y := nat_of_ascii b in
  let z := nat_of_ascii c in
  ((Nat.eqb x 225 && Nat.eqb y 154 && Nat.eqb z 128)
   || (Nat.eqb x 226 && Nat.eqb y 128
       && ((Nat.leb 128 z && Nat.leb z 138) || Nat.eqb z 168 || Nat.eqb z 169
           || Nat.eqb z 175))
   || (Nat.eqb x 226 && Nat.eqb y 129 && Nat.eqb z 159)
   || (Nat.eqb x 227 && Nat.eqb y 128 && Nat.eqb z 128)
   || (Nat.eqb x 239 && Nat.eqb y 187 && Nat.eqb z 191))%bool.

(** [s.trimStart()]. *)
Fixpoint trimStart (s : string) : string :=
  match s with
  | EmptyString => EmptyString
  | String a r1 =>
      if white1 a then trimStart r1
      else
        match r1 with
        | EmptyString => s
        | String b r2 =>
            if white2 a b then trimStart r2
            else
              match r2 with
              | EmptyString => s
              | String c r3 => if white3 a b c then trimStart r3 else s
              end
        end
  end.

(** A string of white space only. *)
Fixpoint whiteOnly (s : string) : bool :=
  match s with
  | EmptyString => true
  | String a r1 =>
      (white1 a && whiteOnly r1)
      || match r1 with
         | EmptyString => false
         | String b r2 =>
             (white2 a b && whiteOnly r2)
             || match r2 with
                | EmptyString => false
                | String c r3 => white3 a b c && whiteOnly r3
                end
         end
  end.

(** [s.trimEnd()]: the string up to its trailing white space. *)
Fixpoint trimEnd (s : string) : string :=
  match s with
  | EmptyString => EmptyString
  | String a r => if whiteOnly s then EmptyString else String a (trimEnd r)
  end.

(** [s.trim()]. *)
Definition trim (s : string) : string := trimEnd (trimStart s).

(** [s.startsWith(k)]. *)
Definition startsWith (s k : string) : bool := String.prefix k s.

(** [s.slice(0, n)]. *)
Fixpoint slice0 (n : nat) (s : string) : string :=
  match n, s with
  | S n', String c s' => String c (slice0 n' s')
  | _, _ => EmptyString
  end.

(** The numbers of the output comparator: the integers among the doubles,
    the infinities and [NaN]. *)
Inductive number :=
| Finite (z : Z)
| PosInfinity
| NegInfinity
| NaN.

Definition isNaN (x : number) : bool :=
  match x with NaN => true | _ => false end.

(** The Number value of a non-negative integer: the integer itself below
    [2^53], else the nearest multiple of the unit in the last of 53 binary
    places, ties to the even one, and [Infinity] from [2^1024]. *)
Definition roundNonNeg (n : Z) : number :=
  if n <? 2 ^ 53 then Finite n
  else
    let e := Z.log2 n - 52 in
    let q := Z.shiftr n e in
    let r := n - Z.shiftl q e in
    let half := Z.shiftl 1 (e - 1) in
    let m := if r <? half then q
             else if half <? r then q + 1
             else if Z.even q then q else q + 1 in
    if 2 ^ 1024 <=? Z.shiftl m e then PosInfinity else Finite (Z.shiftl m e).

Definition negate (x : number) : number :=
  match x with
  | Finite z => Finite (- z)
  | PosInfinity => NegInfinity
  | NegInfinity => PosInfinity
  | NaN => NaN
  end.

(** The Number value of an integer. *)
Definition ofInteger (z : Z) : number :=
  if z <? 0 then negate (roundNonNeg (- z)) else roundNonNeg z.

(** [a - b]. *)
Definition minus (a b : number) : number :=
  match a, b with
  | NaN, _ | _, NaN => NaN
  | Finite x, Finite y => ofInteger (x - y)
  | PosInfinity, PosInfinity | NegInfinity, NegInfinity => NaN
  | PosInfinity, _ | _, NegInfinity => PosInfinity
  | NegInfinity, _ | _, PosInfinity => NegInfinity
  end.

(** What [Array.prototype.sort] makes of a comparator's result [v]: [NaN]
    counts as [0], and the first argument is not placed after the second
    when [v <= 0]. *)
Definition notAfter (v : number) : bool :=
  match v with
  | Finite z => z <=? 0
  | PosInfinity => false
  | NegInfinity => true
  | NaN => true
  end.

End Js.

Infix "|||" := Js.or (at level 50, left associativity).

(** ** The platform *)

Class JsRuntime := {
  (** [new Date(s)]: milliseconds since the epoch, [None] for an invalid date. *)
  Date_parse : string -> option Z;
  (** [d.toLocaleString("en-GB", { timeZone: "Europe/London" })] for the
      date of time value [t]. *)
  Date_toLocaleString : Z -> string;
  (** [Number(s)] for a string [s]: [None] for [NaN]. *)
  Number_parse : string -> option Z;
  (** [a.localeCompare(b, undefined, {numeric: true})]. *)
  localeCompare : string -> string -> Z;
  (** [JSON.stringify(s)] for a string [s]: quoted and escaped. *)
  JSON_quote : string -> string
}.

(** ** Insertion-ordered maps ([Map] with string keys) *)

Module JsMap.

Definition t (V : Type) : Type := list (string * V).

Definition empty {V} : t V := [].

Fixpoint get {V} (m : t V) (k : string) : option V :=
  match m with
  | [] => None
  | (k', v) :: m' => if String.eqb k' k then Some v else get m' k
  end.

Definition has {V} (m : t V) (k : string) : bool :=
  match get m k with Some _ => true | None => false end.

(** [m.set(k, v)]: an existing key keeps its position, a new one goes last. *)
Fixpoint set {V} (m : t V) (k : string) (v : V) : t V :=
  match m with
  | [] => [(k, v)]
  | (k', v') :: m' =>
      if String.eqb k' k then (k, v) :: m' else (k', v') :: set m' k v
  end.

Definition values {V} (m : t V) : list V := map snd m.
Definition keys {V} (m : t V) : list string := map fst m.
Definition size {V} (m : t V) : nat := length m.

End JsMap.
(** ** The normalised document *)

(** [OperatingPeriod] of a service or of the document. *)
Record OperatingPeriod := {
  op_StartDate : Js.value;
  op_Start : Js.value;
  op_EndDate : Js.value;
  op_End : Js.value
}.

(** [ValidBetween] of the document. *)
Record ValidBetween := {
  vb_FromDate : Js.value;
  vb_StartDate : Js.value;
  vb_Start : Js.value;
  vb_ToDate : Js.value;
  vb_EndDate : Js.value;
  vb_End : Js.value
}.

(** An [Operator] element, of the document or hanging off a service. *)
Record Operator := {
  o_id : Js.value;
  o_OperatorRef : Js.value;
  o_NationalOperatorCode : Js.value;
  o_OperatorCode : Js.value;
  o_OperatorNameOnLicence : Js.value;
  o_TradingName : Js.value;
  o_OperatorShortName : Js.value
}.

Record Service := {
  s_ServiceCode : Js.value;
  s_RevisionNumber : Js.value;
  s_OperatingPeriod : option OperatingPeriod;
  s_Lines_Line_LineName : Js.value;
  s_LineName : Js.value;
  s_Description : Js.value;
  s_ServiceRef : Js.value;
  s_RegisteredOperatorRef : Js.value;
  s_Operators : list Operator
}.

Record VehicleJourney := {
  vj_ServiceRef : Js.value;
  vj_ServiceCode : Js.value
}.

Record JourneyPatternTimingLink := {
  l_From_StopPointRef : Js.value;
  l_To_StopPointRef : Js.value
}.

(** The [TransXChange] root; singular-or-array children are lists, and a
    child that is read through its properties only is [None] when it has
    none of them. *)
Record TransXChange := {
  x_Services : list Service;
  x_JourneyPatternSections : list (list JourneyPatternTimingLink);
  x_VehicleJourneys : list VehicleJourney;
  x_Operators : list Operator;
  x_RevisionNumber : Js.value;
  x_PublicationTimestamp : Js.value;
  x_CreationDateTime : Js.value;
  x_ValidBetween : option ValidBetween;
  x_OperatingPeriod : option OperatingPeriod
}.

(** [{}]: the period every field of which is [undefined]. *)
Definition noPeriod : OperatingPeriod :=
  {| op_StartDate := Js.undefined; op_Start := Js.undefined;
     op_EndDate := Js.undefined; op_End := Js.undefined |}.

Definition noValidBetween : ValidBetween :=
  {| vb_FromDate := Js.undefined; vb_StartDate := Js.undefined;
     vb_Start := Js.undefined; vb_ToDate := Js.undefined;
     vb_EndDate := Js.undefined; vb_End := Js.undefined |}.

(** ** The reference date *)

Module Clock.

(** [UK_NOW], for a run started at the instant [now]. *)
Definition UK_NOW `{JsRuntime} (now : Z) : string := Date_toLocaleString now.

(** [TODAY = new Date(UK_NOW)]: [None] when the text does not parse. *)
Definition TODAY `{JsRuntime} (now : Z) : option Z := Date_parse (UK_NOW now).

End Clock.

Section Engine.
Context {rt : JsRuntime}.

(** ** Validity filter *)

Definition parseISO (s : Js.value) : option Z :=
  if Js.truthy s then Date_parse (Js.toString s) else None.

(** [t < a] and [t > b] on dates: a comparison with [Invalid Date] is
    false. *)
Definition dateLt (t : option Z) (a : Z) : bool :=
  match t with Some t' => t' <? a | None => false end.

Definition dateGt (t : option Z) (b : Z) : bool :=
  match t with Some t' => t' >? b | None => false end.

(** [!(a && t < a) && !(b && t > b)] *)
Definition inRange (t : option Z) (a b : option Z) : bool :=
  negb (match a with Some a' => dateLt t a' | None => false end)
  && negb (match b with Some b' => dateGt t b' | None => false end).

(** The [s] of [serviceIsActiveToday]. *)
Definition validityStart (service : Service) (txcRoot : TransXChange) : option Z :=
  let op := default noPeriod (s_OperatingPeriod service) in
  let start := parseISO (op_StartDate op ||| op_Start op) in
  let vb := default noValidBetween (x_ValidBetween txcRoot) in
  let rop := default noPeriod (x_OperatingPeriod txcRoot) in
  Js.orObj (Js.orObj start
              (parseISO (vb_FromDate vb ||| vb_StartDate vb ||| vb_Start vb)))
           (parseISO (op_StartDate rop ||| op_Start rop)).

(** The [e] of [serviceIsActiveToday]. *)
Definition validityEnd (service : Service) (txcRoot : TransXChange) : option Z :=
  let op := default noPeriod (s_OperatingPeriod service) in
  let end_ := parseISO (op_EndDate op ||| op_End op) in
  let vb := default noValidBetween (x_ValidBetween txcRoot) in
  let rop := default noPeriod (x_OperatingPeriod txcRoot) in
  Js.orObj (Js.orObj end_
              (parseISO (vb_ToDate vb ||| vb_EndDate vb ||| vb_End vb)))
           (parseISO (op_EndDate rop ||| op_End rop)).

(** [TODAY] is the reference date of the run, [None] when it is
    [Invalid Date]. *)
Definition serviceIsActiveToday (TODAY : option Z) (service : Service)
    (txcRoot : TransXChange) : bool :=
  let s := validityStart service txcRoot in
  let e := validityEnd service txcRoot in
  match s, e with
  | None, None => true
  | _, _ => inRange TODAY s e
  end.

(** ** Version resolver *)

Record VersionKey := { rev : Z; pubTs : Z }.

(** [Number(v)], [None] for [NaN]. *)
Definition toNumber (v : Js.value) : option Z :=
  match v with
  | Js.undefined => None
  | Js.text s => Number_parse s
  | Js.numeric s => Number_parse s
  | Js.boolean b => Some (if b then 1 else 0)
  | Js.object => None
  | Js.array _ => Number_parse (Js.toString v)
  end.

(** [Number(s.RevisionNumber ?? root?.RevisionNumber ?? 0) || 0] and
    [parseISO(...) || new Date(0)]. *)
Definition pickBest (s : Service) (root : TransXChange) : VersionKey :=
  {| rev := match Js.coalesce (s_RevisionNumber s) (x_RevisionNumber root) with
            | Js.undefined => 0
            | r => default 0 (toNumber r)
            end;
     pubTs := default 0 (parseISO (x_PublicationTimestamp root
                                   ||| x_CreationDateTime root)) |}.

Definition newer (a b : VersionKey) : bool :=
  if negb (rev a =? rev b) then rev a >? rev b else pubTs a >? pubTs b.

(** The version check of [parseTXC]: [None] is the [continue] that drops the
    occurrence, [Some best'] the table after [bestServiceVersion.set]. *)
Definition versionCheck (code : string) (ver : VersionKey)
    (best : gmap string VersionKey) : option (gmap string VersionKey) :=
  if Js.nonEmpty code then
    match best !! code with
    | Some prev => if negb (newer ver prev) then None else Some (<[code := ver]> best)
    | None => Some (<[code := ver]> best)
    end
  else Some best.

(** ** Stop-service index *)

Record Svc := {
  ref : string;
  name : string;
  operator : string;
  operatorCode : string;
  serviceCode : string
}.

Definition dquote : string := String (ascii_of_nat 34) EmptyString.

Definition JSON_member (k v : string) : string :=
  (dquote ++ k ++ dquote ++ ":" ++ JSON_quote v)%string.

(** [JSON.stringify(svc)]. *)
Definition JSON_stringify (svc : Svc) : string :=
  ("{" ++ JSON_member "ref" (ref svc)
   ++ "," ++ JSON_member "name" (name svc)
   ++ "," ++ JSON_member "operator" (operator svc)
   ++ "," ++ JSON_member "operatorCode" (operatorCode svc)
   ++ "," ++ JSON_member "serviceCode" (serviceCode svc) ++ "}")%string.

(** [svc.ref || svc.name || svc.serviceCode || JSON.stringify(svc)] *)
Definition identityKey (svc : Svc) : string :=
  if Js.nonEmpty (ref svc) then ref svc
  else if Js.nonEmpty (name svc) then name svc
  else if Js.nonEmpty (serviceCode svc) then serviceCode svc
  else JSON_stringify svc.

Definition add (atco : string) (svc : Svc)
    (stopToServices : JsMap.t (JsMap.t Svc)) : JsMap.t (JsMap.t Svc) :=
  if negb (Js.nonEmpty atco) then stopToServices
  else
    let '(bucket, stopToServices) :=
      match JsMap.get stopToServices atco with
      | Some bucket => (bucket, stopToServices)
      | None => (JsMap.empty, JsMap.set stopToServices atco JsMap.empty)
      end in
    let key := identityKey svc in
    if negb (JsMap.has bucket key)
    then JsMap.set stopToServices atco (JsMap.set bucket key svc)
    else stopToServices.

(** ** Operator resolver *)

(** The override object, as the list of its own properties in the order
    [Object.entries] enumerates them. *)
Definition Overrides : Type := list (string * string).

(** [hasOwnProperty.call(ov, k)] and [ov[k]] in one lookup. *)
Definition ownProperty (ov : Overrides) (k : string) : option string :=
  JsMap.get ov k.

(** The loop [for (const [k, v] of Object.entries(ov))] of rule 2. *)
Fixpoint prefixOverride (code : string) (ov : Overrides) : option string :=
  match ov with
  | [] => None
  | (k, v) :: ov' =>
      if Js.nonEmpty k && Js.startsWith code k then Some v
      else prefixOverride code ov'
  end.

Definition resolveOperator (rawCode txcName : string)
    (nocMap : gmap string string) (overrides : Overrides) : string :=
  let code := Js.trim rawCode in
  let name := Js.trim txcName in
  let ov := overrides in
  match (if Js.nonEmpty code then ownProperty ov code else None) with
  | Some v => v
  | None =>
  match (if Js.nonEmpty code then prefixOverride code ov else None) with
  | Some v => v
  | None =>
  match (if Js.nonEmpty code then nocMap !! code else None) with
  | Some v => v
  | None =>
  match (if Js.nonEmpty name then ownProperty ov name else None) with
  | Some v => v
  | None => if Js.nonEmpty name then name else code
  end end end end.

(** ** Document parser and merge *)

(** [set.add(x)] on an insertion-ordered [Set]. *)
Definition setAdd (x : string) (l : list string) : list string :=
  if existsb (String.eqb x) l then l else l ++ [x].

(** [if (f) sectionStops.add(String(f).trim())], and the same for [t]. *)
Definition addLinkStops (sectionStops : list string)
    (link : JourneyPatternTimingLink) : list string :=
  let f := l_From_StopPointRef link in
  let t := l_To_StopPointRef link in
  let sectionStops :=
    if Js.truthy f then setAdd (Js.trim (Js.toString f)) sectionStops
    else sectionStops in
  if Js.truthy t then setAdd (Js.trim (Js.toString t)) sectionStops
  else sectionStops.

Definition sectionStopsOf (txc : TransXChange) : list string :=
  fold_left (fun acc sec => fold_left addLinkStops sec acc)
            (x_JourneyPatternSections txc) [].

(** The members of [vjCodes]. *)
Definition vjCodesOf (txc : TransXChange) : list string :=
  List.filter Js.nonEmpty
    (map (fun vj => Js.trim (Js.str (vj_ServiceRef vj ||| vj_ServiceCode vj)))
         (x_VehicleJourneys txc)).

(** [vjCodes.size && code && !vjCodes.has(code)]: the service is not used in
    this file. *)
Definition notUsedInFile (vjCodes : list string) (code : string) : bool :=
  negb (Nat.eqb (length vjCodes) 0) && Js.nonEmpty code
  && negb (existsb (String.eqb code) vjCodes).

Record OperatorInfo := { oi_code : string; oi_name : string }.

(** The [name] of a declared operator: [String(... || "").trim()]. *)
Definition operatorName (o : Operator) : string :=
  Js.trim (Js.str (o_OperatorNameOnLicence o ||| o_TradingName o
                   ||| o_OperatorShortName o)).

Definition indexOperator (operatorIndex : JsMap.t OperatorInfo) (op : Operator)
    : JsMap.t OperatorInfo :=
  let id := Js.trim (Js.str (o_id op ||| o_OperatorRef op)) in
  let noc := Js.trim (Js.str (o_NationalOperatorCode op)) in
  let code := Js.trim (Js.str (o_OperatorCode op ||| Js.text noc ||| Js.text id)) in
  let name := operatorName op in
  let rec := {| oi_code := code; oi_name := name |} in
  let operatorIndex :=
    if Js.nonEmpty id then JsMap.set operatorIndex id rec else operatorIndex in
  let operatorIndex :=
    if Js.nonEmpty noc then JsMap.set operatorIndex noc rec else operatorIndex in
  if Js.nonEmpty code && negb (String.eqb code id) && negb (String.eqb code noc)
  then JsMap.set operatorIndex code rec else operatorIndex.

Definition operatorIndexOf (txc : TransXChange) : JsMap.t OperatorInfo :=
  fold_left indexOperator (x_Operators txc) JsMap.empty.

(** [a || b] on strings. *)
Definition orStr (a b : string) : string := if Js.nonEmpty a then a else b.

(** The name of an operator hanging off a service:
    [(o.OperatorNameOnLicence || o.TradingName || o.OperatorShortName || "").trim()],
    the method being called on the value as it is. Only a string has the
    method: for any other truthy value the call throws, which is [None]. *)
Definition serviceOperatorName (o : Operator) : option string :=
  match o_OperatorNameOnLicence o ||| o_TradingName o ||| o_OperatorShortName o
        ||| Js.text EmptyString with
  | Js.text s => Some (Js.trim s)
  | _ => None
  end.

(** [ops.map(f)] for an [f] that may throw. *)
Fixpoint mapThrowing {A B} (f : A -> option B) (l : list A) : option (list B) :=
  match l with
  | [] => Some []
  | x :: l' =>
      match f x with
      | Some y => option_map (cons y) (mapThrowing f l')
      | None => None
      end
  end.

(** The pair [(rawCode, txcOpName)] of a service, [None] when the names
    hanging off the service are read and one of them throws. *)
Definition operatorOf (operatorIndex : JsMap.t OperatorInfo) (s : Service)
    : option (string * string) :=
  let opRef := Js.trim (Js.str (s_RegisteredOperatorRef s)) in
  match (if Js.nonEmpty opRef then JsMap.get operatorIndex opRef else None) with
  | Some info => Some (orStr (oi_code info) opRef, oi_name info)
  | None =>
      match operatorIndex with
      | [(_, only)] => Some (orStr (oi_code only) opRef, oi_name only)
      | _ =>
          match mapThrowing serviceOperatorName (s_Operators s) with
          | Some names =>
              let ops := List.filter Js.nonEmpty names in
              let txcOpName := match ops with n :: _ => n | [] => EmptyString end in
              Some (orStr opRef txcOpName, txcOpName)
          | None => None
          end
      end
  end.

(** The run's aggregate: the two shared maps and the counters. *)
Record State := {
  stopToServices : JsMap.t (JsMap.t Svc);
  bestServiceVersion : gmap string VersionKey;
  servicesSeen : nat;
  servicesKept : nat;
  servicesExpired : nat
}.

Definition initialState : State :=
  {| stopToServices := JsMap.empty; bestServiceVersion := ∅;
     servicesSeen := 0; servicesKept := 0; servicesExpired := 0 |}.

(** What the loop body of [parseTXC] does with one declared service; [Threw]
    is the exception that ends the loop and the document. *)
Inductive Outcome :=
| NotUsedInFile
| Expired
| Superseded
| Kept (svc : Svc)
| Threw.

(** The record stored for a retained service, [None] when reading its
    operator throws. *)
Definition buildSvc (nocMap : gmap string string) (opOverrides : Overrides)
    (operatorIndex : JsMap.t OperatorInfo) (s : Service) (code : string)
    : option Svc :=
  let line := s_Lines_Line_LineName s ||| s_LineName s ||| s_Description s in
  match operatorOf operatorIndex s with
  | Some (rawCode, txcOpName) =>
      let resolvedOperator := resolveOperator rawCode txcOpName nocMap opOverrides in
      let refGuess := Js.str (s_ServiceRef s ||| s_LineName s ||| line) in
      Some {| ref := Js.trim refGuess;
              name := Js.trim (Js.str (line ||| Js.text refGuess));
              operator := Js.trim resolvedOperator;
              operatorCode := Js.trim rawCode;
              serviceCode := code |}
  | None => None
  end.

(** [String(s.ServiceCode || "").trim()] *)
Definition serviceCodeOf (s : Service) : string :=
  Js.trim (Js.str (s_ServiceCode s)).

(** One iteration of [for (const s of services)]. When the operator of the
    service throws, the service has been counted as seen and its version
    retained, and nothing else has happened. *)
Definition processService (TODAY : option Z) (nocMap : gmap string string)
    (opOverrides : Overrides) (txc : TransXChange) (sectionStops vjCodes : list string)
    (operatorIndex : JsMap.t OperatorInfo) (st : State) (s : Service)
    : State * Outcome :=
  let seen := S (servicesSeen st) in
  let code := serviceCodeOf s in
  if notUsedInFile vjCodes code then
    ({| stopToServices := stopToServices st;
        bestServiceVersion := bestServiceVersion st;
        servicesSeen := seen; servicesKept := servicesKept st;
        servicesExpired := servicesExpired st |}, NotUsedInFile)
  else if negb (serviceIsActiveToday TODAY s txc) then
    ({| stopToServices := stopToServices st;
        bestServiceVersion := bestServiceVersion st;
        servicesSeen := seen; servicesKept := servicesKept st;
        servicesExpired := S (servicesExpired st) |}, Expired)
  else
    match versionCheck code (pickBest s txc) (bestServiceVersion st) with
    | None =>
        ({| stopToServices := stopToServices st;
            bestServiceVersion := bestServiceVersion st;
            servicesSeen := seen; servicesKept := servicesKept st;
            servicesExpired := servicesExpired st |}, Superseded)
    | Some best =>
        match buildSvc nocMap opOverrides operatorIndex s code with
        | Some svc =>
            ({| stopToServices :=
                  fold_left (fun idx atco => add atco svc idx) sectionStops
                            (stopToServices st);
                bestServiceVersion := best;
                servicesSeen := seen; servicesKept := S (servicesKept st);
                servicesExpired := servicesExpired st |}, Kept svc)
        | None =>
            ({| stopToServices := stopToServices st;
                bestServiceVersion := best;
                servicesSeen := seen; servicesKept := servicesKept st;
                servicesExpired := servicesExpired st |}, Threw)
        end
    end.

(** The loop [for (const s of services)]: it ends with the list or with the
    first service that throws. *)
Fixpoint serviceLoop (body : State -> Service -> State * Outcome)
    (services : list Service) (st : State) : State :=
  match services with
  | [] => st
  | s :: services' =>
      match body st s with
      | (st', Threw) => st'
      | (st', _) => serviceLoop body services' st'
      end
  end.

(** [parseTXC] on a parsed document, inside the [try] of [parseZip] that
    ignores what it throws; [None] is a document without a [TransXChange]
    root. *)
Definition parseTXC (TODAY : option Z) (nocMap : gmap string string)
    (opOverrides : Overrides) (doc : option TransXChange) (st : State) : State :=
  match doc with
  | None => st
  | Some txc =>
      let sectionStops := sectionStopsOf txc in
      let vjCodes := vjCodesOf txc in
      let operatorIndex := operatorIndexOf txc in
      serviceLoop
        (processService TODAY nocMap opOverrides txc sectionStops vjCodes
                        operatorIndex)
        (x_Services txc) st
  end.

(** ** Output builder *)

Definition digitValue (c : ascii) : option Z :=
  let n := nat_of_ascii c in
  if (Nat.leb 48 n && Nat.leb n 57)%bool then Some (Z.of_nat n - 48) else None.

(** The digits matched by [/^(\d+)/]. *)
Fixpoint leadingDigits (s : string) : list Z :=
  match s with
  | EmptyString => []
  | String c s' =>
      match digitValue c with
      | Some d => d :: leadingDigits s'
      | None => []
      end
  end.

(** The integer that a run of digits denotes. *)
Definition decimalValue (ds : list Z) : Z :=
  fold_left (fun acc d => 10 * acc + d) ds 0.

(** [num]: [+m[1]], the Number value of the leading run of digits, or
    [NaN]. *)
Definition num (v : string) : Js.number :=
  match leadingDigits v with
  | [] => Js.NaN
  | ds => Js.ofInteger (decimalValue ds)
  end.

(** [String(a.ref || a.name)] *)
Definition collationKey (a : Svc) : string := orStr (ref a) (name a).

(** The comparator handed to [arr.sort]. *)
Definition compareServices (a b : Svc) : Js.number :=
  let an := num (ref a) in
  let bn := num (ref b) in
  if negb (Js.isNaN an) && negb (Js.isNaN bn) then Js.minus an bn
  else if negb (Js.isNaN an) then Js.Finite (-1)
  else if negb (Js.isNaN bn) then Js.Finite 1
  else Js.Finite (localeCompare (collationKey a) (collationKey b)).

(** [Array.prototype.sort] is stable; it is modelled by the stable insertion
    sort: an element is placed before the first element of the sorted tail
    that it does not come after. *)
Fixpoint sortInsert {A} (cmp : A -> A -> Js.number) (x : A) (l : list A) : list A :=
  match l with
  | [] => [x]
  | y :: l' => if Js.notAfter (cmp x y) then x :: l else y :: sortInsert cmp x l'
  end.

Fixpoint sort {A} (cmp : A -> A -> Js.number) (l : list A) : list A :=
  match l with
  | [] => []
  | x :: l' => sortInsert cmp x (sort cmp l')
  end.

(** The array written for one stop. *)
Definition servicesOfStop (bucket : JsMap.t Svc) : list Svc :=
  sort compareServices (JsMap.values bucket).

(** The object [out]. *)
Definition buildOutput (stopToServices : JsMap.t (JsMap.t Svc))
    : JsMap.t (list Svc) :=
  map (fun '(atco, bucket) => (atco, servicesOfStop bucket)) stopToServices.

End Engine.

(** ** Sharder ([shard.js]) *)

Module Shard.

(** [String(atco).slice(0, 4) || "misc"] *)
Definition prefixOf (atco : string) : string :=
  let p := Js.slice0 4 atco in
  if Js.nonEmpty p then p else "misc"%string.

(** One iteration of the bucketing loop. *)
Definition assign {V} (buckets : JsMap.t (JsMap.t V)) (entry : string * V)
    : JsMap.t (JsMap.t V) :=
  let '(atco, list) := entry in
  let prefix := prefixOf atco in
  let buckets :=
    if negb (JsMap.has buckets prefix) then JsMap.set buckets prefix JsMap.empty
    else buckets in
  JsMap.set buckets prefix
    (JsMap.set (default JsMap.empty (JsMap.get buckets prefix)) atco list).

(** [buckets] after the loop over [Object.entries(src)]. *)
Definition shard {V} (src : JsMap.t V) : JsMap.t (JsMap.t V) :=
  fold_left assign src JsMap.empty.

(** [buckets.get(prefix)[atco]] *)
Definition entry {V} (buckets : JsMap.t (JsMap.t V)) (prefix atco : string)
    : option V :=
  match JsMap.get buckets prefix with
  | Some bucket => JsMap.get bucket atco
  | None => None
  end.

End Shard.
(** ** A reference runtime

    Used to run the engine on concrete documents. [new Date(s)] reads the
    date-only ISO strings [YYYY-MM-DD] (midnight UTC) and, as V8 does for a
    text that is not ISO, [MM/DD/YYYY, HH:MM:SS] in the local time of a
    machine that runs on UTC; [toLocaleString] writes [DD/MM/YYYY, HH:MM:SS]
    in London time; [Number] reads the empty string as 0 and unsigned
    decimal numerals, ordinal string comparison stands in for collation, and
    strings that need no escape are quoted. *)

Module Ref.

Fixpoint digits (s : string) : option (list Z) :=
  match s with
  | EmptyString => Some []
  | String c s' =>
      match digitValue c, digits s' with
      | Some d, Some ds => Some (d :: ds)
      | _, _ => None
      end
  end.

Definition decimal (s : string) : option Z :=
  match s with
  | EmptyString => None
  | _ => option_map (fun ds => fold_left (fun acc d => 10 * acc + d) ds 0)
                    (digits s)
  end.

(** [Number(s)]. *)
Definition number (s : string) : option Z :=
  match s with
  | EmptyString => Some 0
  | _ => decimal s
  end.

(** Days from 1970-01-01 to the civil date [y-m-d]. *)
Definition daysFromCivil (y m d : Z) : Z :=
  let y' := if m <=? 2 then y - 1 else y in
  let era := y' / 400 in
  let yoe := y' - era * 400 in
  let mp := (m + 9) mod 12 in
  let doy := (153 * mp + 2) / 5 + d - 1 in
  let doe := yoe * 365 + yoe / 4 - yoe / 100 + doy in
  era * 146097 + doe - 719468.

Definition isoDate (s : string) : option Z :=
  if negb (Nat.eqb (String.length s) 10) then None
  else
    match String.get 4 s, String.get 7 s with
    | Some "-"%char, Some "-"%char =>
        match decimal (substring 0 4 s), decimal (substring 5 2 s),
              decimal (substring 8 2 s) with
        | Some y, Some m, Some d =>
            if (1 <=? m) && (m <=? 12) && (1 <=? d) && (d <=? 31)
            then Some (daysFromCivil y m d * 86400000)
            else None
        | _, _, _ => None
        end
    | _, _ => None
    end.

(** The civil date of a day number. *)
Definition civilFromDays (z : Z) : Z * Z * Z :=
  let z := z + 719468 in
  let era := z / 146097 in
  let doe := z - era * 146097 in
  let yoe := (doe - doe / 1460 + doe / 36524 - doe / 146096) / 365 in
  let doy := doe - (365 * yoe + yoe / 4 - yoe / 100) in
  let mp := (5 * doy + 2) / 153 in
  let d := doy - (153 * mp + 2) / 5 + 1 in
  let m := if mp <? 10 then mp + 3 else mp - 9 in
  ((if m <=? 2 then yoe + era * 400 + 1 else yoe + era * 400), m, d).

(** The last Sunday of a month of 31 days, as a day number. *)
Definition lastSunday (y m : Z) : Z :=
  let last := daysFromCivil y m 31 in
  last - (last + 4) mod 7.

(** The offset of London time from UTC at an instant: one hour from 01:00
    UTC on the last Sunday of March to 01:00 UTC on the last Sunday of
    October. *)
Definition londonOffset (t : Z) : Z :=
  let '(y, _, _) := civilFromDays (t / 86400000) in
  if (lastSunday y 3 * 86400000 + 3600000 <=? t)
     && (t <? lastSunday y 10 * 86400000 + 3600000)
  then 3600000 else 0.

Definition numeral (n : Z) : string :=
  NilZero.string_of_uint (N.to_uint (Z.to_N n)).

Definition pad2 (n : Z) : string :=
  if n <? 10 then ("0" ++ numeral n)%string else numeral n.

(** [DD/MM/YYYY, HH:MM:SS] in London time. *)
Definition enGB (t : Z) : string :=
  let local := t + londonOffset t in
  let '(y, m, d) := civilFromDays (local / 86400000) in
  let ms := local mod 86400000 in
  (pad2 d ++ "/" ++ pad2 m ++ "/" ++ numeral y ++ ", "
   ++ pad2 (ms / 3600000) ++ ":" ++ pad2 (ms / 60000 mod 60) ++ ":"
   ++ pad2 (ms / 1000 mod 60))%string.

(** [MM/DD/YYYY, HH:MM:SS]: the first number is the month. A month above 12
    makes the date invalid; a day up to 31 is taken as it is, past the end
    of the month when the month is shorter. *)
Definition slashDate (s : string) : option Z :=
  if negb (Nat.eqb (String.length s) 20) then None
  else
    match String.get 2 s, String.get 5 s, String.get 10 s, String.get 11 s,
          String.get 14 s, String.get 17 s with
    | Some "/"%char, Some "/"%char, Some ","%char, Some " "%char,
      Some ":"%char, Some ":"%char =>
        match decimal (substring 0 2 s), decimal (substring 3 2 s),
              decimal (substring 6 4 s), decimal (substring 12 2 s),
              decimal (substring 15 2 s), decimal (substring 18 2 s) with
        | Some m, Some d, Some y, Some hh, Some mm, Some ss =>
            if (1 <=? m) && (m <=? 12) && (1 <=? d) && (d <=? 31)
               && (hh <=? 23) && (mm <=? 59) && (ss <=? 59)
            then Some ((daysFromCivil y m 1 + d - 1) * 86400000
                       + hh * 3600000 + mm * 60000 + ss * 1000)
            else None
        | _, _, _, _, _, _ => None
        end
    | _, _, _, _, _, _ => None
    end.

Definition parseDate (s : string) : option Z :=
  match isoDate s with
  | Some t => Some t
  | None => slashDate s
  end.

Definition ordinalCompare (a b : string) : Z :=
  match String.compare a b with
  | Lt => -1
  | Eq => 0
  | Gt => 1
  end.

Definition quote (s : string) : string := (dquote ++ s ++ dquote)%string.

Definition runtime : JsRuntime :=
  {| Date_parse := parseDate;
     Date_toLocaleString := enGB;
     Number_parse := number;
     localeCompare := ordinalCompare;
     JSON_quote := quote |}.

End Ref.
(** ** Observations on the run and specification-side readings *)

(** First present value of a priority list. *)
Fixpoint firstPresent {A} (l : list (option A)) : option A :=
  match l with
  | [] => None
  | Some a :: _ => Some a
  | None :: l' => firstPresent l'
  end.

(** The three (start, end) sources of a service, in priority order: its own
    operating period, the document's valid-between, the document's
    operating period. *)
Definition boundSources `{JsRuntime} (service : Service) (txcRoot : TransXChange)
    : list (option Z * option Z) :=
  let op := default noPeriod (s_OperatingPeriod service) in
  let vb := default noValidBetween (x_ValidBetween txcRoot) in
  let rop := default noPeriod (x_OperatingPeriod txcRoot) in
  [ (parseISO (op_StartDate op ||| op_Start op),
     parseISO (op_EndDate op ||| op_End op));
    (parseISO (vb_FromDate vb ||| vb_StartDate vb ||| vb_Start vb),
     parseISO (vb_ToDate vb ||| vb_EndDate vb ||| vb_End vb));
    (parseISO (op_StartDate rop ||| op_Start rop),
     parseISO (op_EndDate rop ||| op_End rop)) ].

(** Pair priority, as the specification words it: the first source with a
    start or an end supplies both sides. *)
Fixpoint firstPresentPair (l : list (option Z * option Z)) : option Z * option Z :=
  match l with
  | [] => (None, None)
  | (None, None) :: l' => firstPresentPair l'
  | p :: _ => p
  end.

(** The validity filter as the specification words it: the reference date
    [D] within the bounds of the first present pair, each side a bound only
    when present. *)
Definition activeByPairPriority `{JsRuntime} (D : Z) (service : Service)
    (txcRoot : TransXChange) : bool :=
  let '(s, e) := firstPresentPair (boundSources service txcRoot) in
  negb (match s with Some a => D <? a | None => false end)
  && negb (match e with Some b => b <? D | None => false end).

(** The table after the version checks of a list of candidates for one
    service code, in arrival order. *)
Definition presentAll (code : string) (candidates : list VersionKey)
    (best : gmap string VersionKey) : gmap string VersionKey :=
  fold_left (fun best ver => default best (versionCheck code ver best))
            candidates best.

(** A candidate strictly exceeds the retained key. *)
Definition exceeds (ver prev : VersionKey) : Prop :=
  rev prev < rev ver \/ (rev ver = rev prev /\ pubTs prev < pubTs ver).

(** The record stored for an identity key at a stop, and the number of
    records of a stop. *)
Definition lookupService (idx : JsMap.t (JsMap.t Svc)) (atco key : string)
    : option Svc :=
  match JsMap.get idx atco with
  | Some bucket => JsMap.get bucket key
  | None => None
  end.

Definition serviceCount (idx : JsMap.t (JsMap.t Svc)) (atco : string) : nat :=
  match JsMap.get idx atco with
  | Some bucket => JsMap.size bucket
  | None => 0%nat
  end.

(** The vehicle-journey gate as the specification words it: with vehicle
    journeys declared, the service code must be among their service
    references. *)
Definition usedInFileBySpec (txc : TransXChange) (code : string) : bool :=
  match x_VehicleJourneys txc with
  | [] => true
  | vjs =>
      existsb (String.eqb code)
        (map (fun vj => Js.trim (Js.str (vj_ServiceRef vj ||| vj_ServiceCode vj)))
             vjs)
  end.

(** One service of a document, processed as [parseTXC] does. *)
Definition processIn `{JsRuntime} (TODAY : option Z) (nocMap : gmap string string)
    (opOverrides : Overrides) (txc : TransXChange) (st : State) (s : Service)
    : State * Outcome :=
  processService TODAY nocMap opOverrides txc (sectionStopsOf txc)
                 (vjCodesOf txc) (operatorIndexOf txc) st s.

(** The resolution order as the specification words it, on the code and
    the name as given. *)
Definition resolveBySpec (rawOperatorCode documentOperatorName : string)
    (nocMap : gmap string string) (overrides : Overrides) : string :=
  default rawOperatorCode
    (firstPresent
       [ ownProperty overrides rawOperatorCode;
         option_map snd
           (List.find (fun kv => Js.startsWith rawOperatorCode (fst kv)) overrides);
         nocMap !! rawOperatorCode;
         ownProperty overrides documentOperatorName;
         if Js.nonEmpty documentOperatorName then Some documentOperatorName
         else None ]).

(** A rule that applies only to a non-empty subject. *)
Definition whenNonEmpty {A} (subject : string) (rule : option A) : option A :=
  if Js.nonEmpty subject then rule else None.

(** The six rules on the trimmed code and name, each guarded as the code
    guards it. *)
Definition resolutionRules (code name : string) (nocMap : gmap string string)
    (overrides : Overrides) : list (option string) :=
  [ whenNonEmpty code (ownProperty overrides code);
    whenNonEmpty code
      (option_map snd
         (List.find (fun kv => Js.nonEmpty (fst kv) && Js.startsWith code (fst kv))
                    overrides));
    whenNonEmpty code (nocMap !! code);
    whenNonEmpty name (ownProperty overrides name);
    whenNonEmpty name (Some name);
    Some code ].




(** ** Concrete documents *)

Module Example.

Definition period (start end_ : Js.value) : OperatingPeriod :=
  {| op_StartDate := start; op_Start := Js.undefined; op_EndDate := end_;
     op_End := Js.undefined |}.

Definition validBetween (from to : Js.value) : ValidBetween :=
  {| vb_FromDate := from; vb_StartDate := Js.undefined; vb_Start := Js.undefined;
     vb_ToDate := to; vb_EndDate := Js.undefined; vb_End := Js.undefined |}.

(** A service with a code, a revision, an operating period, a line name and
    an operator reference. *)
Definition service (code rev_ : Js.value) (op : option OperatingPeriod)
    (lineName opRef : Js.value) : Service :=
  {| s_ServiceCode := code; s_RevisionNumber := rev_; s_OperatingPeriod := op;
     s_Lines_Line_LineName := Js.undefined; s_LineName := lineName;
     s_Description := Js.undefined; s_ServiceRef := Js.undefined;
     s_RegisteredOperatorRef := opRef; s_Operators := [] |}.

Definition link (from to : string) : JourneyPatternTimingLink :=
  {| l_From_StopPointRef := Js.text from; l_To_StopPointRef := Js.text to |}.

Definition document (services : list Service)
    (links : list JourneyPatternTimingLink) (vjs : list VehicleJourney)
    (vb : option ValidBetween) : TransXChange :=
  {| x_Services := services; x_JourneyPatternSections := [links];
     x_VehicleJourneys := vjs; x_Operators := [];
     x_RevisionNumber := Js.undefined; x_PublicationTimestamp := Js.undefined;
     x_CreationDateTime := Js.undefined; x_ValidBetween := vb;
     x_OperatingPeriod := None |}.

(** 2024-01-01, 2024-06-30 and 2025-01-01, in milliseconds. *)
Definition jan2024 : Z := 1704067200000.
Definition jun2024 : Z := 1719705600000.
Definition jan2025 : Z := 1735689600000.

(** A service that starts on 2024-01-01 and declares no end, in a document
    valid until 2024-06-30. *)
Definition openEnded : Service :=
  service (Js.text "S1") Js.undefined
          (Some (period (Js.text "2024-01-01") Js.undefined)) (Js.numeric "12")
          Js.undefined.

Definition validToJune : TransXChange :=
  document [openEnded] [link "A" "B"] []
           (Some (validBetween Js.undefined (Js.text "2024-06-30"))).

(** 2024-03-01. *)
Definition mar2024 : Z := 1709251200000.

(** Line 12 as service S1 at revision 1 of operator OPA, calling at A and B. *)
Definition s1rev1 : Service :=
  service (Js.text "S1") (Js.numeric "1") None (Js.numeric "12") (Js.text "OPA").

Definition doc1 : TransXChange := document [s1rev1] [link "A" "B"] [] None.

(** Line 12 again, as service S9 at revision 5 of operator OPB, calling at
    A and C. *)
Definition s9rev5 : Service :=
  service (Js.text "S9") (Js.numeric "5") None (Js.numeric "12") (Js.text "OPB").

Definition doc2 : TransXChange := document [s9rev5] [link "A" "C"] [] None.

(** The run state after [doc1]. *)
Definition afterDoc1 : State :=
  parseTXC (rt := Ref.runtime) (Some mar2024) ∅ [] (Some doc1) initialState.

Definition svc1 : Svc :=
  {| ref := "12"; name := "12"; operator := "OPA"; operatorCode := "OPA";
     serviceCode := "S1" |}.

(** A service without a code, in a document whose only vehicle journey
    refers to service S1. *)
Definition noCode : Service :=
  service Js.undefined Js.undefined None (Js.numeric "7") Js.undefined.

(** Two documents that both declare the service without a code, at the same
    version, the second calling at other stops. *)
Definition codelessAB : TransXChange := document [noCode] [link "A" "B"] [] None.

Definition codelessCD : TransXChange := document [noCode] [link "C" "D"] [] None.

Definition afterCodelessAB : State :=
  parseTXC (rt := Ref.runtime) (Some mar2024) ∅ [] (Some codelessAB) initialState.

Definition svc7 : Svc :=
  {| ref := "7"; name := "7"; operator := EmptyString;
     operatorCode := EmptyString; serviceCode := EmptyString |}.

Definition journeyOfS1 : TransXChange :=
  document [noCode] [link "A" "B"]
           [{| vj_ServiceRef := Js.text "S1"; vj_ServiceCode := Js.undefined |}] None.

(** Service S2 in a document whose only vehicle journey has no service
    reference. *)
Definition s2 : Service :=
  service (Js.text "S2") Js.undefined None (Js.numeric "8") Js.undefined.

Definition journeyWithoutRef : TransXChange :=
  document [s2] [link "A" "B"]
           [{| vj_ServiceRef := Js.undefined; vj_ServiceCode := Js.undefined |}] None.

Definition overrides : Overrides := [("TKT_OID", "Bee Network Metroline")]%string.

Definition nocTable : gmap string string := {[ "ABCD" := "Acme Buses" ]}%string.

(** A record known by its [ref] alone. *)
Definition line (r : string) : Svc :=
  {| ref := r; name := r; operator := EmptyString; operatorCode := EmptyString;
     serviceCode := EmptyString |}.



(** 2024-03-13 09:00, 2024-04-04 09:00 and 2024-04-13 09:00 UTC. *)
Definition mar13 : Z := 1710320400000.
Definition apr04 : Z := 1712221200000.
Definition apr13 : Z := 1712998800000.

(** Service S3, which ran from 2020-01-01 to 2020-12-31. *)
Definition ended2020 : Service :=
  service (Js.text "S3") (Js.numeric "1")
          (Some (period (Js.text "2020-01-01") (Js.text "2020-12-31")))
          (Js.numeric "3") Js.undefined.

Definition endedDoc : TransXChange := document [ended2020] [link "A" "B"] [] None.

(** An operator hanging off a service, known by a trading name. *)
Definition tradingAs (n : Js.value) : Operator :=
  {| o_id := Js.undefined; o_OperatorRef := Js.undefined;
     o_NationalOperatorCode := Js.undefined; o_OperatorCode := Js.undefined;
     o_OperatorNameOnLicence := Js.undefined; o_TradingName := n;
     o_OperatorShortName := Js.undefined |}.

(** Service S4 of the operator whose trading name is the number 1066, and
    service S5 after it in the same document. *)
Definition s4 : Service :=
  {| s_ServiceCode := Js.text "S4"; s_RevisionNumber := Js.numeric "2";
     s_OperatingPeriod := None; s_Lines_Line_LineName := Js.undefined;
     s_LineName := Js.numeric "4"; s_Description := Js.undefined;
     s_ServiceRef := Js.undefined; s_RegisteredOperatorRef := Js.undefined;
     s_Operators := [tradingAs (Js.numeric "1066")] |}.

Definition s5 : Service :=
  service (Js.text "S5") Js.undefined None (Js.numeric "5") Js.undefined.

Definition numberedOperator : TransXChange :=
  document [s4; s5] [link "A" "B"] [] None.

(** A timing link from the stop that the parser reads as the number
    100053316 to a stop that it reads as the number 0. *)
Definition numberedStops : TransXChange :=
  document [s5]
           [{| l_From_StopPointRef := Js.numeric "100053316";
               l_To_StopPointRef := Js.numeric "0" |}] [] None.

End Example.
(** ** The archive loop and the run *)

Definition lowerAscii (c : ascii) : ascii :=
  let n := nat_of_ascii c in
  if (Nat.leb 65 n && Nat.leb n 90)%bool then ascii_of_nat (n + 32) else c.

Fixpoint lower (s : string) : string :=
  match s with
  | EmptyString => EmptyString
  | String c s' => String (lowerAscii c) (lower s')
  end.

(** [/\.xml$/i.test(fileName)] *)
Definition isXmlEntry (fileName : string) : bool :=
  String.eqb (lower (substring (String.length fileName - 4) 4 fileName)) ".xml".

(** An entry of an archive: its name and what the XML parser makes of its
    content, [None] when the content does not parse or has no
    [TransXChange] root (either way [parseTXC] leaves the run as it is). *)
Record ZipEntry := {
  fileName : string;
  document : option TransXChange
}.

(** [parseZip]: the entries of one archive, in order. *)
Definition parseZip `{JsRuntime} (TODAY : option Z) (nocMap : gmap string string)
    (opOverrides : Overrides) (entries : list ZipEntry) (st : State) : State :=
  fold_left
    (fun st entry =>
       if isXmlEntry (fileName entry)
       then parseTXC TODAY nocMap opOverrides (document entry) st
       else st)
    entries st.

(** The loop [for (const z of zips) await parseZip(z)] from the initial
    state. *)
Definition run `{JsRuntime} (TODAY : option Z) (nocMap : gmap string string)
    (opOverrides : Overrides) (zips : list (list ZipEntry)) : State :=
  fold_left (fun st entries => parseZip TODAY nocMap opOverrides entries st)
            zips initialState.

(** The script, started at the instant [now]: the state after all archives,
    with the reference date it computes for itself. *)
Definition main `{JsRuntime} (now : Z) (nocMap : gmap string string)
    (opOverrides : Overrides) (zips : list (list ZipEntry)) : State :=
  run (Clock.TODAY now) nocMap opOverrides zips.

(** The services that the loop of [parseTXC] reaches, each with its
    outcome: all the services, or those up to the first that throws. *)
Fixpoint loopTrace (body : State -> Service -> State * Outcome)
    (services : list Service) (st : State) : list (Service * Outcome) :=
  match services with
  | [] => []
  | s :: services' =>
      match body st s with
      | (_, Threw) => [(s, Threw)]
      | (st', outcome) => (s, outcome) :: loopTrace body services' st'
      end
  end.

Definition isKept (o : Outcome) : bool :=
  match o with Kept _ => true | _ => false end.

Definition isExpired (o : Outcome) : bool :=
  match o with Expired => true | _ => false end.

Definition isThrew (o : Outcome) : bool :=
  match o with Threw => true | _ => false end.

(** The names of the operators hanging off a service can all be read. *)
Definition namesReadable (s : Service) : Prop :=
  is_Some (mapThrowing serviceOperatorName (s_Operators s)).

(** A bucket stores each record under its identity key, once. *)
Definition bucketKeyed `{JsRuntime} (bucket : JsMap.t Svc) : Prop :=
  List.NoDup (JsMap.keys bucket)
  /\ forall k v, In (k, v) bucket -> k = identityKey v.

(** The shape of the index: distinct non-empty stops, each with a non-empty
    well-keyed bucket. *)
Definition indexWellFormed `{JsRuntime} (idx : JsMap.t (JsMap.t Svc)) : Prop :=
  List.NoDup (JsMap.keys idx)
  /\ forall atco bucket,
       In (atco, bucket) idx ->
       atco <> EmptyString /\ bucket <> [] /\ bucketKeyed bucket.

(** The stop that an end of a timing link contributes to [sectionStops]. *)
Definition linkStop (x : string) (link : JourneyPatternTimingLink) : Prop :=
  (Js.truthy (l_From_StopPointRef link) = true
   /\ x = Js.trim (Js.toString (l_From_StopPointRef link)))
  \/ (Js.truthy (l_To_StopPointRef link) = true
      /\ x = Js.trim (Js.toString (l_To_StopPointRef link))).

(** ** The operator table ([operator-resolver.js]) *)

Definition quoteMark : ascii := ascii_of_nat 34.

(** [cur += ch] *)
Definition snoc (cur : string) (ch : ascii) : string :=
  (cur ++ String ch EmptyString)%string.

(** The loop of [splitCsvLine] from a position of the line, with the field
    in progress, the quoting state and the fields pushed so far. *)
Fixpoint splitCsvFrom (line cur : string) (inQuotes : bool)
    (result : list string) : list string :=
  match line with
  | EmptyString => result ++ [cur]
  | String ch rest =>
      if Ascii.eqb ch quoteMark then
        match rest with
        | String next rest' =>
            if inQuotes && Ascii.eqb next quoteMark
            then splitCsvFrom rest' (snoc cur quoteMark) inQuotes result
            else splitCsvFrom rest cur (negb inQuotes) result
        | EmptyString => splitCsvFrom rest cur (negb inQuotes) result
        end
      else if Ascii.eqb ch "," && negb inQuotes
      then splitCsvFrom rest EmptyString inQuotes (result ++ [cur])
      else splitCsvFrom rest (snoc cur ch) inQuotes result
  end.

Definition splitCsvLine (line : string) : list string :=
  splitCsvFrom line EmptyString false [].

(** A line terminator at the start of a string: LF, CR, U+2028 or U+2029. *)
Definition startsLineTerminator (s : string) : bool :=
  match s with
  | EmptyString => false
  | String a r1 =>
      let n := nat_of_ascii a in
      (Nat.eqb n 10 || Nat.eqb n 13)%bool
      || match r1 with
         | String b (String c _) =>
             (Nat.eqb n 226 && Nat.eqb (nat_of_ascii b) 128
              && (Nat.eqb (nat_of_ascii c) 168 || Nat.eqb (nat_of_ascii c) 169))%bool
         | _ => false
         end
  end.

(** [csv.split(/\r?\n/)], from a position with the line in progress. *)
Fixpoint splitLinesFrom (csv cur : string) : list string :=
  match csv with
  | EmptyString => [cur]
  | String c rest =>
      if Nat.eqb (nat_of_ascii c) 10 then cur :: splitLinesFrom rest EmptyString
      else if Nat.eqb (nat_of_ascii c) 13 then
        match rest with
        | String c' rest' =>
            if Nat.eqb (nat_of_ascii c') 10
            then cur :: splitLinesFrom rest' EmptyString
            else splitLinesFrom rest (snoc cur c)
        | EmptyString => splitLinesFrom rest (snoc cur c)
        end
      else splitLinesFrom rest (snoc cur c)
  end.

(** [csv.split(/\r?\n/).filter((l) => l.trim().length)] *)
Definition csvLines (csv : string) : list string :=
  List.filter (fun l => Js.nonEmpty (Js.trim l)) (splitLinesFrom csv EmptyString).

(** The rest of [s] after the literal [pat], when [s] starts with it. *)
Fixpoint afterLiteral (pat s : string) : option string :=
  match pat, s with
  | EmptyString, _ => Some s
  | String p pat', String c s' =>
      if Ascii.eqb p c then afterLiteral pat' s' else None
  | String _ _, EmptyString => None
  end.

(** A literal followed by what [k] accepts. *)
Definition literalThen (pat : string) (k : string -> bool) (s : string) : bool :=
  match afterLiteral pat s with
  | Some r => k r
  | None => false
  end.

(** [.*] followed by what [k] accepts: [.] is any code unit but a line
    terminator, so the bytes of the string are passed one by one up to a
    line terminator. *)
Fixpoint dotStarThen (k : string -> bool) (s : string) : bool :=
  k s || match s with
         | EmptyString => false
         | String _ s' => negb (startsLineTerminator s) && dotStarThen k s'
         end.

(** The rest of [s] after one code unit that [.] matches: a code point of
    one to three bytes that is not a line terminator. A code point of four
    bytes is two code units. *)
Definition afterDot (s : string) : option string :=
  if startsLineTerminator s then None
  else
    match s with
    | EmptyString => None
    | String a r1 =>
        let n := nat_of_ascii a in
        if Nat.ltb n 128 then Some r1
        else if (Nat.leb 192 n && Nat.ltb n 224)%bool then
          match r1 with String _ r2 => Some r2 | EmptyString => None end
        else if (Nat.leb 224 n && Nat.ltb n 240)%bool then
          match r1 with String _ (String _ r3) => Some r3 | _ => None end
        else None
    end.

(** An unanchored pattern: what [k] accepts, from some position. *)
Fixpoint anywhere (k : string -> bool) (s : string) : bool :=
  k s || match s with
         | EmptyString => false
         | String _ s' => anywhere k s'
         end.

Definition anything (s : string) : bool := true.

(** [/^noc.?code$/i.test(h)] *)
Definition matchesNocCode (h : string) : bool :=
  match afterLiteral "noc" (lower h) with
  | Some r =>
      String.eqb r "code"
      || match afterDot r with
         | Some r' => String.eqb r' "code"
         | None => false
         end
  | None => false
  end.

(** [/operator.*public.*name/i.test(h)] *)
Definition matchesOperatorPublicName (h : string) : bool :=
  anywhere
    (literalThen "operator"
       (dotStarThen
          (literalThen "public" (dotStarThen (literalThen "name" anything)))))
    (lower h).

(** [/operator.*name/i.test(h)] *)
Definition matchesOperatorName (h : string) : bool :=
  anywhere (literalThen "operator" (dotStarThen (literalThen "name" anything)))
           (lower h).

(** [l.findIndex(p)], [None] for [-1]. *)
Fixpoint findIndex {A} (p : A -> bool) (l : list A) : option nat :=
  match l with
  | [] => None
  | x :: l' => if p x then Some 0%nat else option_map S (findIndex p l')
  end.

(** [(row[i] || "").trim()] *)
Definition cell (row : list string) (i : nat) : string :=
  Js.trim (nth i row EmptyString).

(** The columns of the code and of the name, from the header line. *)
Definition nocColumns (headerLine : string) : option (nat * nat) :=
  let header := map Js.trim (splitCsvLine headerLine) in
  match findIndex matchesNocCode header,
        findIndex (fun h => matchesOperatorPublicName h || matchesOperatorName h)
                  header with
  | Some codeIdx, Some nameIdx => Some (codeIdx, nameIdx)
  | _, _ => None
  end.

(** One data line of the table. *)
Definition nocRow (codeIdx nameIdx : nat) (map_ : gmap string string)
    (line : string) : gmap string string :=
  let row := splitCsvLine line in
  let code := cell row codeIdx in
  let name := cell row nameIdx in
  if Js.nonEmpty code && Js.nonEmpty name then <[code := name]> map_ else map_.

(** [buildNocMap] on the content of the table file, [None] when the file
    cannot be read. *)
Definition buildNocMap (file : option string) : gmap string string :=
  match file with
  | None => ∅
  | Some csv =>
      match csvLines csv with
      | [] => ∅
      | headerLine :: rows =>
          match nocColumns headerLine with
          | Some (codeIdx, nameIdx) => fold_left (nocRow codeIdx nameIdx) rows ∅
          | None => ∅
          end
      end
  end.

(** A field written between quote marks, its quote marks doubled. *)
Fixpoint csvEscape (field : string) : string :=
  match field with
  | EmptyString => EmptyString
  | String c field' =>
      if Ascii.eqb c quoteMark
      then String quoteMark (String quoteMark (csvEscape field'))
      else String c (csvEscape field')
  end.

Definition csvQuote (field : string) : string :=
  String quoteMark (csvEscape field ++ String quoteMark EmptyString).

(** A field that can stand unquoted: no comma and no quote mark. *)
Fixpoint csvPlain (field : string) : bool :=
  match field with
  | EmptyString => true
  | String c field' =>
      negb (Ascii.eqb c quoteMark) && negb (Ascii.eqb c ",") && csvPlain field'
  end.

(** [cells.join(",")] *)
Fixpoint joinComma (cells : list string) : string :=
  match cells with
  | [] => EmptyString
  | [c] => c
  | c :: cells' => (c ++ String "," (joinComma cells'))%string
  end.

(** A cell that writes a field: the field quoted, or the field itself when
    it can stand unquoted. *)
Definition writes (field cell_ : string) : Prop :=
  cell_ = csvQuote field \/ (cell_ = field /\ csvPlain field = true).

(** A line without quote marks, and the number of its commas. *)
Fixpoint unquoted (line : string) : bool :=
  match line with
  | EmptyString => true
  | String c line' => negb (Ascii.eqb c quoteMark) && unquoted line'
  end.

Fixpoint commas (line : string) : nat :=
  match line with
  | EmptyString => 0%nat
  | String c line' => ((if Ascii.eqb c "," then 1 else 0) + commas line')%nat
  end.

(** What may follow a closing quote mark: the end of the line or anything
    but a quote mark. *)
Definition closes (tail : string) : Prop :=
  match tail with
  | EmptyString => True
  | String c _ => Ascii.eqb c quoteMark = false
  end.

(** The byte order mark U+FEFF, as a file begins that was saved with one. *)
Definition byteOrderMark : string :=
  String (ascii_of_nat 239) (String (ascii_of_nat 187)
    (String (ascii_of_nat 191) EmptyString)).

(** ** The earlier revision of the validity filter and of the version key *)

(** The fields that only the earlier revision reads from a service. *)
Record LegacyFields := {
  s_OperatingPeriodStartDate : Js.value;
  s_OperatingPeriodEndDate : Js.value;
  s_Revision : Js.value
}.

(** [inRange] of the earlier revision, with its two early returns; there
    [TODAY] is [new Date()], the instant the run started, always valid. *)
Definition inRangeLegacy (today : Z) (start end_ : option Z) : bool :=
  if match start with Some s => today <? s | None => false end then false
  else if match end_ with Some e => today >? e | None => false end then false
  else true.

(** [serviceIsActiveToday] of the earlier revision. *)
Definition serviceIsActiveTodayLegacy `{JsRuntime} (TODAY : Z) (service : Service)
    (more : LegacyFields) (txcRoot : TransXChange) : bool :=
  let op := default noPeriod (s_OperatingPeriod service) in
  let start := parseISO (op_StartDate op ||| op_Start op
                         ||| s_OperatingPeriodStartDate more) in
  let end_ := parseISO (op_EndDate op ||| op_End op
                        ||| s_OperatingPeriodEndDate more) in
  let vb := default noValidBetween (x_ValidBetween txcRoot) in
  let fallbackStart :=
    Js.orObj None (parseISO (vb_FromDate vb ||| vb_StartDate vb ||| vb_Start vb)) in
  let fallbackEnd :=
    Js.orObj None (parseISO (vb_ToDate vb ||| vb_EndDate vb ||| vb_End vb)) in
  let rop := default noPeriod (x_OperatingPeriod txcRoot) in
  let fallbackStart :=
    Js.orObj fallbackStart (parseISO (op_StartDate rop ||| op_Start rop)) in
  let fallbackEnd :=
    Js.orObj fallbackEnd (parseISO (op_EndDate rop ||| op_End rop)) in
  let sStart := Js.orObj start fallbackStart in
  let sEnd := Js.orObj end_ fallbackEnd in
  match sStart, sEnd with
  | None, None => true
  | _, _ => inRangeLegacy TODAY sStart sEnd
  end.

(** [pickBestServiceVersion] of the earlier revision. *)
Definition pickBestServiceVersion `{JsRuntime} (service : Service)
    (more : LegacyFields) (txcRoot : TransXChange) : VersionKey :=
  let rev_ :=
    match Js.coalesce (Js.coalesce (s_RevisionNumber service) (s_Revision more))
                      (x_RevisionNumber txcRoot) with
    | Js.undefined => Some 0
    | r => toNumber r
    end in
  {| rev := match rev_ with Some n => n | None => 0 end;
     pubTs := default 0 (parseISO (x_PublicationTimestamp txcRoot
                                   ||| x_CreationDateTime txcRoot)) |}.

(** [isNewerVersion] of the earlier revision. *)
Definition isNewerVersion (a b : VersionKey) : bool :=
  if negb (rev a =? rev b) then rev a >? rev b
  else pubTs a >? pubTs b.

(** A string that begins with white space. *)
Definition startsWhite (s : string) : bool :=
  match s with
  | EmptyString => false
  | String a r1 =>
      Js.white1 a
      || match r1 with
         | EmptyString => false
         | String b r2 =>
             Js.white2 a b
             || match r2 with
                | EmptyString => false
                | String c _ => Js.white3 a b c
                end
         end
  end.

(** A record all of whose fields are trimmed. *)
Definition svcTrimmed (svc : Svc) : Prop :=
  Js.trim (ref svc) = ref svc
  /\ Js.trim (name svc) = name svc
  /\ Js.trim (operator svc) = operator svc
  /\ Js.trim (operatorCode svc) = operatorCode svc
  /\ Js.trim (serviceCode svc) = serviceCode svc.

(** The count [total] that [shard.js] prints: the keys of all buckets. *)
Definition totalKeys {V} (buckets : JsMap.t (JsMap.t V)) : nat :=
  fold_left (fun total pb => (total + JsMap.size (snd pb))%nat) buckets 0%nat.

(** All stored records are trimmed. *)
Definition allTrimmed (idx : JsMap.t (JsMap.t Svc)) : Prop :=
  forall atco bucket k v, In (atco, bucket) idx -> In (k, v) bucket -> svcTrimmed v.

(** The shape of the buckets: distinct names, no empty bucket, no stop
    twice in a bucket, each bucket named by the prefix of one of its stops. *)
Definition bucketsWellFormed {V} (buckets : JsMap.t (JsMap.t V)) : Prop :=
  List.NoDup (JsMap.keys buckets)
  /\ forall p b, In (p, b) buckets ->
       b <> [] /\ List.NoDup (JsMap.keys b)
       /\ exists atco, In atco (JsMap.keys b) /\ p = Shard.prefixOf atco.

(** The three keys [parseTXC] computes for a declared operator, [id], [noc]
    and [code], and the record it stores under them. *)
Definition operatorId (op : Operator) : string :=
  Js.trim (Js.str (o_id op ||| o_OperatorRef op)).

Definition operatorNoc (op : Operator) : string :=
  Js.trim (Js.str (o_NationalOperatorCode op)).

Definition operatorCodeOf (op : Operator) : string :=
  Js.trim (Js.str (o_OperatorCode op ||| Js.text (operatorNoc op)
                   ||| Js.text (operatorId op))).

Definition operatorRecord (op : Operator) : OperatorInfo :=
  {| oi_code := operatorCodeOf op; oi_name := operatorName op |}.

(** [k] is one of the non-empty keys of the operator. *)
Definition hasKey (k : string) (op : Operator) : bool :=
  Js.nonEmpty k
  && (String.eqb k (operatorId op) || String.eqb k (operatorNoc op)
      || String.eqb k (operatorCodeOf op)).

(** Every service code in the index has a retained version key. *)
Definition codesVersioned (st : State) : Prop :=
  forall atco bucket k v,
    In (atco, bucket) (stopToServices st) -> In (k, v) bucket ->
    serviceCode v <> EmptyString ->
    is_Some (bestServiceVersion st !! serviceCode v).

(** An archive with the first document, a text file and an entry that does
    not parse, and the run over it. *)
Definition archive1 : list ZipEntry :=
  [ {| fileName := "readme.txt"; document := Some Example.doc2 |};
    {| fileName := "route12.XML"; document := Some Example.doc1 |};
    {| fileName := "broken.xml"; document := None |} ].

Definition runOfArchive1 : State :=
  run (H := Ref.runtime) (Some Example.mar2024) ∅ [] [archive1].

(** An archive with the document of the service that ended in 2020. *)
Definition archive2020 : list ZipEntry :=
  [ {| fileName := "route3.xml"; document := Some Example.endedDoc |} ].
(** * Properties *)

Section ValidityFacts.
Context {rt : JsRuntime}.

(** With [Invalid Date] as reference date both comparisons are false. *)
Lemma inRange_invalid (a b : option Z) : inRange None a b = true.
Proof. destruct a, b; reflexivity. Qed.

Lemma inRange_true_iff (D : Z) (a b : option Z) :
  inRange (Some D) a b = true <->
  (forall a', a = Some a' -> a' <= D) /\ (forall b', b = Some b' -> D <= b').
Proof.
  unfold inRange, dateLt, dateGt. rewrite andb_true_iff, !negb_true_iff.
  destruct a as [a'|], b as [b'|]; rewrite ?Z.ltb_ge, ?Z.gtb_ltb, ?Z.ltb_ge;
    split.
  all: try (intros [Ha Hb]; split; intros x Hx; inversion Hx; subst; lia).
  all: try (intros [Ha Hb]; split; auto).
  all: try (intros [Ha Hb]; split; intros x Hx; discriminate).
Qed.

Lemma serviceIsActiveToday_inRange (TODAY : option Z) (service : Service)
    (txcRoot : TransXChange) :
  serviceIsActiveToday TODAY service txcRoot
  = inRange TODAY (validityStart service txcRoot) (validityEnd service txcRoot).
Proof.
  unfold serviceIsActiveToday.
  destruct (validityStart service txcRoot), (validityEnd service txcRoot);
    reflexivity.
Qed.

Lemma validityStart_sources (service : Service) (txcRoot : TransXChange) :
  validityStart service txcRoot
  = firstPresent (map fst (boundSources service txcRoot)).
Proof.
  unfold validityStart, boundSources, Js.orObj; cbn [map fst firstPresent].
  repeat match goal with |- context [parseISO ?x] =>
    destruct (parseISO x); try reflexivity end.
Qed.

Lemma validityEnd_sources (service : Service) (txcRoot : TransXChange) :
  validityEnd service txcRoot
  = firstPresent (map snd (boundSources service txcRoot)).
Proof.
  unfold validityEnd, boundSources, Js.orObj; cbn [map snd firstPresent].
  repeat match goal with |- context [parseISO ?x] =>
    destruct (parseISO x); try reflexivity end.
Qed.

End ValidityFacts.

Section ValidityExamples.
Local Existing Instance Ref.runtime.

(** C1, on the code. The run starts on 2025-01-01 at midnight, when the
    reference date the script computes is that instant. The service's own
    operating period has a start and no end, the reference date is after the
    start, and pair priority makes the service active; the code takes the
    end from the document's valid-between and rejects the service. *)
Lemma pair_priority_counterexample :
  Clock.TODAY Example.jan2025 = Some Example.jan2025
  /\ boundSources Example.openEnded Example.validToJune
     = [(Some Example.jan2024, None); (None, Some Example.jun2024); (None, None)]
  /\ Example.jan2024 <= Example.jan2025
  /\ activeByPairPriority Example.jan2025 Example.openEnded Example.validToJune = true
  /\ serviceIsActiveToday (Clock.TODAY Example.jan2025) Example.openEnded
                          Example.validToJune = false
  /\ servicesExpired
       (main Example.jan2025 ∅ []
          [[ {| fileName := "route12.xml"; document := Some Example.validToJune |} ]])
     = 1%nat.
Proof. vm_compute. repeat split; discriminate. Qed.

(** C6, on the code. The run starts on 2024-03-13 at 09:00. The text of
    that instant does not parse, the reference date is [Invalid Date], and
    the service that ended on 2020-12-31 is active and kept. Started on
    2024-04-04 the run rejects it, and started on 2024-04-13 it keeps it
    again. On 2024-03-01 the text parses, to 2024-01-03. *)
Lemma reference_date_counterexample :
  Clock.UK_NOW Example.mar13 = "13/03/2024, 09:00:00"%string
  /\ Clock.TODAY Example.mar13 = None
  /\ validityStart Example.ended2020 Example.endedDoc = Some 1577836800000
  /\ validityEnd Example.ended2020 Example.endedDoc = Some 1609372800000
  /\ 1609372800000 < Example.mar13
  /\ serviceIsActiveToday (Clock.TODAY Example.mar13) Example.ended2020
                          Example.endedDoc = true
  /\ servicesKept (main Example.mar13 ∅ [] [archive2020]) = 1%nat
  /\ servicesExpired (main Example.mar13 ∅ [] [archive2020]) = 0%nat
  /\ servicesExpired (main Example.apr04 ∅ [] [archive2020]) = 1%nat
  /\ servicesKept (main Example.apr13 ∅ [] [archive2020]) = 1%nat
  /\ Clock.TODAY Example.mar2024 = Some 1704240000000.
Proof. vm_compute. repeat split; reflexivity. Qed.

End ValidityExamples.

(** ** Version resolver *)

Section VersionFacts.

Lemma newer_true_iff (a b : VersionKey) : newer a b = true <-> exceeds a b.
Proof.
  unfold newer, exceeds.
  destruct (Z.eqb_spec (rev a) (rev b)) as [E|E]; cbn [negb];
    rewrite Z.gtb_ltb, Z.ltb_lt; lia.
Qed.

Lemma newer_false_iff (a b : VersionKey) : newer a b = false <-> ~ exceeds a b.
Proof. rewrite <- newer_true_iff. destruct (newer a b); split; congruence. Qed.

Lemma VersionKey_eq (a b : VersionKey) :
  rev a = rev b -> pubTs a = pubTs b -> a = b.
Proof. destruct a, b; cbn; intros -> ->; reflexivity. Qed.

Lemma newer_total (a b : VersionKey) :
  newer a b = false -> newer b a = false -> a = b.
Proof.
  rewrite !newer_false_iff. unfold exceeds. intros Hab Hba.
  apply VersionKey_eq; lia.
Qed.

Lemma newer_asym (a b : VersionKey) : newer a b = true -> newer b a = false.
Proof. rewrite newer_true_iff, newer_false_iff. unfold exceeds. lia. Qed.

Lemma newer_trans (a b c : VersionKey) :
  newer a b = true -> newer b c = true -> newer a c = true.
Proof. rewrite !newer_true_iff. unfold exceeds. lia. Qed.

Lemma newer_false_trans (a b c : VersionKey) :
  newer a b = false -> newer b c = false -> newer a c = false.
Proof. rewrite !newer_false_iff. unfold exceeds. lia. Qed.

(** For a non-empty code the version check accepts exactly a first
    occurrence or a strictly exceeding key, and then retains the candidate. *)
Lemma versionCheck_accepts (code : string) (ver : VersionKey)
    (best : gmap string VersionKey) :
  code <> EmptyString ->
  (is_Some (versionCheck code ver best) <->
   best !! code = None \/ exists prev, best !! code = Some prev /\ exceeds ver prev)
  /\ (forall best', versionCheck code ver best = Some best' ->
                    best' = <[code := ver]> best).
Proof.
  intros Hne. unfold versionCheck.
  destruct code as [|c code']; [congruence|]. cbn [Js.nonEmpty].
  destruct (best !! String c code') as [prev|] eqn:Hprev.
  - destruct (newer ver prev) eqn:Hn; cbn [negb].
    + split; [|congruence]. split; [|intros _; eauto]. intros _. right. exists prev.
      split; [reflexivity|]. now apply newer_true_iff.
    + split; [|congruence]. split; [intros [x Hx]; discriminate|].
      intros [H|(p & Hp & He)]; [discriminate|].
      inversion Hp; subst. apply newer_true_iff in He. congruence.
  - split; [|congruence]. split; [intros _; now left | intros _; eauto].
Qed.

(** An occurrence with the empty code is not checked and not recorded. *)
Lemma versionCheck_empty (ver : VersionKey) (best : gmap string VersionKey) :
  versionCheck EmptyString ver best = Some best.
Proof. reflexivity. Qed.

Lemma versionCheck_keeps_empty (code : string) (ver : VersionKey)
    (best best' : gmap string VersionKey) :
  best !! EmptyString = None ->
  versionCheck code ver best = Some best' ->
  best' !! EmptyString = None.
Proof.
  unfold versionCheck. intros Hempty.
  destruct code as [|c code']; cbn [Js.nonEmpty].
  - intros H; inversion H; subst; assumption.
  - destruct (best !! String c code') as [prev|];
      [destruct (negb (newer ver prev)); [discriminate|]|];
      intros H; inversion H; subst; now rewrite lookup_insert_ne.
Qed.

Ltac newer_facts :=
  repeat match goal with
         | H : newer _ _ = true |- _ => apply newer_true_iff in H
         | H : newer _ _ = false |- _ => apply newer_false_iff in H
         end;
  unfold exceeds in *.

Ltac newer_close :=
  first [ reflexivity
        | newer_facts;
          first [ exfalso; lia | f_equal; apply VersionKey_eq; lia ] ].

(** Two version checks for the same code commute. *)
Lemma versionCheck_swap (code : string) (x y : VersionKey)
    (best : gmap string VersionKey) :
  let step := fun best ver => default best (versionCheck code ver best) in
  step (step best x) y = step (step best y) x.
Proof.
  cbn zeta. unfold versionCheck.
  destruct (Js.nonEmpty code); [|reflexivity].
  destruct (best !! code) as [p|] eqn:Hp.
  - destruct (newer x p) eqn:Hxp, (newer y p) eqn:Hyp,
             (newer y x) eqn:Hyx, (newer x y) eqn:Hxy;
      repeat (progress (cbn [negb from_option id];
                        rewrite ?lookup_insert_eq, ?Hp, ?Hxp, ?Hyp, ?Hyx, ?Hxy,
                                ?insert_insert_eq));
      newer_close.
  - destruct (newer y x) eqn:Hyx, (newer x y) eqn:Hxy;
      repeat (progress (cbn [negb from_option id];
                        rewrite ?lookup_insert_eq, ?Hyx, ?Hxy, ?insert_insert_eq));
      newer_close.
Qed.

(** C7. For every service code, table and list of candidate keys, the table
    left by the version checks, and so the key retained for the code, is
    the same for every permutation of the candidates. *)
Theorem retained_version_order_independent (code : string)
    (l1 l2 : list VersionKey) (best : gmap string VersionKey) :
  Permutation l1 l2 ->
  presentAll code l1 best = presentAll code l2 best
  /\ presentAll code l1 best !! code = presentAll code l2 best !! code.
Proof.
  intros HP.
  assert (H : presentAll code l1 best = presentAll code l2 best);
    [|split; [exact H | now rewrite H]].
  revert best. unfold presentAll.
  induction HP as [|x l l' _ IH|x y l|l l' l'' _ IH1 _ IH2]; intros best.
  - reflexivity.
  - cbn [fold_left]. apply IH.
  - cbn [fold_left]. f_equal. apply (versionCheck_swap code y x best).
  - now rewrite IH1.
Qed.

End VersionFacts.

(** Revision 3 is retained whether it arrives before or after revision 2. *)
Lemma retained_version_order_independent_witness :
  presentAll "S1" [ {| rev := 2; pubTs := 50 |}; {| rev := 3; pubTs := 10 |};
                    {| rev := 3; pubTs := 7 |} ] ∅ !! "S1"%string
  = presentAll "S1" [ {| rev := 3; pubTs := 10 |}; {| rev := 2; pubTs := 50 |};
                      {| rev := 3; pubTs := 7 |} ] ∅ !! "S1"%string.
Proof.
  apply (retained_version_order_independent "S1"
           [ {| rev := 2; pubTs := 50 |}; {| rev := 3; pubTs := 10 |};
             {| rev := 3; pubTs := 7 |} ]
           [ {| rev := 3; pubTs := 10 |}; {| rev := 2; pubTs := 50 |};
             {| rev := 3; pubTs := 7 |} ] ∅).
  apply perm_swap.
Defined.

(** ** Insertion-ordered maps *)

Section JsMapFacts.
Context {V : Type}.

Lemma get_set_eq (m : JsMap.t V) (k : string) (v : V) :
  JsMap.get (JsMap.set m k v) k = Some v.
Proof.
  induction m as [|[k' v'] m IH]; cbn.
  - now rewrite String.eqb_refl.
  - destruct (String.eqb k' k) eqn:E; cbn.
    + now rewrite String.eqb_refl.
    + now rewrite E.
Qed.

Lemma get_set_ne (m : JsMap.t V) (k k' : string) (v : V) :
  k <> k' -> JsMap.get (JsMap.set m k v) k' = JsMap.get m k'.
Proof.
  intros Hne. induction m as [|[k0 v0] m IH]; cbn.
  - apply String.eqb_neq in Hne. now rewrite Hne.
  - destruct (String.eqb k0 k) eqn:E; cbn.
    + apply String.eqb_eq in E; subst k0.
      apply String.eqb_neq in Hne. now rewrite Hne.
    + now rewrite IH.
Qed.

Lemma get_set (m : JsMap.t V) (k k' : string) (v : V) :
  JsMap.get (JsMap.set m k v) k'
  = if String.eqb k k' then Some v else JsMap.get m k'.
Proof.
  destruct (String.eqb_spec k k') as [->|Hne].
  - apply get_set_eq.
  - now apply get_set_ne.
Qed.

Lemma get_In (m : JsMap.t V) (k : string) (v : V) :
  JsMap.get m k = Some v -> In (k, v) m.
Proof.
  induction m as [|[k' v'] m IH]; cbn; [discriminate|].
  destruct (String.eqb_spec k' k) as [->|Hne].
  - intros H; inversion H; now left.
  - intros H; right; auto.
Qed.

End JsMapFacts.

(** ** Stop-service index *)

Section IndexFacts.
Context {rt : JsRuntime}.

(** What [add] changes: at most the entry of the record's identity key at
    the stop, and only when that entry is free. *)
Lemma lookupService_add (atco : string) (svc : Svc) (idx : JsMap.t (JsMap.t Svc))
    (a k : string) :
  lookupService (add atco svc idx) a k
  = if Js.nonEmpty atco && String.eqb atco a && String.eqb (identityKey svc) k
    then match lookupService idx a k with
         | Some v => Some v
         | None => Some svc
         end
    else lookupService idx a k.
Proof.
  unfold add, lookupService.
  destruct (Js.nonEmpty atco); cbn [negb andb]; [|reflexivity].
  destruct (JsMap.get idx atco) as [bucket|] eqn:Hb.
  - unfold JsMap.has.
    destruct (JsMap.get bucket (identityKey svc)) as [old|] eqn:Hk; cbn [negb].
    + destruct (String.eqb_spec atco a) as [<-|Ha]; cbn [andb]; [|reflexivity].
      rewrite Hb.
      destruct (String.eqb_spec (identityKey svc) k) as [<-|Hne]; [|reflexivity].
      now rewrite Hk.
    + rewrite get_set.
      destruct (String.eqb_spec atco a) as [<-|Ha]; cbn [andb]; [|reflexivity].
      rewrite Hb, get_set.
      destruct (String.eqb_spec (identityKey svc) k) as [<-|Hne]; [|reflexivity].
      now rewrite Hk.
  - unfold JsMap.has. cbn [JsMap.get JsMap.empty negb].
    rewrite get_set.
    destruct (String.eqb_spec atco a) as [<-|Ha]; cbn [andb].
    + rewrite Hb. cbn [JsMap.set].
      destruct (String.eqb_spec (identityKey svc) k) as [<-|Hne]; cbn.
      * now rewrite String.eqb_refl.
      * apply String.eqb_neq in Hne. now rewrite Hne.
    + rewrite get_set_ne by assumption. reflexivity.
Qed.

(** [add] of a record whose identity key is taken at the stop changes nothing. *)
Lemma add_taken (atco : string) (svc : Svc) (idx : JsMap.t (JsMap.t Svc))
    (bucket : JsMap.t Svc) :
  JsMap.get idx atco = Some bucket ->
  JsMap.has bucket (identityKey svc) = true ->
  add atco svc idx = idx.
Proof.
  intros Hb Hk. unfold add. rewrite Hb, Hk.
  destruct (Js.nonEmpty atco); reflexivity.
Qed.

Lemma add_preserves (atco : string) (svc : Svc) (idx : JsMap.t (JsMap.t Svc))
    (a k : string) (v : Svc) :
  lookupService idx a k = Some v ->
  lookupService (add atco svc idx) a k = Some v.
Proof.
  intros H. rewrite lookupService_add, H.
  destruct (_ && _ && _); reflexivity.
Qed.

Lemma add_all_preserves (stops : list string) (svc : Svc)
    (idx : JsMap.t (JsMap.t Svc)) (a k : string) (v : Svc) :
  lookupService idx a k = Some v ->
  lookupService (fold_left (fun idx atco => add atco svc idx) stops idx) a k
  = Some v.
Proof.
  revert idx. induction stops as [|atco stops IH]; intros idx H; cbn [fold_left].
  - exact H.
  - apply IH. now apply add_preserves.
Qed.

(** After [add] the record's identity key is taken at the stop. *)
Lemma add_stored (atco : string) (svc : Svc) (idx : JsMap.t (JsMap.t Svc)) :
  Js.nonEmpty atco = true ->
  exists bucket,
    JsMap.get (add atco svc idx) atco = Some bucket
    /\ JsMap.has bucket (identityKey svc) = true.
Proof.
  intros Hatco. unfold add. rewrite Hatco; cbn [negb].
  destruct (JsMap.get idx atco) as [bucket|] eqn:Hb.
  - destruct (JsMap.has bucket (identityKey svc)) eqn:Hk; cbn [negb].
    + exists bucket. now split.
    + exists (JsMap.set bucket (identityKey svc) svc). split.
      * apply get_set_eq.
      * unfold JsMap.has. now rewrite get_set_eq.
  - cbn [JsMap.has JsMap.get JsMap.empty negb].
    exists (JsMap.set [] (identityKey svc) svc). split.
    + apply get_set_eq.
    + unfold JsMap.has. now rewrite get_set_eq.
Qed.

(** C8. [add] is idempotent: a second call with an equal record leaves the
    index, and so the stop's services and their count, unchanged; the
    identity key is [ref] if non-empty, else [name] if non-empty, else
    [serviceCode] if non-empty, else the JSON serialisation of the record. *)
Theorem add_idempotent (atco : string) (svc : Svc) (idx : JsMap.t (JsMap.t Svc)) :
  add atco svc (add atco svc idx) = add atco svc idx
  /\ JsMap.get (add atco svc (add atco svc idx)) atco
     = JsMap.get (add atco svc idx) atco
  /\ serviceCount (add atco svc (add atco svc idx)) atco
     = serviceCount (add atco svc idx) atco
  /\ identityKey svc
     = (if Js.nonEmpty (ref svc) then ref svc
        else if Js.nonEmpty (name svc) then name svc
        else if Js.nonEmpty (serviceCode svc) then serviceCode svc
        else JSON_stringify svc).
Proof.
  assert (H : add atco svc (add atco svc idx) = add atco svc idx).
  { destruct (Js.nonEmpty atco) eqn:Hatco.
    - destruct (add_stored atco svc idx Hatco) as (bucket & Hb & Hk).
      now apply add_taken with bucket.
    - unfold add. now rewrite Hatco. }
  rewrite H. repeat split.
Qed.

End IndexFacts.


(** ** Document parser and merge *)

(** What every iteration keeps, the loop keeps, whether it runs to the end
    of the list or stops at a service that throws. *)
Lemma serviceLoop_invariant (P : State -> Prop)
    (body : State -> Service -> State * Outcome) (services : list Service)
    (st : State) :
  (forall st s, P st -> P (fst (body st s))) ->
  P st -> P (serviceLoop body services st).
Proof.
  intros Hbody. revert st.
  induction services as [|s services IH]; intros st H; cbn [serviceLoop].
  - exact H.
  - specialize (Hbody st s H).
    destruct (body st s) as [st' outcome]. cbn [fst] in Hbody.
    destruct outcome; auto.
Qed.

Section MergeFacts.
Context {rt : JsRuntime}.
Variables (TODAY : option Z) (nocMap : gmap string string) (opOverrides : Overrides).

Lemma notUsedInFile_true_iff (vjCodes : list string) (code : string) :
  notUsedInFile vjCodes code = true <->
  vjCodes <> [] /\ code <> EmptyString /\ ~ In code vjCodes.
Proof.
  unfold notUsedInFile. rewrite !andb_true_iff, !negb_true_iff.
  assert (Hmem : existsb (String.eqb code) vjCodes = false <-> ~ In code vjCodes).
  { rewrite <- not_true_iff_false, existsb_exists. split.
    - intros H Hin. apply H. exists code. split; [assumption|apply String.eqb_refl].
    - intros H (c & Hin & Heq). apply String.eqb_eq in Heq; subst. auto. }
  rewrite Hmem.
  destruct vjCodes as [|c vjCodes'], code as [|a code']; cbn [length Nat.eqb Js.nonEmpty];
    intuition congruence.
Qed.

Lemma vjCodesOf_In (txc : TransXChange) (c : string) :
  In c (vjCodesOf txc) <->
  c <> EmptyString /\
  exists vj, In vj (x_VehicleJourneys txc)
             /\ c = Js.trim (Js.str (vj_ServiceRef vj ||| vj_ServiceCode vj)).
Proof.
  unfold vjCodesOf. rewrite filter_In, in_map_iff. split.
  - intros [(vj & Heq & Hin) Hne]. split; [|eauto].
    intros ->. discriminate.
  - intros [Hne (vj & Hin & Heq)]. split; [eauto|].
    destruct c; [congruence|reflexivity].
Qed.

Lemma processService_outcome (txc : TransXChange) (stops vjCodes : list string)
    (operatorIndex : JsMap.t OperatorInfo) (st : State) (s : Service) :
  let result := processService TODAY nocMap opOverrides txc stops vjCodes
                               operatorIndex st s in
  (snd result = NotUsedInFile <-> notUsedInFile vjCodes (serviceCodeOf s) = true)
  /\ (snd result = Expired <->
      notUsedInFile vjCodes (serviceCodeOf s) = false
      /\ serviceIsActiveToday TODAY s txc = false).
Proof.
  cbn zeta. unfold processService.
  destruct (notUsedInFile vjCodes (serviceCodeOf s)); cbn [snd].
  - split; split; try tauto; try congruence. intros [? _]; congruence.
  - destruct (serviceIsActiveToday TODAY s txc); cbn [negb snd].
    + destruct (versionCheck _ _ _); [destruct (buildSvc _ _ _ _ _)|]; cbn [snd];
        split; split; try congruence; intros [? ?]; congruence.
    + split; split; try congruence; tauto.
Qed.

(** C5, as amended. A declared service is dropped by the vehicle-journey
    gate exactly when the document's vehicle journeys carry at least one
    non-empty service reference, the service's code is non-empty, and the
    code is not among those references. So a service with an empty code,
    and every service of a document whose vehicle journeys carry no
    non-empty reference (in particular one with no vehicle journeys), passes
    the gate. *)
Theorem vehicle_journey_gate (txc : TransXChange) (st : State) (s : Service) :
  let code := serviceCodeOf s in
  let vjCodes := vjCodesOf txc in
  (snd (processIn TODAY nocMap opOverrides txc st s) = NotUsedInFile <->
   vjCodes <> [] /\ code <> EmptyString /\ ~ In code vjCodes)
  /\ (forall c, In c vjCodes <->
        c <> EmptyString /\
        exists vj, In vj (x_VehicleJourneys txc)
                   /\ c = Js.trim (Js.str (vj_ServiceRef vj ||| vj_ServiceCode vj)))
  /\ (x_VehicleJourneys txc = [] -> vjCodes = []).
Proof.
  cbn zeta. split; [|split].
  - unfold processIn.
    rewrite (proj1 (processService_outcome txc _ _ _ st s)).
    apply notUsedInFile_true_iff.
  - apply vjCodesOf_In.
  - intros H. unfold vjCodesOf. now rewrite H.
Qed.

(** C4, as amended. For a service occurrence with a non-empty code that
    reaches the version check: the occurrence passes iff its code has no
    retained key, or its revision is strictly higher than the retained one,
    or the revisions are equal and its publication timestamp is strictly
    later; an occurrence that passes becomes the retained key at once, and
    its record is added to every stop of the document, unless reading the
    operator names that hang off the service throws, when nothing is added;
    any other occurrence, an equal key included, is dropped and leaves the
    index and the retained keys as they were. An occurrence with an empty
    code is not checked and no key is retained for it. *)
Theorem version_resolver_accepts (txc : TransXChange) (stops vjCodes : list string)
    (operatorIndex : JsMap.t OperatorInfo) (st : State) (s : Service) :
  let code := serviceCodeOf s in
  let ver := pickBest s txc in
  let best := bestServiceVersion st in
  let result := processService TODAY nocMap opOverrides txc stops vjCodes
                               operatorIndex st s in
  let accepted :=
    best !! code = None
    \/ exists prev, best !! code = Some prev /\ exceeds ver prev in
  let attached :=
    match buildSvc nocMap opOverrides operatorIndex s code with
    | Some svc =>
        snd result = Kept svc
        /\ stopToServices (fst result)
           = fold_left (fun idx atco => add atco svc idx) stops (stopToServices st)
    | None =>
        snd result = Threw /\ stopToServices (fst result) = stopToServices st
    end in
  notUsedInFile vjCodes code = false ->
  serviceIsActiveToday TODAY s txc = true ->
  (code <> EmptyString ->
   (snd result <> Superseded <-> accepted)
   /\ ((exists kept, snd result = Kept kept) <->
       accepted /\ is_Some (buildSvc nocMap opOverrides operatorIndex s code))
   /\ (accepted ->
       bestServiceVersion (fst result) = <[code := ver]> best /\ attached)
   /\ (~ accepted ->
       snd result = Superseded
       /\ stopToServices (fst result) = stopToServices st
       /\ bestServiceVersion (fst result) = best)
   /\ (best !! code = Some ver -> snd result = Superseded))
  /\ (code = EmptyString ->
      bestServiceVersion (fst result) = best /\ attached).
Proof.
  cbn zeta. intros Hgate Hactive.
  unfold processService. rewrite Hgate, Hactive; cbn [negb]. split.
  - intros Hne.
    destruct (versionCheck_accepts (serviceCodeOf s) (pickBest s txc)
                (bestServiceVersion st) Hne) as [Hacc Hset].
    destruct (versionCheck (serviceCodeOf s) (pickBest s txc) (bestServiceVersion st))
      as [best'|] eqn:Hvc.
    + specialize (Hset best' eq_refl). subst best'.
      assert (Ha : bestServiceVersion st !! serviceCodeOf s = None
                   \/ exists prev, bestServiceVersion st !! serviceCodeOf s = Some prev
                                   /\ exceeds (pickBest s txc) prev)
        by (apply Hacc; eauto).
      destruct (buildSvc nocMap opOverrides operatorIndex s (serviceCodeOf s))
        as [svc|]; cbn [fst snd stopToServices bestServiceVersion].
      * split; [split; [intros _; exact Ha | intros _; discriminate]|].
        split; [split; [intros _; split; [exact Ha|eauto] | intros _; eauto]|].
        split; [intros _; repeat split|].
        split; [intros Hno; contradiction|].
        intros Hsame. destruct Ha as [Hn|(prev & Hp & He)]; [congruence|].
        rewrite Hsame in Hp. inversion Hp; subst prev.
        unfold exceeds in He. lia.
      * split; [split; [intros _; exact Ha | intros _; discriminate]|].
        split; [split; [intros [kept Hk]; discriminate
                       | intros [_ [x Hx]]; discriminate]|].
        split; [intros _; repeat split|].
        split; [intros Hno; contradiction|].
        intros Hsame. destruct Ha as [Hn|(prev & Hp & He)]; [congruence|].
        rewrite Hsame in Hp. inversion Hp; subst prev.
        unfold exceeds in He. lia.
    + assert (Hno : ~ (bestServiceVersion st !! serviceCodeOf s = None
                       \/ exists prev, bestServiceVersion st !! serviceCodeOf s = Some prev
                                       /\ exceeds (pickBest s txc) prev)).
      { intros Ha. apply Hacc in Ha. destruct Ha as [x Hx]. discriminate. }
      cbn [fst snd stopToServices bestServiceVersion].
      split; [split; [intros H; congruence | intros Ha; contradiction]|].
      split; [split; [intros [kept Hk]; discriminate | intros [Ha _]; contradiction]|].
      split; [intros Ha; contradiction|].
      split; [intros _; repeat split|].
      intros _. reflexivity.
  - intros Hcode. rewrite Hcode, versionCheck_empty.
    destruct (buildSvc nocMap opOverrides operatorIndex s EmptyString) as [svc|];
      cbn [fst snd stopToServices bestServiceVersion]; repeat split.
Qed.

(** The retained keys after one service: the version check of [presentAll]
    for an occurrence that reaches it, no change otherwise. *)
Lemma processService_best (txc : TransXChange) (stops vjCodes : list string)
    (operatorIndex : JsMap.t OperatorInfo) (st : State) (s : Service) :
  bestServiceVersion
    (fst (processService TODAY nocMap opOverrides txc stops vjCodes
                         operatorIndex st s))
  = if notUsedInFile vjCodes (serviceCodeOf s)
       || negb (serviceIsActiveToday TODAY s txc)
    then bestServiceVersion st
    else presentAll (serviceCodeOf s) [pickBest s txc] (bestServiceVersion st).
Proof.
  unfold processService, presentAll.
  destruct (notUsedInFile _ _); [reflexivity|].
  destruct (serviceIsActiveToday _ _ _); cbn [negb orb fold_left]; [|reflexivity].
  destruct (versionCheck _ _ _); [destruct (buildSvc _ _ _ _ _)|]; reflexivity.
Qed.

Lemma processService_keeps_empty (txc : TransXChange) (stops vjCodes : list string)
    (operatorIndex : JsMap.t OperatorInfo) (st : State) (s : Service) :
  bestServiceVersion st !! EmptyString = None ->
  bestServiceVersion
    (fst (processService TODAY nocMap opOverrides txc stops vjCodes
                         operatorIndex st s)) !! EmptyString = None.
Proof.
  intros Hempty. rewrite processService_best.
  destruct (_ || _); [exact Hempty|].
  unfold presentAll. cbn [fold_left].
  destruct (versionCheck _ _ _) as [best'|] eqn:Hvc; [|exact Hempty].
  cbn [from_option id]. eapply versionCheck_keeps_empty; eauto.
Qed.

(** The empty code never has a retained key in a run. *)
Lemma parseTXC_keeps_empty (doc : option TransXChange) (st : State) :
  bestServiceVersion st !! EmptyString = None ->
  bestServiceVersion (parseTXC TODAY nocMap opOverrides doc st) !! EmptyString
  = None.
Proof.
  destruct doc as [txc|]; [|trivial]. unfold parseTXC.
  apply (serviceLoop_invariant
           (fun st => bestServiceVersion st !! EmptyString = None)).
  intros st' s. apply processService_keeps_empty.
Qed.

(** What one service does to the index: nothing, or its record added to the
    stops of the document. *)
Lemma processService_index (txc : TransXChange) (stops vjCodes : list string)
    (operatorIndex : JsMap.t OperatorInfo) (st : State) (s : Service) :
  let result := processService TODAY nocMap opOverrides txc stops vjCodes
                               operatorIndex st s in
  match snd result with
  | Kept svc =>
      stopToServices (fst result)
      = fold_left (fun idx atco => add atco svc idx) stops (stopToServices st)
  | _ => stopToServices (fst result) = stopToServices st
  end.
Proof.
  cbn zeta. unfold processService.
  destruct (notUsedInFile _ _); [reflexivity|].
  destruct (negb _); [reflexivity|].
  destruct (versionCheck _ _ _); [destruct (buildSvc _ _ _ _ _)|]; reflexivity.
Qed.

Lemma processService_preserves (txc : TransXChange) (stops vjCodes : list string)
    (operatorIndex : JsMap.t OperatorInfo) (st : State) (s : Service)
    (a k : string) (v : Svc) :
  lookupService (stopToServices st) a k = Some v ->
  lookupService
    (stopToServices (fst (processService TODAY nocMap opOverrides txc stops
                                         vjCodes operatorIndex st s))) a k
  = Some v.
Proof.
  intros H.
  pose proof (processService_index txc stops vjCodes operatorIndex st s) as Hidx.
  cbn zeta in Hidx.
  destruct (snd (processService _ _ _ _ _ _ _ _ _)); rewrite Hidx; try exact H.
  now apply add_all_preserves.
Qed.

Lemma parseTXC_preserves (doc : option TransXChange) (st : State)
    (a k : string) (v : Svc) :
  lookupService (stopToServices st) a k = Some v ->
  lookupService (stopToServices (parseTXC TODAY nocMap opOverrides doc st)) a k
  = Some v.
Proof.
  destruct doc as [txc|]; [|trivial]. unfold parseTXC.
  apply (serviceLoop_invariant
           (fun st => lookupService (stopToServices st) a k = Some v)).
  intros st' s. apply processService_preserves.
Qed.

End MergeFacts.

(** C10. A record stored for an identity key at a stop is never replaced:
    [add] of a record whose key is taken leaves the index unchanged, however
    its other fields differ; any [add] keeps every stored record; and so
    does the processing of any later document, whatever version it carries. *)
Theorem first_added_record_wins {rt : JsRuntime} :
  (forall atco svc' idx bucket,
     JsMap.get idx atco = Some bucket ->
     JsMap.has bucket (identityKey svc') = true ->
     add atco svc' idx = idx)
  /\ (forall atco svc' idx a k v,
        lookupService idx a k = Some v ->
        lookupService (add atco svc' idx) a k = Some v)
  /\ (forall atco svc svc' idx,
        Js.nonEmpty atco = true ->
        lookupService idx atco (identityKey svc) = None ->
        identityKey svc' = identityKey svc ->
        lookupService (add atco svc' (add atco svc idx)) atco (identityKey svc)
        = Some svc)
  /\ (forall TODAY nocMap opOverrides doc st a k v,
        lookupService (stopToServices st) a k = Some v ->
        lookupService
          (stopToServices (parseTXC TODAY nocMap opOverrides doc st)) a k
        = Some v).
Proof.
  split; [exact add_taken|]. split; [exact add_preserves|]. split.
  - intros atco svc svc' idx Hatco Hfree Hkey.
    apply add_preserves. rewrite lookupService_add, Hatco, Hfree.
    now rewrite !String.eqb_refl.
  - intros. now apply parseTXC_preserves.
Qed.

Section MergeExamples.
Local Existing Instance Ref.runtime.

(** C5, refuted as stated. Both documents declare a vehicle journey and the
    service's code is not among the vehicle journeys' service references,
    yet the service is kept: in the first the service has no code, in the
    second the vehicle journey has no reference. *)
Lemma vehicle_journey_gate_counterexample :
  (x_VehicleJourneys Example.journeyOfS1 <> []
   /\ usedInFileBySpec Example.journeyOfS1 (serviceCodeOf Example.noCode) = false
   /\ exists svc,
        snd (processIn (Some Example.mar2024) ∅ [] Example.journeyOfS1 initialState
                       Example.noCode) = Kept svc)
  /\ (x_VehicleJourneys Example.journeyWithoutRef <> []
      /\ usedInFileBySpec Example.journeyWithoutRef (serviceCodeOf Example.s2) = false
      /\ exists svc,
           snd (processIn (Some Example.mar2024) ∅ [] Example.journeyWithoutRef
                          initialState Example.s2) = Kept svc).
Proof.
  split; (split; [discriminate|split; [reflexivity|eexists; vm_compute; reflexivity]]).
Qed.

Lemma vehicle_journey_gate_witness :
  snd (processIn (Some Example.mar2024) ∅ [] Example.journeyOfS1 initialState
                 Example.noCode) <> NotUsedInFile.
Proof.
  intros H.
  apply (vehicle_journey_gate (Some Example.mar2024) ∅ [] Example.journeyOfS1
           initialState Example.noCode) in H.
  destruct H as (_ & H & _). apply H. reflexivity.
Defined.

(** C4, refuted as stated. The service without a code is kept from the
    first document; its second occurrence carries an equal version key, so
    nothing strictly exceeds what was seen, and it is kept again and added to
    the stops of the second document. *)
Lemma version_resolver_counterexample :
  serviceCodeOf Example.noCode = EmptyString
  /\ pickBest Example.noCode Example.codelessCD
     = pickBest Example.noCode Example.codelessAB
  /\ snd (processIn (Some Example.mar2024) ∅ [] Example.codelessAB initialState
                    Example.noCode) = Kept Example.svc7
  /\ snd (processIn (Some Example.mar2024) ∅ [] Example.codelessCD
                    Example.afterCodelessAB Example.noCode) = Kept Example.svc7
  /\ lookupService (stopToServices Example.afterCodelessAB) "C" "7" = None
  /\ lookupService
       (stopToServices (parseTXC (Some Example.mar2024) ∅ []
                                 (Some Example.codelessCD)
                                 Example.afterCodelessAB)) "C" "7"
     = Some Example.svc7.
Proof. repeat split; vm_compute; reflexivity. Qed.

(** A second occurrence of S1 at revision 1 does not exceed the retained
    key and is dropped. *)
Lemma version_resolver_accepts_witness :
  snd (processIn (Some Example.mar2024) ∅ [] Example.doc1 Example.afterDoc1
                 Example.s1rev1) = Superseded.
Proof.
  destruct (version_resolver_accepts (Some Example.mar2024) ∅ [] Example.doc1
              (sectionStopsOf Example.doc1) (vjCodesOf Example.doc1)
              (operatorIndexOf Example.doc1) Example.afterDoc1 Example.s1rev1)
    as [H _].
  - vm_compute. reflexivity.
  - vm_compute. reflexivity.
  - destruct H as (_ & _ & _ & _ & H).
    + vm_compute. discriminate.
    + apply H. vm_compute. reflexivity.
Defined.

(** Line 12 of operator OPA is stored first at stop A; the later document
    carries line 12 of operator OPB at a higher revision, is kept, and does
    not replace it. *)
Lemma first_added_record_wins_witness :
  lookupService (stopToServices Example.afterDoc1) "A" "12" = Some Example.svc1
  /\ (exists svc, snd (processIn (Some Example.mar2024) ∅ [] Example.doc2
                                 Example.afterDoc1 Example.s9rev5) = Kept svc
                  /\ operator svc = "OPB"%string)
  /\ lookupService
       (stopToServices (parseTXC (Some Example.mar2024) ∅ [] (Some Example.doc2)
                                 Example.afterDoc1)) "A" "12"
     = Some Example.svc1.
Proof.
  assert (H : lookupService (stopToServices Example.afterDoc1) "A" "12"
              = Some Example.svc1) by (vm_compute; reflexivity).
  split; [exact H|]. split.
  - eexists. split; vm_compute; reflexivity.
  - apply first_added_record_wins. exact H.
Defined.

End MergeExamples.

(** ** Operator resolver *)

Section OperatorFacts.

Lemma prefixOverride_find (code : string) (ov : Overrides) :
  prefixOverride code ov
  = option_map snd
      (List.find (fun kv => Js.nonEmpty (fst kv) && Js.startsWith code (fst kv)) ov).
Proof.
  induction ov as [|[k v] ov IH]; cbn; [reflexivity|].
  destruct (Js.nonEmpty k && Js.startsWith code k); [reflexivity|exact IH].
Qed.

Lemma resolveOperator_rules (rawCode txcName : string)
    (nocMap : gmap string string) (ov : Overrides) :
  Some (resolveOperator rawCode txcName nocMap ov)
  = firstPresent (resolutionRules (Js.trim rawCode) (Js.trim txcName) nocMap ov).
Proof.
  unfold resolveOperator, resolutionRules, whenNonEmpty.
  rewrite <- prefixOverride_find.
  destruct (Js.nonEmpty (Js.trim rawCode)), (Js.nonEmpty (Js.trim txcName));
    cbn [firstPresent];
    repeat match goal with
           | |- context [match ?o with Some _ => _ | None => _ end] =>
               destruct o; cbn [firstPresent]
           end; reflexivity.
Qed.

Lemma ownProperty_no_empty_key (ov : Overrides) :
  (forall k v, In (k, v) ov -> k <> EmptyString) ->
  ownProperty ov EmptyString = None.
Proof.
  intros H. destruct (ownProperty ov EmptyString) as [v|] eqn:E; [|reflexivity].
  apply get_In in E. now apply H in E.
Qed.

(** C3, as amended. [resolveOperator] trims the code and the name and
    returns the first match of: (1) the exact override of the code, for a
    non-empty code; (2) the first override, in the order the overrides are
    enumerated, whose key is non-empty and a prefix of the non-empty code;
    (3) the canonical table entry of the non-empty code; (4) the exact
    override of the non-empty name; (5) the non-empty name; (6) the code.
    For a trimmed code and name, overrides without an empty key and a table
    without an empty code, this is the order as the specification words it;
    and the four examples hold. *)
Theorem resolveOperator_first_match :
  (forall rawCode txcName nocMap ov,
     Some (resolveOperator rawCode txcName nocMap ov)
     = firstPresent (resolutionRules (Js.trim rawCode) (Js.trim txcName) nocMap ov))
  /\ (forall code name (nocMap : gmap string string) ov,
        Js.trim code = code -> Js.trim name = name ->
        (forall k v, In (k, v) ov -> k <> EmptyString) ->
        nocMap !! EmptyString = None ->
        resolveOperator code name nocMap ov = resolveBySpec code name nocMap ov)
  /\ resolveOperator "TKT_OID:9" EmptyString Example.nocTable Example.overrides
     = "Bee Network Metroline"%string
  /\ resolveOperator "ABCD" EmptyString Example.nocTable [] = "Acme Buses"%string
  /\ resolveOperator "ZZZZ" "Local Line" Example.nocTable Example.overrides
     = "Local Line"%string
  /\ resolveOperator EmptyString EmptyString Example.nocTable Example.overrides
     = EmptyString.
Proof.
  split; [exact resolveOperator_rules|]. split.
  - intros code name nocMap ov Hcode Hname Hkeys Hnoc.
    assert (Hfind : List.find (fun kv => Js.nonEmpty (fst kv) && Js.startsWith code (fst kv)) ov
                    = List.find (fun kv => Js.startsWith code (fst kv)) ov).
    { clear -Hkeys. induction ov as [|[k v] ov IH]; cbn; [reflexivity|].
      assert (Hk : Js.nonEmpty k = true).
      { destruct k; [|reflexivity]. exfalso. apply (Hkeys EmptyString v); [now left|reflexivity]. }
      rewrite Hk; cbn [andb]. rewrite IH; [reflexivity|].
      intros k' v' Hin. apply (Hkeys k' v'). now right. }
    unfold resolveOperator, resolveBySpec. rewrite Hcode, Hname.
    rewrite prefixOverride_find, Hfind.
    destruct code as [|c code']; cbn [Js.nonEmpty].
    + rewrite (ownProperty_no_empty_key ov Hkeys), Hnoc. cbn [firstPresent].
      assert (Hnone : List.find (fun kv => Js.startsWith EmptyString (fst kv)) ov = None).
      { clear -Hkeys. induction ov as [|[k v] ov IH]; [reflexivity|].
        destruct k as [|a k'].
        - exfalso. apply (Hkeys EmptyString v); [now left|reflexivity].
        - cbn. apply IH. intros k0 v0 Hin. apply (Hkeys k0 v0). now right. }
      rewrite Hnone. cbn [option_map firstPresent].
      destruct name as [|a name']; cbn [Js.nonEmpty].
      * now rewrite (ownProperty_no_empty_key ov Hkeys).
      * destruct (ownProperty ov (String a name')); reflexivity.
    + cbn [firstPresent].
      destruct (ownProperty ov (String c code')); [reflexivity|].
      destruct (option_map snd _); [reflexivity|].
      destruct (nocMap !! String c code'); [reflexivity|].
      destruct name as [|a name']; cbn [Js.nonEmpty].
      * now rewrite (ownProperty_no_empty_key ov Hkeys).
      * destruct (ownProperty ov (String a name')); reflexivity.
  - repeat split; vm_compute; reflexivity.
Qed.

(** C3, refuted as stated. An override with the empty key is a prefix of
    every code, and the code skips it; a code given with surrounding blanks
    is trimmed before every lookup and in the result. *)
Lemma resolveOperator_counterexample :
  (resolveBySpec "ABCD" EmptyString ∅ [(EmptyString, "Default"%string)]
   = "Default"%string
   /\ resolveOperator "ABCD" EmptyString ∅ [(EmptyString, "Default"%string)]
      = "ABCD"%string)
  /\ (resolveBySpec " ABCD " EmptyString Example.nocTable [] = " ABCD "%string
      /\ resolveOperator " ABCD " EmptyString Example.nocTable []
         = "Acme Buses"%string).
Proof. repeat split; vm_compute; reflexivity. Qed.

Lemma resolveOperator_first_match_witness :
  resolveOperator "TKT_OID:9" EmptyString Example.nocTable Example.overrides
  = resolveBySpec "TKT_OID:9" EmptyString Example.nocTable Example.overrides.
Proof.
  destruct resolveOperator_first_match as (_ & H & _). apply H.
  - reflexivity.
  - reflexivity.
  - intros k v [Hin|[]]. inversion Hin. discriminate.
  - vm_compute. reflexivity.
Defined.

End OperatorFacts.

(** ** Sharder *)

Section ShardFacts.
Context {V : Type}.

Lemma entry_assign (buckets : JsMap.t (JsMap.t V)) (atco : string) (v : V)
    (p a : string) :
  Shard.entry (Shard.assign buckets (atco, v)) p a
  = if String.eqb (Shard.prefixOf atco) p && String.eqb atco a then Some v
    else Shard.entry buckets p a.
Proof.
  unfold Shard.assign, Shard.entry, JsMap.has.
  destruct (JsMap.get buckets (Shard.prefixOf atco)) as [b|] eqn:Hb; cbn [negb].
  - rewrite Hb. cbn [from_option id]. rewrite get_set.
    destruct (String.eqb_spec (Shard.prefixOf atco) p) as [<-|Hp]; cbn [andb].
    + rewrite get_set, Hb. reflexivity.
    + reflexivity.
  - rewrite get_set_eq. cbn [from_option id]. rewrite !get_set.
    destruct (String.eqb_spec (Shard.prefixOf atco) p) as [<-|Hp]; cbn [andb].
    + rewrite Hb. cbn. destruct (String.eqb atco a); reflexivity.
    + reflexivity.
Qed.

Lemma entry_shard_sound (src : JsMap.t V) (acc : JsMap.t (JsMap.t V))
    (p a : string) (v : V) :
  Shard.entry (fold_left Shard.assign src acc) p a = Some v ->
  Shard.entry acc p a = Some v \/ (p = Shard.prefixOf a /\ In (a, v) src).
Proof.
  revert acc. induction src as [|[atco w] src IH]; intros acc H; cbn [fold_left] in H.
  - now left.
  - apply IH in H. destruct H as [H|[Hp Hin]].
    + rewrite entry_assign in H.
      destruct (String.eqb_spec (Shard.prefixOf atco) p) as [<-|Hp]; cbn [andb] in H;
        [|now left].
      destruct (String.eqb_spec atco a) as [<-|Ha]; [|now left].
      inversion H; subst. right. split; [reflexivity|now left].
    + right. split; [assumption|now right].
Qed.

Lemma entry_shard_other (src : JsMap.t V) (acc : JsMap.t (JsMap.t V))
    (p a : string) :
  ~ In a (JsMap.keys src) ->
  Shard.entry (fold_left Shard.assign src acc) p a = Shard.entry acc p a.
Proof.
  revert acc. induction src as [|[atco w] src IH]; intros acc Hnot; cbn [fold_left].
  - reflexivity.
  - rewrite IH by (intros Hin; apply Hnot; now right).
    rewrite entry_assign.
    destruct (String.eqb_spec atco a) as [->|Ha].
    + exfalso. apply Hnot. now left.
    + now rewrite andb_false_r.
Qed.

Lemma entry_shard_complete (src : JsMap.t V) (acc : JsMap.t (JsMap.t V))
    (a : string) (v : V) :
  List.NoDup (JsMap.keys src) -> In (a, v) src ->
  Shard.entry (fold_left Shard.assign src acc) (Shard.prefixOf a) a = Some v.
Proof.
  revert acc. induction src as [|[atco w] src IH]; intros acc Hnd Hin; [destruct Hin|].
  cbn [JsMap.keys map fst] in Hnd. inversion Hnd as [|? ? Hnotin Hnd']; subst.
  cbn [fold_left]. destruct Hin as [Heq|Hin].
  - inversion Heq; subst. rewrite entry_shard_other by assumption.
    rewrite entry_assign, !String.eqb_refl. reflexivity.
  - now apply IH.
Qed.

Lemma slice0_short (n : nat) (s : string) :
  (String.length s <= n)%nat -> Js.slice0 n s = s.
Proof.
  revert n. induction s as [|c s IH]; intros [|n] H; cbn in *; try reflexivity; try lia.
  f_equal. apply IH. lia.
Qed.

End ShardFacts.

(** C9, as amended. The bucket of a stop identifier is named by its first
    four characters; an identifier shorter than four characters is its own
    bucket name, and only the empty identifier takes the name [misc], which
    is also the prefix of every identifier that starts with [misc]. Every
    entry of the input lands in the bucket of its identifier and nowhere
    else. *)
Theorem shard_prefix_buckets :
  (forall atco,
     Shard.prefixOf atco
     = if Js.nonEmpty atco then Js.slice0 4 atco else "misc"%string)
  /\ (forall atco,
        Js.nonEmpty atco = true -> (String.length atco < 4)%nat ->
        Shard.prefixOf atco = atco)
  /\ (forall rest, Shard.prefixOf ("misc" ++ rest) = Shard.prefixOf EmptyString)
  /\ (forall (V : Type) (src : JsMap.t V) p a (v : V),
        Shard.entry (Shard.shard src) p a = Some v ->
        p = Shard.prefixOf a /\ In (a, v) src)
  /\ (forall (V : Type) (src : JsMap.t V) a (v : V),
        List.NoDup (JsMap.keys src) -> In (a, v) src ->
        Shard.entry (Shard.shard src) (Shard.prefixOf a) a = Some v).
Proof.
  split; [|split; [|split; [|split]]].
  - intros [|c atco]; [reflexivity|]. unfold Shard.prefixOf. reflexivity.
  - intros atco Hne Hlen. unfold Shard.prefixOf.
    rewrite slice0_short by lia. now rewrite Hne.
  - intros rest. reflexivity.
  - intros V src p a v H. apply entry_shard_sound in H.
    destruct H as [H|H]; [discriminate|exact H].
  - intros V src a v Hnd Hin. now apply entry_shard_complete.
Qed.

(** C9, refuted as stated. The three-character identifier is shorter than
    the prefix length and forms a bucket of its own, not the catch-all; and
    the catch-all bucket is the prefix bucket of an identifier starting
    with [misc]. *)
Lemma shard_short_identifier_counterexample :
  (String.length "123" < 4)%nat
  /\ Shard.prefixOf "123" = "123"%string
  /\ Shard.prefixOf "123" <> Shard.prefixOf EmptyString
  /\ Shard.prefixOf "misc0001" = Shard.prefixOf EmptyString.
Proof. cbn. repeat split; try lia. discriminate. Qed.

Lemma shard_prefix_buckets_witness :
  Shard.prefixOf "123" = "123"%string
  /\ Shard.entry (Shard.shard [("123", 1%nat); ("18001", 2%nat)]%string) "1800" "18001"
     = Some 2%nat.
Proof.
  destruct shard_prefix_buckets as (_ & Hshort & _ & _ & Hin). split.
  - apply Hshort; [reflexivity|cbn; lia].
  - apply (Hin nat [("123", 1%nat); ("18001", 2%nat)]%string "18001"%string 2%nat).
    + repeat constructor; cbn; intuition discriminate.
    + right. now left.
Defined.


(** ** Numbers *)

Section NumberFacts.










End NumberFacts.

(** ** Output builder *)

Section SortFacts.
Context {A : Type} (cmp : A -> A -> Js.number) (R : A -> A -> Prop).
Hypothesis R_before : forall x y, Js.notAfter (cmp x y) = true -> R x y.
Hypothesis R_after : forall x y, Js.notAfter (cmp x y) = false -> R y x.
Hypothesis R_trans : forall x y z, R x y -> R y z -> R x z.

Lemma sortInsert_perm (x : A) (l : list A) :
  Permutation (x :: l) (sortInsert cmp x l).
Proof.
  induction l as [|y l IH]; cbn [sortInsert]; [reflexivity|].
  destruct (Js.notAfter (cmp x y)); [reflexivity|].
  rewrite perm_swap. now apply perm_skip.
Qed.

Lemma sort_perm (l : list A) : Permutation l (sort cmp l).
Proof.
  induction l as [|x l IH]; cbn [sort]; [reflexivity|].
  rewrite <- sortInsert_perm. now apply perm_skip.
Qed.




End SortFacts.

Section OutputFacts.
Context {rt : JsRuntime}.








End OutputFacts.

Section OutputExamples.
Local Existing Instance Ref.runtime.





End OutputExamples.

(** * Further properties of the code *)

(** ** Version keys *)

Section VersionOrder.
Context {rt : JsRuntime}.

Ltac order_facts :=
  repeat match goal with
         | H : newer _ _ = true |- _ => apply newer_true_iff in H
         | H : newer _ _ = false |- _ => apply newer_false_iff in H
         | |- newer _ _ = true => apply newer_true_iff
         | |- newer _ _ = false => apply newer_false_iff
         end;
  unfold exceeds in *.

(** [newer] is a strict total order on version keys: irreflexive,
    asymmetric, transitive, and any two distinct keys are ordered. *)
Theorem newer_strict_total_order :
  (forall a, newer a a = false)
  /\ (forall a b, newer a b = true -> newer b a = false)
  /\ (forall a b c, newer a b = true -> newer b c = true -> newer a c = true)
  /\ (forall a b, newer a b = true \/ a = b \/ newer b a = true).
Proof.
  split; [|split; [|split]].
  - intros a. apply newer_false_iff. unfold exceeds. lia.
  - exact newer_asym.
  - exact newer_trans.
  - intros a b. destruct (newer a b) eqn:Hab; [now left|].
    destruct (newer b a) eqn:Hba; [now right; right|].
    right; left. now apply newer_total.
Qed.

(** One version check, seen through the table. *)
Lemma versionStep_lookup (code : string) (v : VersionKey)
    (best : gmap string VersionKey) :
  code <> EmptyString ->
  default best (versionCheck code v best) !! code
  = Some (match best !! code with
          | Some p => if newer v p then v else p
          | None => v
          end)
  /\ (forall k, k <> code ->
        default best (versionCheck code v best) !! k = best !! k).
Proof.
  intros Hne. unfold versionCheck.
  destruct code as [|c code']; [congruence|]. cbn [Js.nonEmpty].
  destruct (best !! String c code') as [p|] eqn:Hp.
  - destruct (newer v p); cbn [negb from_option id].
    + split; [apply lookup_insert_eq|].
      intros k Hk. now rewrite lookup_insert_ne.
    + split; [exact Hp|reflexivity].
  - cbn [from_option id]. split; [apply lookup_insert_eq|].
    intros k Hk. now rewrite lookup_insert_ne.
Qed.

Lemma presentAll_other (code : string) (l : list VersionKey)
    (best : gmap string VersionKey) (k : string) :
  k <> code -> presentAll code l best !! k = best !! k.
Proof.
  intros Hk. revert best. unfold presentAll.
  induction l as [|v l IH]; intros best; cbn [fold_left]; [reflexivity|].
  rewrite IH. destruct code as [|c code'].
  - reflexivity.
  - now apply versionStep_lookup.
Qed.

Lemma presentAll_maximum (code : string) (l : list VersionKey)
    (best : gmap string VersionKey) :
  code <> EmptyString ->
  match presentAll code l best !! code with
  | Some m =>
      (best !! code = Some m \/ In m l)
      /\ (forall v, In v l -> newer v m = false)
      /\ (forall p, best !! code = Some p -> newer p m = false)
  | None => l = [] /\ best !! code = None
  end.
Proof.
  intros Hne. revert best. unfold presentAll.
  induction l as [|v l IH]; intros best; cbn [fold_left].
  - destruct (best !! code) as [p|] eqn:Hp; [|now split].
    split; [now left|]. split; [intros v []|].
    intros p' Hp'. inversion Hp'; subst. apply newer_false_iff. unfold exceeds. lia.
  - specialize (IH (default best (versionCheck code v best))).
    destruct (versionStep_lookup code v best Hne) as [Hstep _].
    rewrite Hstep in IH.
    destruct (fold_left _ l _ !! code) as [m|]; [|destruct IH; discriminate].
    destruct IH as (Hmem & Hall & Hprev).
    specialize (Hprev _ eq_refl).
    destruct (best !! code) as [p|] eqn:Hp.
    + destruct (newer v p) eqn:Hvp.
      * split; [|split].
        -- destruct Hmem as [Hm|Hm]; [inversion Hm; subst; right; now left|right; now right].
        -- intros v' [<-|Hin]; [exact Hprev|now apply Hall].
        -- intros p' Hp'. inversion Hp'; subst p'.
           order_facts. lia.
      * split; [|split].
        -- destruct Hmem as [Hm|Hm]; [now left|right; now right].
        -- intros v' [<-|Hin]; [|now apply Hall].
           order_facts. lia.
        -- intros p' Hp'. inversion Hp'; subst p'. exact Hprev.
    + split; [|split].
      * destruct Hmem as [Hm|Hm]; [inversion Hm; subst; right; now left|right; now right].
      * intros v' [<-|Hin]; [exact Hprev|now apply Hall].
      * intros p' Hp'. discriminate.
Qed.

(** For a non-empty code, the key retained after any list of candidates is
    the greatest of the previously retained key and the candidates: it is one
    of them and none of them is newer; with no previous key and no candidate
    none is retained. The keys of the other codes are untouched. *)
Theorem presentAll_retains_maximum (code : string) (l : list VersionKey)
    (best : gmap string VersionKey) :
  code <> EmptyString ->
  match presentAll code l best !! code with
  | Some m =>
      (best !! code = Some m \/ In m l)
      /\ (forall v, In v l -> newer v m = false)
      /\ (forall p, best !! code = Some p -> newer p m = false)
  | None => l = [] /\ best !! code = None
  end
  /\ (forall k, k <> code -> presentAll code l best !! k = best !! k).
Proof.
  intros Hne. split; [now apply presentAll_maximum|].
  intros k Hk. now apply presentAll_other.
Qed.

(** The publication timestamp of a version key comes from the document
    alone, so between two services of one document the revision decides;
    and a service in a document with no revision and no timestamp anywhere
    gets revision 0 at the epoch. *)
Theorem same_document_revision_decides (s1 s2 : Service) (txc : TransXChange) :
  pubTs (pickBest s1 txc) = pubTs (pickBest s2 txc)
  /\ (newer (pickBest s2 txc) (pickBest s1 txc) = true <->
      rev (pickBest s1 txc) < rev (pickBest s2 txc))
  /\ (s_RevisionNumber s1 = Js.undefined -> x_RevisionNumber txc = Js.undefined ->
      Js.truthy (x_PublicationTimestamp txc) = false ->
      Js.truthy (x_CreationDateTime txc) = false ->
      pickBest s1 txc = {| rev := 0; pubTs := 0 |}).
Proof.
  split; [reflexivity|]. split.
  - rewrite newer_true_iff. unfold exceeds. cbn [pickBest pubTs]. lia.
  - intros Hs Hx Hp Hc. unfold pickBest, parseISO, Js.or.
    rewrite Hs, Hx, Hp, Hc. reflexivity.
Qed.

End VersionOrder.

Lemma presentAll_retains_maximum_witness :
  presentAll "S1" [ {| rev := 2; pubTs := 50 |}; {| rev := 3; pubTs := 10 |} ] ∅
    !! "S2"%string = None.
Proof.
  destruct (presentAll_retains_maximum "S1"
              [ {| rev := 2; pubTs := 50 |}; {| rev := 3; pubTs := 10 |} ] ∅)
    as [_ H]; [discriminate|].
  rewrite H; [reflexivity|discriminate].
Defined.

Section VersionOrderExamples.
Local Existing Instance Ref.runtime.

Lemma same_document_revision_decides_witness :
  pickBest Example.noCode Example.codelessAB = {| rev := 0; pubTs := 0 |}.
Proof.
  apply (same_document_revision_decides Example.noCode Example.noCode
           Example.codelessAB); reflexivity.
Defined.

End VersionOrderExamples.

(** ** Insertion-ordered maps, continued *)

Section JsMapSetFacts.
Context {V : Type}.

Lemma get_None_keys (m : JsMap.t V) (k : string) :
  JsMap.get m k = None <-> ~ In k (JsMap.keys m).
Proof.
  induction m as [|[k' v'] m IH]; cbn; [tauto|].
  destruct (String.eqb_spec k' k) as [->|Hne].
  - split; [discriminate|]. intros H. exfalso. apply H. now left.
  - rewrite IH. tauto.
Qed.

Lemma In_get (m : JsMap.t V) (k : string) (v : V) :
  List.NoDup (JsMap.keys m) -> In (k, v) m -> JsMap.get m k = Some v.
Proof.
  induction m as [|[k' v'] m IH]; cbn; [tauto|].
  intros Hnd [Heq|Hin].
  - inversion Heq; subst. now rewrite String.eqb_refl.
  - inversion Hnd as [|? ? Hnot Hnd']; subst.
    destruct (String.eqb_spec k' k) as [->|Hne]; [|now apply IH].
    exfalso. apply Hnot. change (In (fst (k, v)) (map fst m)). now apply in_map.
Qed.

Lemma keys_set (m : JsMap.t V) (k : string) (v : V) :
  JsMap.keys (JsMap.set m k v)
  = if JsMap.has m k then JsMap.keys m else JsMap.keys m ++ [k].
Proof.
  unfold JsMap.has, JsMap.keys. induction m as [|[k' v'] m IH]; cbn; [reflexivity|].
  destruct (String.eqb_spec k' k) as [->|Hne]; cbn; [reflexivity|].
  rewrite IH. destruct (JsMap.get m k); reflexivity.
Qed.

Lemma NoDup_keys_set (m : JsMap.t V) (k : string) (v : V) :
  List.NoDup (JsMap.keys m) -> List.NoDup (JsMap.keys (JsMap.set m k v)).
Proof.
  intros Hnd. rewrite keys_set. unfold JsMap.has.
  destruct (JsMap.get m k) eqn:Hg; [exact Hnd|].
  apply get_None_keys in Hg.
  apply List.NoDup_app; [assumption| |].
  - repeat constructor. intros [].
  - intros x Hx [<-|[]]. contradiction.
Qed.

Lemma In_set (m : JsMap.t V) (k k' : string) (v v' : V) :
  In (k', v') (JsMap.set m k v) ->
  (k' = k /\ v' = v) \/ (k' <> k /\ In (k', v') m) \/ (k' = k /\ In (k', v') m).
Proof.
  induction m as [|[k0 v0] m IH]; cbn.
  - intros [Heq|[]]. inversion Heq. now left.
  - destruct (String.eqb_spec k0 k) as [->|Hne]; cbn.
    + intros [Heq|Hin]; [inversion Heq; now left|].
      destruct (String.eqb_spec k' k) as [->|Hk]; [right; right|right; left]; auto.
    + intros [Heq|Hin].
      * inversion Heq; subst. right; left. split; [assumption|now left].
      * destruct (IH Hin) as [H|[[H1 H2]|[H1 H2]]]; auto.
Qed.

Lemma In_set_NoDup (m : JsMap.t V) (k k' : string) (v v' : V) :
  List.NoDup (JsMap.keys m) ->
  In (k', v') (JsMap.set m k v) ->
  (k' = k /\ v' = v) \/ (k' <> k /\ In (k', v') m).
Proof.
  intros Hnd Hin.
  assert (Hg : JsMap.get (JsMap.set m k v) k' = Some v')
    by (apply In_get; [now apply NoDup_keys_set|assumption]).
  rewrite get_set in Hg.
  destruct (String.eqb_spec k k') as [->|Hne].
  - inversion Hg. now left.
  - right. split; [congruence|]. now apply get_In.
Qed.

Lemma size_set (m : JsMap.t V) (k : string) (v : V) :
  JsMap.size (JsMap.set m k v)
  = if JsMap.has m k then JsMap.size m else S (JsMap.size m).
Proof.
  unfold JsMap.size, JsMap.has. induction m as [|[k' v'] m IH]; cbn; [reflexivity|].
  destruct (String.eqb k' k); cbn; [reflexivity|].
  rewrite IH. destruct (JsMap.get m k); reflexivity.
Qed.

Lemma set_not_nil (m : JsMap.t V) (k : string) (v : V) : JsMap.set m k v <> [].
Proof. destruct m as [|[k' v'] m]; cbn; [|destruct (String.eqb k' k)]; discriminate. Qed.

Lemma set_set (m : JsMap.t V) (k : string) (v w : V) :
  JsMap.set (JsMap.set m k v) k w = JsMap.set m k w.
Proof.
  induction m as [|[k' v'] m IH]; cbn.
  - now rewrite String.eqb_refl.
  - destruct (String.eqb k' k) eqn:E; cbn.
    + now rewrite String.eqb_refl.
    + now rewrite E, IH.
Qed.

End JsMapSetFacts.


(** ** The index over a run *)

Section IndexInvariant.
Context {rt : JsRuntime}.

(** [add] in one case analysis. *)
Lemma add_cases (atco : string) (svc : Svc) (idx : JsMap.t (JsMap.t Svc)) :
  add atco svc idx
  = if Js.nonEmpty atco then
      match JsMap.get idx atco with
      | Some bucket =>
          if JsMap.has bucket (identityKey svc) then idx
          else JsMap.set idx atco (JsMap.set bucket (identityKey svc) svc)
      | None => JsMap.set idx atco [(identityKey svc, svc)]
      end
    else idx.
Proof.
  unfold add. destruct (Js.nonEmpty atco); cbn [negb]; [|reflexivity].
  destruct (JsMap.get idx atco) as [bucket|].
  - destruct (JsMap.has bucket (identityKey svc)); reflexivity.
  - cbn [JsMap.has JsMap.get JsMap.empty negb]. apply set_set.
Qed.

Lemma get_add_other (atco a : string) (svc : Svc) (idx : JsMap.t (JsMap.t Svc)) :
  atco <> a -> JsMap.get (add atco svc idx) a = JsMap.get idx a.
Proof.
  intros Hne. rewrite add_cases.
  destruct (Js.nonEmpty atco); [|reflexivity].
  destruct (JsMap.get idx atco) as [bucket|];
    [destruct (JsMap.has bucket (identityKey svc)); [reflexivity|]|];
    now apply get_set_ne.
Qed.

Lemma add_wellFormed (atco : string) (svc : Svc) (idx : JsMap.t (JsMap.t Svc)) :
  indexWellFormed idx -> indexWellFormed (add atco svc idx).
Proof.
  intros [Hnd Hall]. rewrite add_cases.
  destruct (Js.nonEmpty atco) eqn:Hatco; [|now split].
  assert (Hne : atco <> EmptyString) by (intros ->; discriminate).
  destruct (JsMap.get idx atco) as [bucket|] eqn:Hb.
  - destruct (JsMap.has bucket (identityKey svc)) eqn:Hk; [now split|].
    destruct (Hall atco bucket (get_In _ _ _ Hb)) as (_ & _ & Hbnd & Hbkey).
    split; [now apply NoDup_keys_set|].
    intros a b Hin. apply In_set_NoDup in Hin; [|assumption].
    destruct Hin as [[-> ->]|[_ Hin]]; [|now apply Hall].
    split; [assumption|]. split; [apply set_not_nil|]. split.
    + now apply NoDup_keys_set.
    + intros k v Hkv. apply In_set_NoDup in Hkv; [|assumption].
      destruct Hkv as [[-> ->]|[_ Hkv]]; [reflexivity|now apply Hbkey].
  - split; [now apply NoDup_keys_set|].
    intros a b Hin. apply In_set_NoDup in Hin; [|assumption].
    destruct Hin as [[-> ->]|[_ Hin]]; [|now apply Hall].
    split; [assumption|]. split; [discriminate|]. split.
    + repeat constructor. intros [].
    + intros k v [Heq|[]]. now inversion Heq.
Qed.

(** The number of services of every stop after [add]: one more at the
    record's stop when the stop is non-empty and the identity key is free
    there, unchanged otherwise. *)
Theorem add_count (atco : string) (svc : Svc) (idx : JsMap.t (JsMap.t Svc))
    (a : string) :
  serviceCount (add atco svc idx) a
  = (serviceCount idx a
     + if Js.nonEmpty atco && String.eqb atco a
          && negb (bool_decide (is_Some (lookupService idx a (identityKey svc))))
       then 1 else 0)%nat.
Proof.
  rewrite add_cases. unfold serviceCount, lookupService.
  destruct (Js.nonEmpty atco); cbn [andb]; [|lia].
  destruct (String.eqb_spec atco a) as [<-|Hne]; cbn [andb].
  - destruct (JsMap.get idx atco) as [bucket|] eqn:Hb.
    + unfold JsMap.has.
      destruct (JsMap.get bucket (identityKey svc)) as [old|] eqn:Hk.
      * rewrite Hb. rewrite bool_decide_eq_true_2 by eauto. cbn. lia.
      * rewrite get_set_eq, size_set. unfold JsMap.has. rewrite Hk.
        rewrite bool_decide_eq_false_2 by (intros [x Hx]; discriminate). cbn. lia.
    + rewrite get_set_eq.
      rewrite bool_decide_eq_false_2 by (intros [x Hx]; discriminate). reflexivity.
  - destruct (JsMap.get idx atco) as [bucket|];
      [destruct (JsMap.has bucket (identityKey svc))|];
      rewrite ?get_set_ne by assumption; lia.
Qed.

(** The record found under a key at a stop after a service was added to a
    list of stops. *)
Lemma lookupService_add_all (stops : list string) (svc : Svc)
    (idx : JsMap.t (JsMap.t Svc)) (a k : string) :
  lookupService (fold_left (fun idx atco => add atco svc idx) stops idx) a k
  = if existsb (String.eqb a) stops && Js.nonEmpty a
       && String.eqb (identityKey svc) k
    then Some (default svc (lookupService idx a k))
    else lookupService idx a k.
Proof.
  revert idx. induction stops as [|atco stops IH]; intros idx; cbn [fold_left existsb].
  - reflexivity.
  - rewrite IH, lookupService_add.
    destruct (String.eqb_spec a atco) as [->|Hne].
    + rewrite String.eqb_refl. cbn [orb].
      destruct (Js.nonEmpty atco); cbn [andb];
        [|destruct (existsb _ stops); reflexivity].
      destruct (String.eqb (identityKey svc) k); cbn [andb];
        [|destruct (existsb _ stops); reflexivity].
      destruct (existsb _ stops); cbn [andb];
        destruct (lookupService idx atco k); reflexivity.
    + assert (Hne' : String.eqb atco a = false)
        by (apply String.eqb_neq; congruence).
      rewrite Hne'. cbn [orb andb]. rewrite andb_false_r. cbn [andb]. reflexivity.
Qed.

Lemma get_add_all_other (stops : list string) (svc : Svc)
    (idx : JsMap.t (JsMap.t Svc)) (a : string) :
  ~ In a stops ->
  JsMap.get (fold_left (fun idx atco => add atco svc idx) stops idx) a
  = JsMap.get idx a.
Proof.
  revert idx. induction stops as [|atco stops IH]; intros idx Hnot; cbn [fold_left].
  - reflexivity.
  - rewrite IH by (intros H; apply Hnot; now right).
    apply get_add_other. intros ->. apply Hnot. now left.
Qed.

Lemma add_all_wellFormed (stops : list string) (svc : Svc)
    (idx : JsMap.t (JsMap.t Svc)) :
  indexWellFormed idx ->
  indexWellFormed (fold_left (fun idx atco => add atco svc idx) stops idx).
Proof.
  revert idx. induction stops as [|atco stops IH]; intros idx H; cbn [fold_left].
  - exact H.
  - apply IH. now apply add_wellFormed.
Qed.

Variables (TODAY : option Z) (nocMap : gmap string string) (opOverrides : Overrides).

Section Preserved.
Variable P : JsMap.t (JsMap.t Svc) -> Prop.
Hypothesis P_add : forall atco svc idx, P idx -> P (add atco svc idx).

Lemma processService_preserved (txc : TransXChange) (stops vjCodes : list string)
    (operatorIndex : JsMap.t OperatorInfo) (st : State) (s : Service) :
  P (stopToServices st) ->
  P (stopToServices (fst (processService TODAY nocMap opOverrides txc stops
                                         vjCodes operatorIndex st s))).
Proof.
  intros H.
  pose proof (processService_index TODAY nocMap opOverrides txc stops vjCodes
                operatorIndex st s) as Hidx.
  cbn zeta in Hidx.
  destruct (snd (processService _ _ _ _ _ _ _ _ _)); rewrite Hidx; try exact H.
  clear Hidx. revert H. generalize (stopToServices st).
  induction stops as [|atco stops' IH]; intros idx H; cbn [fold_left]; auto.
Qed.

Lemma parseTXC_preserved (doc : option TransXChange) (st : State) :
  P (stopToServices st) ->
  P (stopToServices (parseTXC TODAY nocMap opOverrides doc st)).
Proof.
  destruct doc as [txc|]; [|trivial]. unfold parseTXC.
  apply (serviceLoop_invariant (fun st => P (stopToServices st))).
  intros st' s. apply processService_preserved.
Qed.

Lemma parseZip_preserved (entries : list ZipEntry) (st : State) :
  P (stopToServices st) ->
  P (stopToServices (parseZip TODAY nocMap opOverrides entries st)).
Proof.
  unfold parseZip. revert st.
  induction entries as [|e entries IH]; intros st H; cbn [fold_left].
  - exact H.
  - apply IH. destruct (isXmlEntry (fileName e)); [|exact H].
    now apply parseTXC_preserved.
Qed.

Lemma run_preserved (zips : list (list ZipEntry)) :
  P JsMap.empty -> P (stopToServices (run TODAY nocMap opOverrides zips)).
Proof.
  unfold run. intros H.
  assert (H0 : P (stopToServices initialState)) by exact H.
  revert H0. generalize initialState.
  induction zips as [|z zips IH]; intros st H0; cbn [fold_left].
  - exact H0.
  - apply IH. now apply parseZip_preserved.
Qed.

End Preserved.

(** After any run, over any archives and documents, the index is well
    formed: the stops are distinct and non-empty, no stop has an empty
    bucket, and every bucket holds each record under its identity key, with
    no key twice. *)
Theorem run_index_well_formed (zips : list (list ZipEntry)) :
  let idx := stopToServices (run TODAY nocMap opOverrides zips) in
  List.NoDup (JsMap.keys idx)
  /\ (forall atco bucket,
        In (atco, bucket) idx ->
        atco <> EmptyString
        /\ bucket <> []
        /\ List.NoDup (JsMap.keys bucket)
        /\ (forall k v, In (k, v) bucket -> k = identityKey v)).
Proof.
  cbn zeta.
  apply (run_preserved indexWellFormed).
  - intros atco svc idx. apply add_wellFormed.
  - split; [constructor|intros atco bucket []].
Qed.

(** The arrays written for a run: one per stop of the index; each is a
    permutation of the stop's records, is not empty, and holds no two
    records with the same identity key. *)
Theorem run_output_deduplicated (zips : list (list ZipEntry)) :
  let idx := stopToServices (run TODAY nocMap opOverrides zips) in
  let out := buildOutput idx in
  (forall atco, In atco (JsMap.keys out) <-> In atco (JsMap.keys idx))
  /\ List.NoDup (JsMap.keys out)
  /\ (forall atco arr,
        In (atco, arr) out ->
        exists bucket,
          JsMap.get idx atco = Some bucket
          /\ Permutation (JsMap.values bucket) arr
          /\ arr <> []
          /\ List.NoDup (map identityKey arr)).
Proof.
  cbn zeta.
  pose proof (run_preserved indexWellFormed
                (fun atco svc idx => add_wellFormed atco svc idx) zips
                (conj (List.NoDup_nil _) (fun atco bucket (H : In (atco, bucket) []) =>
                                            match H with end))) as [Hnd Hall].
  set (idx := stopToServices (run TODAY nocMap opOverrides zips)) in *.
  assert (Hkeys : JsMap.keys (buildOutput idx) = JsMap.keys idx).
  { unfold buildOutput, JsMap.keys. rewrite map_map.
    apply map_ext. intros [atco bucket]. reflexivity. }
  split; [intros atco; now rewrite Hkeys|]. split; [now rewrite Hkeys|].
  intros atco arr Hin. unfold buildOutput in Hin. apply in_map_iff in Hin.
  destruct Hin as ([atco' bucket] & Heq & Hin). inversion Heq; subst.
  destruct (Hall atco bucket Hin) as (_ & Hne & Hbnd & Hbkey).
  exists bucket. split; [now apply In_get|].
  assert (Hperm : Permutation (JsMap.values bucket) (servicesOfStop bucket))
    by apply sort_perm.
  split; [exact Hperm|]. split.
  - intros Hnil. rewrite Hnil in Hperm. apply Permutation_nil_r in Hperm.
    destruct bucket; [congruence|discriminate].
  - eapply Permutation_NoDup; [apply Permutation_map; exact Hperm|].
    assert (Hmap : map identityKey (JsMap.values bucket) = JsMap.keys bucket).
    { unfold JsMap.values, JsMap.keys. rewrite map_map.
      apply map_ext_in. intros [k v] Hkv. cbn. symmetry. now apply Hbkey. }
    now rewrite Hmap.
Qed.

End IndexInvariant.

(** ** What a document does to the run *)

Section DocumentFacts.
Context {rt : JsRuntime}.
Variables (TODAY : option Z) (nocMap : gmap string string) (opOverrides : Overrides).

(** A kept service is attached to every non-empty stop of its document and
    to no other stop: at such a stop its identity key holds the record that
    was there before, or else the new record; every other entry of the
    index is as before. *)
Theorem kept_service_at_every_stop (txc : TransXChange) (st : State)
    (s : Service) (svc : Svc) :
  let result := processIn TODAY nocMap opOverrides txc st s in
  snd result = Kept svc ->
  forall a k,
    lookupService (stopToServices (fst result)) a k
    = if existsb (String.eqb a) (sectionStopsOf txc) && Js.nonEmpty a
         && String.eqb (identityKey svc) k
      then Some (default svc (lookupService (stopToServices st) a k))
      else lookupService (stopToServices st) a k.
Proof.
  cbn zeta. unfold processIn. intros Hkept a k.
  pose proof (processService_index TODAY nocMap opOverrides txc
                (sectionStopsOf txc) (vjCodesOf txc) (operatorIndexOf txc) st s)
    as Hidx.
  cbn zeta in Hidx. rewrite Hkept in Hidx. rewrite Hidx.
  apply lookupService_add_all.
Qed.

Lemma processService_get_other (txc : TransXChange) (stops vjCodes : list string)
    (operatorIndex : JsMap.t OperatorInfo) (st : State) (s : Service) (a : string) :
  ~ In a stops ->
  JsMap.get (stopToServices (fst (processService TODAY nocMap opOverrides txc
                                    stops vjCodes operatorIndex st s))) a
  = JsMap.get (stopToServices st) a.
Proof.
  intros Hnot.
  pose proof (processService_index TODAY nocMap opOverrides txc stops vjCodes
                operatorIndex st s) as Hidx.
  cbn zeta in Hidx.
  destruct (snd (processService _ _ _ _ _ _ _ _ _)); rewrite Hidx; try reflexivity.
  now apply get_add_all_other.
Qed.

(** A document changes the buckets of its own stops only: the bucket of a
    stop that no journey pattern timing link of the document refers to is
    left as it was; a document without any stop leaves the whole index as it
    was, and a document without a root leaves the whole run as it was. *)
Theorem document_touches_only_its_stops (txc : TransXChange) (st : State) :
  (forall a,
     ~ In a (sectionStopsOf txc) ->
     JsMap.get (stopToServices (parseTXC TODAY nocMap opOverrides (Some txc) st)) a
     = JsMap.get (stopToServices st) a)
  /\ (sectionStopsOf txc = [] ->
      stopToServices (parseTXC TODAY nocMap opOverrides (Some txc) st)
      = stopToServices st)
  /\ parseTXC TODAY nocMap opOverrides None st = st.
Proof.
  split; [|split; [|reflexivity]].
  - intros a Hnot. unfold parseTXC.
    apply (serviceLoop_invariant
             (fun st' => JsMap.get (stopToServices st') a
                         = JsMap.get (stopToServices st) a)); [|reflexivity].
    intros st' s H. rewrite <- H. now apply processService_get_other.
  - intros Hnone. unfold parseTXC. rewrite Hnone.
    apply (serviceLoop_invariant
             (fun st' => stopToServices st' = stopToServices st)); [|reflexivity].
    intros st' s H. rewrite <- H.
    pose proof (processService_index TODAY nocMap opOverrides txc []
                  (vjCodesOf txc) (operatorIndexOf txc) st' s) as Hidx.
    cbn zeta in Hidx.
    destruct (snd (processService _ _ _ _ _ _ _ _ _)); exact Hidx.
Qed.

(** The counters after one service. *)
Lemma processService_counters (txc : TransXChange) (stops vjCodes : list string)
    (operatorIndex : JsMap.t OperatorInfo) (st : State) (s : Service) :
  let result := processService TODAY nocMap opOverrides txc stops vjCodes
                               operatorIndex st s in
  servicesSeen (fst result) = S (servicesSeen st)
  /\ servicesKept (fst result)
     = (servicesKept st + if isKept (snd result) then 1 else 0)%nat
  /\ servicesExpired (fst result)
     = (servicesExpired st + if isExpired (snd result) then 1 else 0)%nat.
Proof.
  cbn zeta. unfold processService.
  destruct (notUsedInFile _ _); [cbn; repeat split; lia|].
  destruct (negb _); [cbn; repeat split; lia|].
  destruct (versionCheck _ _ _); [destruct (buildSvc _ _ _ _ _)|];
    cbn; repeat split; lia.
Qed.

(** A service whose operator names can be read does not throw. *)
Lemma processService_readable (txc : TransXChange) (stops vjCodes : list string)
    (operatorIndex : JsMap.t OperatorInfo) (st : State) (s : Service) :
  namesReadable s ->
  snd (processService TODAY nocMap opOverrides txc stops vjCodes
                      operatorIndex st s) <> Threw.
Proof.
  intros [names Hnames]. unfold processService.
  destruct (notUsedInFile _ _); [discriminate|].
  destruct (negb _); [discriminate|].
  destruct (versionCheck _ _ _); [|discriminate].
  unfold buildSvc, operatorOf. rewrite Hnames.
  destruct (if Js.nonEmpty _ then _ else _) as [info|]; [discriminate|].
  destruct operatorIndex as [|[k only] [|other idx]]; discriminate.
Qed.

(** The counters after a document. The loop reaches the declared services
    in order, all of them unless one throws, which is then the last it
    reaches. Every service it reaches is seen; the kept are those it kept,
    and the expired those that pass the vehicle-journey gate and are not
    active. When the names of the operators hanging off the services can
    all be read, nothing throws and every declared service is seen. *)
Theorem parseTXC_counters (txc : TransXChange) (st : State) :
  let body := processService TODAY nocMap opOverrides txc (sectionStopsOf txc)
                             (vjCodesOf txc) (operatorIndexOf txc) in
  let trace := loopTrace body (x_Services txc) st in
  let st' := parseTXC TODAY nocMap opOverrides (Some txc) st in
  servicesSeen st' = (servicesSeen st + length trace)%nat
  /\ servicesKept st'
     = (servicesKept st + length (List.filter (fun so => isKept (snd so)) trace))%nat
  /\ servicesExpired st'
     = (servicesExpired st
        + length (List.filter (fun so => isExpired (snd so)) trace))%nat
  /\ (exists rest,
        x_Services txc = map fst trace ++ rest
        /\ (rest <> [] -> exists before s, trace = before ++ [(s, Threw)]))
  /\ (forall before s o, trace = before ++ [(s, o)] ->
        Forall (fun so => snd so <> Threw) before)
  /\ (forall s o, In (s, o) trace ->
        (o = Expired <->
         notUsedInFile (vjCodesOf txc) (serviceCodeOf s) = false
         /\ serviceIsActiveToday TODAY s txc = false)
        /\ (o = Threw -> ~ namesReadable s))
  /\ (Forall namesReadable (x_Services txc) -> map fst trace = x_Services txc).
Proof.
  cbn zeta. unfold parseTXC.
  set (body := processService TODAY nocMap opOverrides txc (sectionStopsOf txc)
                              (vjCodesOf txc) (operatorIndexOf txc)).
  generalize (x_Services txc). intros services. revert st.
  induction services as [|s services IH]; intros st;
    cbn [serviceLoop loopTrace].
  { cbn. split; [lia|]. split; [lia|]. split; [lia|]. split.
    { exists []. split; [reflexivity|congruence]. }
    split. { intros before s o H. destruct before; discriminate. }
    split. { intros s o []. }
    intros _. reflexivity. }
  pose proof (processService_counters txc (sectionStopsOf txc) (vjCodesOf txc)
                (operatorIndexOf txc) st s) as (Hseen & Hkept & Hexp).
  pose proof (processService_outcome TODAY nocMap opOverrides txc
                (sectionStopsOf txc) (vjCodesOf txc) (operatorIndexOf txc) st s)
    as [_ Hout].
  pose proof (processService_readable txc (sectionStopsOf txc) (vjCodesOf txc)
                (operatorIndexOf txc) st s) as Hread.
  cbn zeta in Hseen, Hkept, Hexp, Hout. fold body in Hseen, Hkept, Hexp, Hout, Hread.
  destruct (body st s) as [st1 o] eqn:Hbody. cbn [fst snd] in *.
  assert (Hhere : forall s' o', (s', o') = (s, o) ->
            (o' = Expired <->
             notUsedInFile (vjCodesOf txc) (serviceCodeOf s') = false
             /\ serviceIsActiveToday TODAY s' txc = false)
            /\ (o' = Threw -> ~ namesReadable s')).
  { intros s' o' Heq. inversion Heq; subst. split; [exact Hout|].
    intros -> Hr. now apply Hread. }
  destruct (IH st1) as (IHseen & IHkept & IHexp & (rest & IHrest & IHlast)
                        & IHthrew & IHin & IHall).
  assert (Hgo : o <> Threw ->
            servicesSeen (serviceLoop body services st1)
            = (servicesSeen st + length ((s, o) :: loopTrace body services st1))%nat
            /\ servicesKept (serviceLoop body services st1)
               = (servicesKept st
                  + length (List.filter (fun so => isKept (snd so))
                              ((s, o) :: loopTrace body services st1)))%nat
            /\ servicesExpired (serviceLoop body services st1)
               = (servicesExpired st
                  + length (List.filter (fun so => isExpired (snd so))
                              ((s, o) :: loopTrace body services st1)))%nat
            /\ (exists rest',
                  s :: services = map fst ((s, o) :: loopTrace body services st1) ++ rest'
                  /\ (rest' <> [] ->
                      exists before s',
                        (s, o) :: loopTrace body services st1 = before ++ [(s', Threw)]))
            /\ (forall before s' o',
                  (s, o) :: loopTrace body services st1 = before ++ [(s', o')] ->
                  Forall (fun so => snd so <> Threw) before)
            /\ (forall s' o', In (s', o') ((s, o) :: loopTrace body services st1) ->
                  (o' = Expired <->
                   notUsedInFile (vjCodesOf txc) (serviceCodeOf s') = false
                   /\ serviceIsActiveToday TODAY s' txc = false)
                  /\ (o' = Threw -> ~ namesReadable s'))
            /\ (Forall namesReadable (s :: services) ->
                map fst ((s, o) :: loopTrace body services st1) = s :: services)).
  { intros Hnot. cbn [List.filter length map fst snd].
    rewrite IHseen, IHkept, IHexp, Hseen, Hkept, Hexp.
    split; [lia|]. split; [destruct (isKept o); cbn [length]; lia|].
    split; [destruct (isExpired o); cbn [length]; lia|].
    split.
    { exists rest. split; [cbn; now rewrite <- IHrest|].
      intros Hne. destruct (IHlast Hne) as (before & s' & Hb).
      exists ((s, o) :: before), s'. cbn. now rewrite Hb. }
    split.
    { intros before s' o' Heq. destruct before as [|x before]; [constructor|].
      cbn in Heq. inversion Heq; subst. constructor; [exact Hnot|].
      eapply IHthrew; eassumption. }
    split.
    { intros s' o' [Heq|Hin]; [now apply Hhere|now apply IHin]. }
    intros Hall. inversion Hall; subst. cbn. f_equal. now apply IHall. }
  destruct o; try (apply Hgo; discriminate).
  cbn [List.filter length map fst snd isKept isExpired app] in *.
  rewrite Hseen, Hkept, Hexp.
  split; [lia|]. split; [lia|]. split; [lia|]. split.
  { exists services. split; [reflexivity|]. intros _. now exists [], s. }
  split.
  { intros before s' o' Heq. destruct before as [|x [|y before]];
      [constructor|discriminate|discriminate]. }
  split.
  { intros s' o' [Heq|[]]. now apply Hhere. }
  intros Hall. inversion Hall; subst. exfalso. now apply Hread.
Qed.

End DocumentFacts.

(** ** The stops of a document *)

Section StopFacts.

Lemma setAdd_In (x y : string) (l : list string) :
  In x (setAdd y l) <-> x = y \/ In x l.
Proof.
  unfold setAdd. destruct (existsb (String.eqb y) l) eqn:E.
  - split; [now right|]. intros [->|H]; [|exact H].
    apply existsb_exists in E. destruct E as (z & Hz & Heq).
    apply String.eqb_eq in Heq. now subst.
  - rewrite in_app_iff. cbn. intuition congruence.
Qed.

Lemma setAdd_NoDup (y : string) (l : list string) :
  List.NoDup l -> List.NoDup (setAdd y l).
Proof.
  intros Hnd. unfold setAdd. destruct (existsb (String.eqb y) l) eqn:E; [exact Hnd|].
  apply List.NoDup_app; [assumption|repeat constructor; intros []|].
  intros a Ha [Heq|[]]. subst a.
  assert (Hex : existsb (String.eqb y) l = true)
    by (apply existsb_exists; exists y; split; [assumption|apply String.eqb_refl]).
  congruence.
Qed.

Lemma addLinkStops_In (x : string) (link : JourneyPatternTimingLink)
    (acc : list string) :
  In x (addLinkStops acc link) <-> In x acc \/ linkStop x link.
Proof.
  unfold addLinkStops, linkStop.
  destruct (Js.truthy (l_From_StopPointRef link)),
           (Js.truthy (l_To_StopPointRef link));
    rewrite ?setAdd_In; intuition congruence.
Qed.

Lemma addLinkStops_NoDup (link : JourneyPatternTimingLink) (acc : list string) :
  List.NoDup acc -> List.NoDup (addLinkStops acc link).
Proof.
  intros H. unfold addLinkStops.
  destruct (Js.truthy (l_From_StopPointRef link)),
           (Js.truthy (l_To_StopPointRef link));
    auto using setAdd_NoDup.
Qed.

Lemma links_In (x : string) (sec : list JourneyPatternTimingLink)
    (acc : list string) :
  In x (fold_left addLinkStops sec acc) <->
  In x acc \/ exists link, In link sec /\ linkStop x link.
Proof.
  revert acc. induction sec as [|link sec IH]; intros acc; cbn [fold_left].
  - split; [now left|]. intros [H|(l & [] & _)]. exact H.
  - rewrite IH, addLinkStops_In. split.
    + intros [[H|H]|(l & Hl & Hx)]; [now left| |]; right; eauto using in_eq, in_cons.
    + intros [H|(l & [<-|Hl] & Hx)]; [left; now left|left; now right|right; eauto].
Qed.

Lemma links_NoDup (sec : list JourneyPatternTimingLink) (acc : list string) :
  List.NoDup acc -> List.NoDup (fold_left addLinkStops sec acc).
Proof.
  revert acc. induction sec as [|link sec IH]; intros acc H; cbn [fold_left];
    auto using addLinkStops_NoDup.
Qed.

(** The stops of a document are the truthy [From] and [To] stop references
    of the timing links of all its journey pattern sections, each converted
    to a string and trimmed, each once. A reference that the parser read as
    a number gives the text of the number, which has no leading zeros, and
    the number 0 gives no stop. *)
Theorem sectionStops_are_link_ends (txc : TransXChange) :
  List.NoDup (sectionStopsOf txc)
  /\ (forall x,
        In x (sectionStopsOf txc) <->
        exists sec link,
          In sec (x_JourneyPatternSections txc) /\ In link sec
          /\ ((Js.truthy (l_From_StopPointRef link) = true
               /\ x = Js.trim (Js.toString (l_From_StopPointRef link)))
              \/ (Js.truthy (l_To_StopPointRef link) = true
                  /\ x = Js.trim (Js.toString (l_To_StopPointRef link)))))
  /\ (forall s, Js.toString (Js.text s) = s /\ Js.toString (Js.numeric s) = s)
  /\ Js.truthy (Js.numeric "0") = false
  /\ sectionStopsOf Example.numberedStops = ["100053316"%string].
Proof.
  unfold sectionStopsOf.
  assert (Hgen : forall secs acc,
            List.NoDup acc ->
            List.NoDup (fold_left (fun acc sec => fold_left addLinkStops sec acc) secs acc)
            /\ forall x,
                 In x (fold_left (fun acc sec => fold_left addLinkStops sec acc) secs acc)
                 <-> In x acc \/ exists sec link, In sec secs /\ In link sec /\ linkStop x link).
  { induction secs as [|sec secs IH]; intros acc Hnd; cbn [fold_left].
    - split; [exact Hnd|]. intros x. split; [now left|].
      intros [H|(s & l & [] & _)]. exact H.
    - destruct (IH (fold_left addLinkStops sec acc) (links_NoDup sec acc Hnd))
        as [Hnd' Hin].
      split; [exact Hnd'|]. intros x. rewrite Hin, links_In. split.
      + intros [[H|(l & Hl & Hx)]|(s & l & Hs & Hl & Hx)];
          [now left| |]; right; [exists sec, l|exists s, l];
          repeat split; auto using in_eq, in_cons.
      + intros [H|(s & l & [<-|Hs] & Hl & Hx)];
          [left; now left|left; right; eauto|right; eauto]. }
  destruct (Hgen (x_JourneyPatternSections txc) [] (List.NoDup_nil _)) as [Hnd Hin].
  split; [exact Hnd|]. split; [|repeat split].
  intros x. rewrite Hin. unfold linkStop. split.
  - intros [[]|H]. exact H.
  - intros H. now right.
Qed.

End StopFacts.

Section DocumentExamples.
Local Existing Instance Ref.runtime.

(** Service S9 is kept from the second document and reaches stop C, where
    nothing was stored under its key. *)
Lemma kept_service_at_every_stop_witness :
  lookupService
    (stopToServices (fst (processIn (Some Example.mar2024) ∅ [] Example.doc2
                                    Example.afterDoc1 Example.s9rev5))) "C" "12"
  = Some {| ref := "12"; name := "12"; operator := "OPB"; operatorCode := "OPB";
            serviceCode := "S9" |}.
Proof.
  rewrite (kept_service_at_every_stop (Some Example.mar2024) ∅ [] Example.doc2
             Example.afterDoc1 Example.s9rev5
             {| ref := "12"; name := "12"; operator := "OPB";
                operatorCode := "OPB"; serviceCode := "S9" |}).
  - vm_compute. reflexivity.
  - vm_compute. reflexivity.
Defined.

(** The second document has stops A and C only: the bucket of stop B is
    as the first document left it. *)
Lemma document_touches_only_its_stops_witness :
  JsMap.get (stopToServices (parseTXC (Some Example.mar2024) ∅ []
                                      (Some Example.doc2) Example.afterDoc1)) "B"
  = JsMap.get (stopToServices Example.afterDoc1) "B".
Proof.
  apply (document_touches_only_its_stops (Some Example.mar2024) ∅ [] Example.doc2
           Example.afterDoc1).
  vm_compute. intros [H|[H|[]]]; discriminate.
Defined.

(** The first service of the document has an operator whose trading name the
    parser read as a number: reading it throws, after the version of the
    service was retained. The service is seen and not kept, nothing is
    added for it, and the second service of the document is never seen. *)
Lemma parseTXC_counters_example :
  let st := parseTXC (Some Example.mar2024) ∅ [] (Some Example.numberedOperator)
                     initialState in
  length (x_Services Example.numberedOperator) = 2%nat
  /\ servicesSeen st = 1%nat /\ servicesKept st = 0%nat
  /\ stopToServices st = []
  /\ bestServiceVersion st !! "S4"%string = Some {| rev := 2; pubTs := 0 |}
  /\ bestServiceVersion st !! "S5"%string = None.
Proof. vm_compute. repeat split; reflexivity. Qed.

End DocumentExamples.

(** ** The operator table *)

Section CsvFacts.

Lemma append_cons (c : ascii) (s t : string) :
  (String c s ++ t)%string = String c (s ++ t).
Proof. reflexivity. Qed.

Lemma append_nil_l (s : string) : (EmptyString ++ s)%string = s.
Proof. reflexivity. Qed.

Lemma append_nil_r (s : string) : (s ++ EmptyString)%string = s.
Proof.
  induction s as [|c s IH]; [reflexivity|]. now rewrite append_cons, IH.
Qed.

Lemma append_assoc (a b c : string) : ((a ++ b) ++ c)%string = (a ++ (b ++ c))%string.
Proof.
  induction a as [|x a IH]; [reflexivity|]. now rewrite !append_cons, IH.
Qed.

Lemma snoc_append (cur : string) (c : ascii) (s : string) :
  (snoc cur c ++ s)%string = (cur ++ String c s)%string.
Proof. unfold snoc. now rewrite append_assoc. Qed.

(** Induction on strings two characters at a time. *)
Lemma string_ind2 (P : string -> Prop) :
  P EmptyString ->
  (forall c, P (String c EmptyString)) ->
  (forall c c' s, P s -> P (String c' s) -> P (String c (String c' s))) ->
  forall s, P s.
Proof.
  intros H0 H1 H2 s.
  assert (H : P s /\ forall c, P (String c s)); [|exact (proj1 H)].
  induction s as [|c s [IHs IHc]]; split; auto.
Qed.

(** One step of the loop. *)
Lemma splitCsvFrom_step (ch : ascii) (rest cur : string) (inQuotes : bool)
    (result : list string) :
  splitCsvFrom (String ch rest) cur inQuotes result
  = if Ascii.eqb ch quoteMark then
      match rest with
      | String next rest' =>
          if inQuotes && Ascii.eqb next quoteMark
          then splitCsvFrom rest' (snoc cur quoteMark) inQuotes result
          else splitCsvFrom rest cur (negb inQuotes) result
      | EmptyString => splitCsvFrom rest cur (negb inQuotes) result
      end
    else if Ascii.eqb ch "," && negb inQuotes
    then splitCsvFrom rest EmptyString inQuotes (result ++ [cur])
    else splitCsvFrom rest (snoc cur ch) inQuotes result.
Proof. destruct rest; reflexivity. Qed.

(** The fields pushed so far stay in front. *)
Lemma splitCsvFrom_acc (line cur : string) (inQuotes : bool) (result : list string) :
  splitCsvFrom line cur inQuotes result
  = result ++ splitCsvFrom line cur inQuotes [].
Proof.
  revert cur inQuotes result.
  induction line as [|c|c c' s IHs IHc] using string_ind2; intros cur q result.
  - reflexivity.
  - rewrite !splitCsvFrom_step. destruct (Ascii.eqb c quoteMark); [reflexivity|].
    destruct (Ascii.eqb c "," && negb q); cbn; [|reflexivity].
    now rewrite <- app_assoc.
  - rewrite !(splitCsvFrom_step c).
    destruct (Ascii.eqb c quoteMark).
    + destruct (q && Ascii.eqb c' quoteMark); [apply IHs|apply IHc].
    + destruct (Ascii.eqb c "," && negb q); [|apply IHc].
      rewrite IHc, (IHc _ _ ([] ++ [cur])). now rewrite <- app_assoc.
Qed.

Lemma splitCsvFrom_not_nil (line cur : string) (inQuotes : bool) :
  splitCsvFrom line cur inQuotes [] <> [].
Proof.
  revert cur inQuotes.
  induction line as [|c|c c' s IHs IHc] using string_ind2; intros cur q.
  - discriminate.
  - rewrite splitCsvFrom_step. destruct (Ascii.eqb c quoteMark); [discriminate|].
    destruct (Ascii.eqb c "," && negb q); discriminate.
  - rewrite (splitCsvFrom_step c).
    destruct (Ascii.eqb c quoteMark).
    + destruct (q && Ascii.eqb c' quoteMark); [apply IHs|apply IHc].
    + destruct (Ascii.eqb c "," && negb q); [|apply IHc].
      rewrite splitCsvFrom_acc. discriminate.
Qed.

(** A line without quote marks. *)
Lemma splitCsvFrom_unquoted_step (c : ascii) (rest cur : string) :
  Ascii.eqb c quoteMark = false ->
  splitCsvFrom (String c rest) cur false []
  = if Ascii.eqb c "," then cur :: splitCsvFrom rest EmptyString false []
    else splitCsvFrom rest (snoc cur c) false [].
Proof.
  intros Hc. rewrite splitCsvFrom_step, Hc, andb_true_r.
  destruct (Ascii.eqb c ","); [|reflexivity].
  now rewrite splitCsvFrom_acc.
Qed.

Lemma joinComma_cons (c : string) (cells : list string) :
  cells <> [] -> joinComma (c :: cells) = (c ++ String "," (joinComma cells))%string.
Proof. destruct cells; [congruence|reflexivity]. Qed.

End CsvFacts.

Section CsvTheorems.

Lemma unquoted_join (line cur : string) :
  unquoted line = true ->
  joinComma (splitCsvFrom line cur false []) = (cur ++ line)%string
  /\ length (splitCsvFrom line cur false []) = S (commas line).
Proof.
  revert cur. induction line as [|c line IH]; intros cur Hq.
  - cbn. now rewrite append_nil_r.
  - cbn [unquoted] in Hq. apply andb_true_iff in Hq. destruct Hq as [Hc Hq].
    apply negb_true_iff in Hc.
    rewrite splitCsvFrom_unquoted_step by assumption. cbn [commas].
    destruct (Ascii.eqb_spec c ",") as [->|Hne].
    + destruct (IH EmptyString Hq) as [Hj Hl].
      rewrite joinComma_cons by apply splitCsvFrom_not_nil.
      rewrite Hj, append_nil_l. cbn [length]. now rewrite Hl.
    + destruct (IH (snoc cur c) Hq) as [Hj Hl].
      rewrite Hj, Hl, snoc_append. now split.
Qed.

(** [splitCsvLine] never returns an empty array; and on a line without quote
    marks it splits at the commas: joining its fields with commas gives the
    line back, and there is one field more than there are commas. *)
Theorem splitCsvLine_unquoted :
  (forall line, splitCsvLine line <> [])
  /\ (forall line,
        unquoted line = true ->
        joinComma (splitCsvLine line) = line
        /\ length (splitCsvLine line) = S (commas line)).
Proof.
  split.
  - intros line. apply splitCsvFrom_not_nil.
  - intros line Hq. unfold splitCsvLine.
    destruct (unquoted_join line EmptyString Hq) as [Hj Hl].
    now rewrite append_nil_l in Hj.
Qed.

Lemma split_plain (field tail cur : string) (result : list string) :
  csvPlain field = true ->
  splitCsvFrom (field ++ tail) cur false result
  = splitCsvFrom tail (cur ++ field) false result.
Proof.
  revert cur. induction field as [|c field IH]; intros cur Hp.
  - now rewrite append_nil_l, append_nil_r.
  - cbn [csvPlain] in Hp. apply andb_true_iff in Hp. destruct Hp as [Hp Hrest].
    apply andb_true_iff in Hp. destruct Hp as [Hq Hc].
    apply negb_true_iff in Hq, Hc.
    rewrite append_cons, splitCsvFrom_step, Hq, Hc. cbn [andb].
    rewrite IH by assumption. now rewrite snoc_append.
Qed.

Lemma split_escaped (field tail cur : string) (result : list string) :
  closes tail ->
  splitCsvFrom (csvEscape field ++ String quoteMark tail) cur true result
  = splitCsvFrom tail (cur ++ field) false result.
Proof.
  intros Htail. revert cur. induction field as [|c field IH]; intros cur.
  - cbn [csvEscape]. rewrite append_nil_l, append_nil_r, splitCsvFrom_step.
    change (Ascii.eqb quoteMark quoteMark) with true. cbn match.
    destruct tail as [|next tail']; [reflexivity|].
    cbn in Htail. rewrite Htail. reflexivity.
  - cbn [csvEscape]. destruct (Ascii.eqb c quoteMark) eqn:Hc.
    + apply Ascii.eqb_eq in Hc. subst c.
      rewrite !append_cons, splitCsvFrom_step.
      change (Ascii.eqb quoteMark quoteMark) with true. cbn match. cbn [andb].
      rewrite IH. now rewrite snoc_append.
    + rewrite append_cons, splitCsvFrom_step, Hc, andb_false_r.
      rewrite IH. now rewrite snoc_append.
Qed.

Lemma split_quoted (field tail cur : string) (result : list string) :
  closes tail ->
  splitCsvFrom (csvQuote field ++ tail) cur false result
  = splitCsvFrom tail (cur ++ field) false result.
Proof.
  intros Htail. unfold csvQuote.
  rewrite append_cons, append_assoc, append_cons, append_nil_l, splitCsvFrom_step.
  change (Ascii.eqb quoteMark quoteMark) with true. cbn match.
  rewrite <- (split_escaped field tail cur result Htail).
  destruct (csvEscape field ++ String quoteMark tail)%string; reflexivity.
Qed.

Lemma split_written (field cell_ tail cur : string) (result : list string) :
  writes field cell_ -> closes tail ->
  splitCsvFrom (cell_ ++ tail) cur false result
  = splitCsvFrom tail (cur ++ field) false result.
Proof.
  intros [->|[-> Hp]] Htail; [now apply split_quoted|now apply split_plain].
Qed.

Lemma split_joined (fields cells : list string) (result : list string) :
  Forall2 writes fields cells -> fields <> [] ->
  splitCsvFrom (joinComma cells) EmptyString false result = result ++ fields.
Proof.
  intros H. revert result.
  induction H as [|f c fields cells Hw Hrest IH]; intros result Hne; [congruence|].
  destruct cells as [|c' cells'].
  - inversion Hrest; subst. cbn [joinComma].
    rewrite <- (append_nil_r c), (split_written f c EmptyString) by (auto; exact I).
    now rewrite append_nil_l.
  - rewrite joinComma_cons by discriminate.
    rewrite (split_written f c) by (auto; reflexivity).
    rewrite append_nil_l, splitCsvFrom_step. cbn [andb negb].
    change (Ascii.eqb "," quoteMark) with false. cbn match.
    change (Ascii.eqb "," ",") with true. cbn match.
    rewrite IH; [now rewrite <- app_assoc|].
    inversion Hrest; subst. discriminate.
Qed.

(** [splitCsvLine] reads back what CSV quoting writes: for any fields, each
    written between quote marks with its quote marks doubled, or as it is
    when it has no comma and no quote mark, and the cells joined with
    commas, the result is the fields. *)
Theorem splitCsvLine_round_trip (fields cells : list string) :
  Forall2 writes fields cells -> fields <> [] ->
  splitCsvLine (joinComma cells) = fields.
Proof.
  intros H Hne. unfold splitCsvLine. now rewrite (split_joined fields cells).
Qed.

End CsvTheorems.

Section NocMapFacts.

Lemma nocRow_lookup (codeIdx nameIdx : nat) (m : gmap string string)
    (line code : string) :
  nocRow codeIdx nameIdx m line !! code
  = if Js.nonEmpty (cell (splitCsvLine line) codeIdx)
       && Js.nonEmpty (cell (splitCsvLine line) nameIdx)
       && String.eqb (cell (splitCsvLine line) codeIdx) code
    then Some (cell (splitCsvLine line) nameIdx)
    else m !! code.
Proof.
  unfold nocRow.
  destruct (Js.nonEmpty (cell (splitCsvLine line) codeIdx)
            && Js.nonEmpty (cell (splitCsvLine line) nameIdx)); cbn [andb];
    [|reflexivity].
  destruct (String.eqb_spec (cell (splitCsvLine line) codeIdx) code) as [<-|Hne].
  - apply lookup_insert_eq.
  - now apply lookup_insert_ne.
Qed.

Lemma nocRows_sound (codeIdx nameIdx : nat) (rows : list string)
    (m : gmap string string) (code name : string) :
  fold_left (nocRow codeIdx nameIdx) rows m !! code = Some name ->
  m !! code = Some name
  \/ exists line,
       In line rows
       /\ cell (splitCsvLine line) codeIdx = code
       /\ cell (splitCsvLine line) nameIdx = name
       /\ code <> EmptyString /\ name <> EmptyString.
Proof.
  revert m. induction rows as [|line rows IH]; intros m H; cbn [fold_left] in H.
  - now left.
  - apply IH in H. destruct H as [H|(l & Hl & Hrest)];
      [|right; exists l; split; [now right|exact Hrest]].
    rewrite nocRow_lookup in H.
    destruct (Js.nonEmpty (cell (splitCsvLine line) codeIdx)) eqn:Hc;
      cbn [andb] in H; [|now left].
    destruct (Js.nonEmpty (cell (splitCsvLine line) nameIdx)) eqn:Hn;
      cbn [andb] in H; [|now left].
    destruct (String.eqb_spec (cell (splitCsvLine line) codeIdx) code) as [Heq|Hne];
      [|now left].
    inversion H; subst. right. exists line.
    split; [now left|]. repeat split; intros E; rewrite E in *; discriminate.
Qed.

Lemma nocRows_last (codeIdx nameIdx : nat) (rows : list string)
    (m : gmap string string) (code : string) :
  (forall line, In line rows ->
     cell (splitCsvLine line) codeIdx <> code
     \/ cell (splitCsvLine line) nameIdx = EmptyString) ->
  fold_left (nocRow codeIdx nameIdx) rows m !! code = m !! code.
Proof.
  revert m. induction rows as [|line rows IH]; intros m H; cbn [fold_left].
  - reflexivity.
  - rewrite IH by (intros l Hl; apply H; now right).
    rewrite nocRow_lookup.
    destruct (H line (or_introl eq_refl)) as [Hne|Hn].
    + apply String.eqb_neq in Hne. rewrite Hne. now rewrite andb_false_r.
    + rewrite Hn. cbn [Js.nonEmpty]. now rewrite andb_false_r.
Qed.

(** The table [buildNocMap] builds: nothing when the file cannot be read,
    has no non-blank line, or has a header without a code or a name column;
    otherwise every entry comes from a data line, with the trimmed cells of
    the two columns, both non-empty - so the empty code has no entry - and
    among the lines that give a code a name, the last one wins. *)
Theorem buildNocMap_entries :
  buildNocMap None = ∅
  /\ (forall csv, csvLines csv = [] -> buildNocMap (Some csv) = ∅)
  /\ (forall csv headerLine rows,
        csvLines csv = headerLine :: rows -> nocColumns headerLine = None ->
        buildNocMap (Some csv) = ∅)
  /\ (forall file, buildNocMap file !! EmptyString = None)
  /\ (forall file code name,
        buildNocMap file !! code = Some name ->
        code <> EmptyString /\ name <> EmptyString
        /\ exists csv headerLine rows codeIdx nameIdx line,
             file = Some csv
             /\ csvLines csv = headerLine :: rows
             /\ nocColumns headerLine = Some (codeIdx, nameIdx)
             /\ In line rows
             /\ cell (splitCsvLine line) codeIdx = code
             /\ cell (splitCsvLine line) nameIdx = name)
  /\ (forall csv headerLine before line after codeIdx nameIdx,
        csvLines csv = headerLine :: before ++ line :: after ->
        nocColumns headerLine = Some (codeIdx, nameIdx) ->
        cell (splitCsvLine line) codeIdx <> EmptyString ->
        cell (splitCsvLine line) nameIdx <> EmptyString ->
        (forall later, In later after ->
           cell (splitCsvLine later) codeIdx <> cell (splitCsvLine line) codeIdx
           \/ cell (splitCsvLine later) nameIdx = EmptyString) ->
        buildNocMap (Some csv) !! cell (splitCsvLine line) codeIdx
        = Some (cell (splitCsvLine line) nameIdx)).
Proof.
  assert (Hsound : forall file code name,
            buildNocMap file !! code = Some name ->
            code <> EmptyString /\ name <> EmptyString
            /\ exists csv headerLine rows codeIdx nameIdx line,
                 file = Some csv
                 /\ csvLines csv = headerLine :: rows
                 /\ nocColumns headerLine = Some (codeIdx, nameIdx)
                 /\ In line rows
                 /\ cell (splitCsvLine line) codeIdx = code
                 /\ cell (splitCsvLine line) nameIdx = name).
  { intros file code name H. unfold buildNocMap in H.
    destruct file as [csv|]; [|discriminate].
    destruct (csvLines csv) as [|headerLine rows] eqn:Hlines; [discriminate|].
    destruct (nocColumns headerLine) as [[codeIdx nameIdx]|] eqn:Hcols;
      [|discriminate].
    apply nocRows_sound in H. destruct H as [H|(line & Hin & Hc & Hn & Hce & Hne)];
      [discriminate|].
    split; [assumption|]. split; [assumption|].
    exists csv, headerLine, rows, codeIdx, nameIdx, line. auto 10. }
  split; [reflexivity|]. split; [|split; [|split; [|split; [exact Hsound|]]]].
  - intros csv H. unfold buildNocMap. now rewrite H.
  - intros csv headerLine rows Hl Hc. unfold buildNocMap. now rewrite Hl, Hc.
  - intros file. destruct (buildNocMap file !! EmptyString) as [name|] eqn:E;
      [|reflexivity].
    apply Hsound in E. destruct E as [E _]. congruence.
  - intros csv headerLine before line after codeIdx nameIdx Hl Hc Hcode Hname Hafter.
    unfold buildNocMap. rewrite Hl, Hc, fold_left_app. cbn [fold_left].
    rewrite nocRows_last by assumption.
    rewrite nocRow_lookup, String.eqb_refl.
    destruct (cell (splitCsvLine line) codeIdx); [congruence|].
    destruct (cell (splitCsvLine line) nameIdx); [congruence|]. reflexivity.
Qed.

Lemma afterLiteral_mono (k1 k2 : string -> bool) (pat s : string) :
  (forall r, k1 r = true -> k2 r = true) ->
  literalThen pat k1 s = true -> literalThen pat k2 s = true.
Proof. unfold literalThen. intros H. destruct (afterLiteral pat s); auto. Qed.

Lemma dotStarThen_mono (k1 k2 : string -> bool) (s : string) :
  (forall r, k1 r = true -> k2 r = true) ->
  dotStarThen k1 s = true -> dotStarThen k2 s = true.
Proof.
  intros H. induction s as [|c s IH]; cbn [dotStarThen];
    rewrite !orb_true_iff, ?andb_true_iff.
  - intros [Hk|Hs]; [left; auto|discriminate].
  - intros [Hk|[Hc Hs]]; [left; auto|right; auto].
Qed.

Lemma anywhere_mono (k1 k2 : string -> bool) (s : string) :
  (forall r, k1 r = true -> k2 r = true) ->
  anywhere k1 s = true -> anywhere k2 s = true.
Proof.
  intros H. induction s as [|c s IH]; cbn [anywhere]; rewrite !orb_true_iff.
  - intros [Hk|Hs]; [left; auto|discriminate].
  - intros [Hk|Hs]; [left; auto|right; auto].
Qed.

Lemma dotStarThen_twice (k : string -> bool) (s : string) :
  dotStarThen (dotStarThen k) s = true -> dotStarThen k s = true.
Proof.
  induction s as [|c s IH]; cbn [dotStarThen];
    rewrite !orb_true_iff, ?andb_true_iff.
  - intros [[H|H]|H]; [left; exact H|discriminate|discriminate].
  - intros [[H|[Hc H]]|[Hc H]]; [left; exact H|right; auto|right; auto].
Qed.

(** A string that starts with a byte other than LF, CR and the first byte
    of U+2028 and U+2029 does not start with a line terminator. *)
Lemma startsLineTerminator_plain (c : ascii) (s : string) :
  Nat.eqb (nat_of_ascii c) 10 = false ->
  Nat.eqb (nat_of_ascii c) 13 = false ->
  Nat.eqb (nat_of_ascii c) 226 = false ->
  startsLineTerminator (String c s) = false.
Proof.
  intros H10 H13 H226. cbn [startsLineTerminator]. rewrite H10, H13, H226.
  destruct s as [|b [|d r]]; reflexivity.
Qed.

Lemma dotStarThen_skip (k : string -> bool) (c : ascii) (s : string) :
  startsLineTerminator (String c s) = false ->
  dotStarThen k s = true -> dotStarThen k (String c s) = true.
Proof.
  intros Hc H. cbn [dotStarThen]. rewrite Hc, H. apply orb_true_r.
Qed.

Lemma public_then_subsumed (k : string -> bool) (s : string) :
  literalThen "public" (dotStarThen k) s = true -> dotStarThen k s = true.
Proof.
  unfold literalThen.
  destruct s as [|c1 [|c2 [|c3 [|c4 [|c5 [|c6 r]]]]]]; cbn [afterLiteral];
    repeat match goal with
           | |- context [Ascii.eqb ?a ?b] =>
               destruct (Ascii.eqb_spec a b); [subst|discriminate]
           end; try discriminate.
  intros H.
  repeat (apply dotStarThen_skip;
          [apply startsLineTerminator_plain; reflexivity|]).
  exact H.
Qed.

(** The name column is found by [/operator.*name/i] alone: every header
    that matches [/operator.*public.*name/i] matches it too, so the first
    test of the disjunction never decides. *)
Theorem name_pattern_subsumed (h : string) :
  (matchesOperatorPublicName h = true -> matchesOperatorName h = true)
  /\ (matchesOperatorPublicName h || matchesOperatorName h) = matchesOperatorName h.
Proof.
  assert (H : matchesOperatorPublicName h = true -> matchesOperatorName h = true).
  { unfold matchesOperatorPublicName, matchesOperatorName.
    apply anywhere_mono. intros r. apply afterLiteral_mono. intros r' Hr'.
    apply dotStarThen_twice. revert Hr'. apply dotStarThen_mono.
    apply public_then_subsumed. }
  split; [exact H|].
  destruct (matchesOperatorPublicName h); [|reflexivity].
  cbn [orb]. symmetry. now apply H.
Qed.

End NocMapFacts.

Lemma splitCsvLine_unquoted_witness :
  joinComma (splitCsvLine "ABCD,Acme Buses,,x") = "ABCD,Acme Buses,,x"%string
  /\ length (splitCsvLine "ABCD,Acme Buses,,x") = 4%nat.
Proof.
  destruct splitCsvLine_unquoted as [_ H].
  apply (H "ABCD,Acme Buses,,x"%string). reflexivity.
Defined.

Lemma splitCsvLine_round_trip_witness :
  splitCsvLine (joinComma [csvQuote "Acme, Ltd"; "ABCD"; csvQuote (String quoteMark "A1")])
  = ["Acme, Ltd"; "ABCD"; String quoteMark "A1"]%string.
Proof.
  apply splitCsvLine_round_trip; [|discriminate].
  constructor; [left; reflexivity|].
  constructor; [right; split; reflexivity|].
  constructor; [left; reflexivity|].
  constructor.
Defined.

(** A table saved with a byte order mark: the header is found all the
    same, and the last line that gives the code a name wins. *)
Lemma buildNocMap_entries_witness :
  buildNocMap (Some (byteOrderMark ++ "NOCCODE,OperatorPublicName"
                     ++ String (ascii_of_nat 10) "ABCD,Acme Buses"
                     ++ String (ascii_of_nat 10) "ABCD,")%string)
    !! "ABCD"%string
  = Some "Acme Buses"%string.
Proof.
  destruct buildNocMap_entries as (_ & _ & _ & _ & _ & H).
  apply (H _ (byteOrderMark ++ "NOCCODE,OperatorPublicName")%string []
           "ABCD,Acme Buses"%string ["ABCD,"%string] 0%nat 1%nat).
  - reflexivity.
  - reflexivity.
  - discriminate.
  - discriminate.
  - intros later [<-|[]]; right; reflexivity.
Defined.

Lemma name_pattern_subsumed_witness :
  matchesOperatorName "Operator Public Name" = true.
Proof.
  apply (proj1 (name_pattern_subsumed "Operator Public Name")). reflexivity.
Defined.


(** ** Operator resolution, validity and archives *)

Section ResolverFacts.

Lemma prefixOverride_In (code : string) (ov : Overrides) (v : string) :
  prefixOverride code ov = Some v -> exists k, In (k, v) ov.
Proof.
  induction ov as [|[k w] ov IH]; cbn; [discriminate|].
  destruct (Js.nonEmpty k && Js.startsWith code k).
  - intros H; inversion H; subst. exists k. now left.
  - intros H. destruct (IH H) as [k' Hk']. exists k'. now right.
Qed.

(** [resolveOperator] never invents a name: its result is the value of an
    override, a value of the table, the trimmed name or the trimmed code.
    When no override and no table entry has an empty value, the result is
    empty only if both the trimmed code and the trimmed name are. With no
    override and no table it is the trimmed name, or the trimmed code when
    the name is empty. *)
Theorem resolveOperator_range (rawCode txcName : string)
    (nocMap : gmap string string) (ov : Overrides) :
  let r := resolveOperator rawCode txcName nocMap ov in
  ((exists k, In (k, r) ov) \/ (exists k, nocMap !! k = Some r)
   \/ r = Js.trim txcName \/ r = Js.trim rawCode)
  /\ ((forall k v, In (k, v) ov -> v <> EmptyString) ->
      (forall k v, nocMap !! k = Some v -> v <> EmptyString) ->
      r = EmptyString ->
      Js.trim rawCode = EmptyString /\ Js.trim txcName = EmptyString)
  /\ resolveOperator rawCode txcName ∅ []
     = (if Js.nonEmpty (Js.trim txcName) then Js.trim txcName else Js.trim rawCode).
Proof.
  cbn zeta. split; [|split].
  - unfold resolveOperator, ownProperty.
    destruct (Js.nonEmpty (Js.trim rawCode)) eqn:Hc.
    + destruct (JsMap.get ov (Js.trim rawCode)) as [v|] eqn:H1;
        [left; eexists; eapply get_In; eassumption|].
      destruct (prefixOverride (Js.trim rawCode) ov) as [v|] eqn:H2;
        [left; eapply prefixOverride_In; eassumption|].
      destruct (nocMap !! Js.trim rawCode) as [v|] eqn:H3; [right; left; eauto|].
      destruct (Js.nonEmpty (Js.trim txcName)); [|auto].
      destruct (JsMap.get ov (Js.trim txcName)) as [v|] eqn:H4;
        [left; eexists; eapply get_In; eassumption|auto].
    + destruct (Js.nonEmpty (Js.trim txcName)); [|auto].
      destruct (JsMap.get ov (Js.trim txcName)) as [v|] eqn:H4;
        [left; eexists; eapply get_In; eassumption|auto].
  - intros Hov Hnoc. unfold resolveOperator, ownProperty.
    destruct (Js.trim rawCode) as [|c code] eqn:Hc; cbn [Js.nonEmpty].
    + destruct (Js.trim txcName) as [|n name] eqn:Hn; cbn [Js.nonEmpty]; [auto|].
      destruct (JsMap.get ov (String n name)) as [v|] eqn:H4; [|discriminate].
      intros ->. apply get_In in H4. now apply Hov in H4.
    + destruct (JsMap.get ov (String c code)) as [v|] eqn:H1.
      { intros ->. apply get_In in H1. now apply Hov in H1. }
      destruct (prefixOverride (String c code) ov) as [v|] eqn:H2.
      { intros ->. apply prefixOverride_In in H2. destruct H2 as [k H2].
        now apply Hov in H2. }
      destruct (nocMap !! String c code) as [v|] eqn:H3.
      { intros ->. now apply Hnoc in H3. }
      destruct (Js.trim txcName) as [|n name] eqn:Hn; cbn [Js.nonEmpty];
        [discriminate|].
      destruct (JsMap.get ov (String n name)) as [v|] eqn:H4; [|discriminate].
      intros ->. apply get_In in H4. now apply Hov in H4.
  - unfold resolveOperator, ownProperty. cbn [JsMap.get prefixOverride].
    rewrite lookup_empty.
    destruct (Js.nonEmpty (Js.trim rawCode)), (Js.nonEmpty (Js.trim txcName));
      reflexivity.
Qed.

End ResolverFacts.

Section ValidityShape.
Context {rt : JsRuntime}.

(** The validity filter as a function of the reference date. With
    [Invalid Date] every service is active. With a valid instant [D] a
    service is active exactly when [D] lies within its bounds, inclusively:
    the start is the first date that parses among the start of the service's
    operating period, of the document's valid-between and of the document's
    operating period, the end the first such end, each side on its own, and
    a side with no date is no bound. So over the valid instants the active
    ones form an interval. *)
Theorem filter_by_reference_date (service : Service) (txcRoot : TransXChange) :
  let op := default noPeriod (s_OperatingPeriod service) in
  let vb := default noValidBetween (x_ValidBetween txcRoot) in
  let rop := default noPeriod (x_OperatingPeriod txcRoot) in
  let start :=
    firstPresent [ parseISO (op_StartDate op ||| op_Start op);
                   parseISO (vb_FromDate vb ||| vb_StartDate vb ||| vb_Start vb);
                   parseISO (op_StartDate rop ||| op_Start rop) ] in
  let end_ :=
    firstPresent [ parseISO (op_EndDate op ||| op_End op);
                   parseISO (vb_ToDate vb ||| vb_EndDate vb ||| vb_End vb);
                   parseISO (op_EndDate rop ||| op_End rop) ] in
  serviceIsActiveToday None service txcRoot = true
  /\ (forall D,
        serviceIsActiveToday (Some D) service txcRoot = true <->
        (forall a, start = Some a -> a <= D) /\ (forall b, end_ = Some b -> D <= b))
  /\ (forall D1 D D2,
        serviceIsActiveToday (Some D1) service txcRoot = true ->
        serviceIsActiveToday (Some D2) service txcRoot = true ->
        D1 <= D <= D2 ->
        serviceIsActiveToday (Some D) service txcRoot = true)
  /\ (forall v, parseISO v = None <->
                Js.truthy v = false \/ Date_parse (Js.toString v) = None).
Proof.
  cbn zeta.
  assert (Hiff : forall D,
            serviceIsActiveToday (Some D) service txcRoot = true <->
            (forall a, validityStart service txcRoot = Some a -> a <= D)
            /\ (forall b, validityEnd service txcRoot = Some b -> D <= b)).
  { intros D. now rewrite serviceIsActiveToday_inRange, inRange_true_iff. }
  split; [|split; [|split]].
  - rewrite serviceIsActiveToday_inRange. apply inRange_invalid.
  - intros D. rewrite Hiff, validityStart_sources, validityEnd_sources.
    reflexivity.
  - intros D1 D D2 H1 H2 HD. apply Hiff in H1, H2. apply Hiff.
    destruct H1 as [Ha1 _], H2 as [_ Hb2]. split.
    + intros a Ha. specialize (Ha1 a Ha). lia.
    + intros b Hb. specialize (Hb2 b Hb). lia.
  - intros v. unfold parseISO. destruct (Js.truthy v); split; auto.
    + intros [H|H]; [discriminate|exact H].
Qed.

(** The earlier revision of the filter and of the version key decides as
    the current one does with a valid reference date: its [inRange] and
    [isNewerVersion] are the same functions, and its [serviceIsActiveToday]
    and [pickBestServiceVersion] give the same result on every service that
    has none of the fields only the earlier revision reads. The revisions
    differ in the reference date: the earlier takes the instant the run
    starts, the current what [new Date] reads from the text of that instant;
    a run of the current revision decides as the earlier when the text
    reads back as the instant, and keeps every service when the text does
    not parse. *)
Theorem earlier_revision_agrees :
  (forall today start end_,
     inRangeLegacy today start end_ = inRange (Some today) start end_)
  /\ (forall a b, isNewerVersion a b = newer a b)
  /\ (forall TODAY service more txcRoot,
        Js.truthy (s_OperatingPeriodStartDate more) = false ->
        Js.truthy (s_OperatingPeriodEndDate more) = false ->
        serviceIsActiveTodayLegacy TODAY service more txcRoot
        = serviceIsActiveToday (Some TODAY) service txcRoot)
  /\ (forall service more txcRoot,
        s_Revision more = Js.undefined ->
        pickBestServiceVersion service more txcRoot = pickBest service txcRoot)
  /\ (forall now service more txcRoot,
        Js.truthy (s_OperatingPeriodStartDate more) = false ->
        Js.truthy (s_OperatingPeriodEndDate more) = false ->
        Clock.TODAY now = Some now ->
        serviceIsActiveToday (Clock.TODAY now) service txcRoot
        = serviceIsActiveTodayLegacy now service more txcRoot)
  /\ (forall now service txcRoot,
        Clock.TODAY now = None ->
        serviceIsActiveToday (Clock.TODAY now) service txcRoot = true).
Proof.
  assert (Hrange : forall today start end_,
            inRangeLegacy today start end_ = inRange (Some today) start end_).
  { intros today [s|] [e|]; unfold inRangeLegacy, inRange, dateLt, dateGt;
      repeat match goal with
             | |- context [?x <? ?y] => destruct (x <? y)
             | |- context [?x >? ?y] => destruct (x >? y)
             end; reflexivity. }
  assert (Hsame : forall TODAY service more txcRoot,
            Js.truthy (s_OperatingPeriodStartDate more) = false ->
            Js.truthy (s_OperatingPeriodEndDate more) = false ->
            serviceIsActiveTodayLegacy TODAY service more txcRoot
            = serviceIsActiveToday (Some TODAY) service txcRoot).
  { intros TODAY service more txcRoot Hs He.
    assert (Hor : forall a b c, Js.truthy c = false ->
                    parseISO (a ||| b ||| c) = parseISO (a ||| b)).
    { intros a b c Hc. unfold parseISO, Js.or.
      destruct (Js.truthy a) eqn:Ea; rewrite ?Ea; [reflexivity|].
      destruct (Js.truthy b) eqn:Eb; rewrite ?Eb, ?Hc; reflexivity. }
    unfold serviceIsActiveTodayLegacy, serviceIsActiveToday, validityStart,
      validityEnd.
    rewrite (Hor _ _ _ Hs), (Hor _ _ _ He). cbn [Js.orObj].
    repeat match goal with
           | |- context [parseISO ?x] =>
               let E := fresh in destruct (parseISO x) eqn:E
           end; cbn [Js.orObj]; rewrite ?Hrange; reflexivity. }
  split; [exact Hrange|]. split; [reflexivity|]. split; [exact Hsame|].
  split; [|split].
  - intros service more txcRoot Hr. unfold pickBestServiceVersion, pickBest.
    rewrite Hr. f_equal.
    destruct (s_RevisionNumber service), (x_RevisionNumber txcRoot);
      cbn [Js.coalesce]; try reflexivity;
      match goal with |- context [toNumber ?v] => destruct (toNumber v) end;
      reflexivity.
  - intros now service more txcRoot Hs He Hnow. rewrite Hnow. symmetry.
    now apply Hsame.
  - intros now service txcRoot Hnow. rewrite Hnow.
    rewrite serviceIsActiveToday_inRange. apply inRange_invalid.
Qed.

Variables (TODAY : option Z) (nocMap : gmap string string) (opOverrides : Overrides).

Lemma substring_suffix (stem ext : string) :
  substring (String.length stem) (String.length ext) (stem ++ ext)%string = ext.
Proof.
  induction stem as [|c stem IH]; cbn [String.length].
  - rewrite append_nil_l. induction ext as [|c ext IH]; cbn; [reflexivity|].
    now rewrite IH.
  - rewrite append_cons. cbn [substring]. exact IH.
Qed.

Lemma length_append (a b : string) :
  String.length (a ++ b)%string = (String.length a + String.length b)%nat.
Proof.
  induction a as [|c a IH]; [reflexivity|].
  rewrite append_cons. cbn [String.length]. now rewrite IH.
Qed.

Lemma lower_length (s : string) : String.length (lower s) = String.length s.
Proof. induction s as [|c s IH]; cbn; [reflexivity|now rewrite IH]. Qed.

(** A string is what precedes its last [n] characters, and those. *)
Lemma substring_tail (s : string) (n : nat) :
  (n <= String.length s)%nat ->
  exists stem,
    s = (stem ++ substring (String.length s - n) n s)%string
    /\ String.length (substring (String.length s - n) n s) = n.
Proof.
  induction s as [|c s IH]; cbn [String.length]; intros Hn.
  - assert (n = 0%nat) by lia. subst n. now exists EmptyString.
  - destruct (Nat.eq_dec n (S (String.length s))) as [->|Hne].
    + exists EmptyString. rewrite Nat.sub_diag, append_nil_l.
      pose proof (substring_suffix EmptyString (String c s)) as H.
      cbn [String.length] in H. rewrite append_nil_l in H.
      rewrite H. now split.
    + destruct (IH ltac:(lia)) as (stem & Hs & Hl).
      exists (String c stem).
      replace (S (String.length s) - n)%nat with (S (String.length s - n)) by lia.
      cbn [substring]. rewrite append_cons. now rewrite <- Hs.
Qed.

(** The characters that the flag [i] makes equal to a lower-case letter or
    to the full stop. *)
Lemma lowerAscii_cases (c : ascii) :
  (lowerAscii c = "."%char -> c = "."%char)
  /\ (lowerAscii c = "x"%char -> c = "x"%char \/ c = "X"%char)
  /\ (lowerAscii c = "m"%char -> c = "m"%char \/ c = "M"%char)
  /\ (lowerAscii c = "l"%char -> c = "l"%char \/ c = "L"%char).
Proof.
  destruct c as [[] [] [] [] [] [] [] []]; vm_compute;
    repeat split; intros H; try discriminate; auto.
Qed.

(** Exactly the entries whose name ends in [.xml], in any letter case, are
    read: a name is accepted if and only if it ends with a full stop
    followed by [x] or [X], [m] or [M], and [l] or [L]; the other entries
    of an archive, and those that do not parse, never change the run. *)
Theorem parseZip_reads_xml_entries_only :
  (forall name,
     isXmlEntry name = true <->
     exists stem x m l,
       name = (stem ++ String "." (String x (String m (String l EmptyString))))%string
       /\ (x = "x"%char \/ x = "X"%char)
       /\ (m = "m"%char \/ m = "M"%char)
       /\ (l = "l"%char \/ l = "L"%char))
  /\ isXmlEntry "readme.txt" = false
  /\ isXmlEntry "xml" = false
  /\ (forall entries st,
        parseZip TODAY nocMap opOverrides entries st
        = parseZip TODAY nocMap opOverrides
            (List.filter (fun e => isXmlEntry (fileName e)) entries) st)
  /\ (forall entries st,
        Forall (fun e => isXmlEntry (fileName e) = false \/ document e = None)
               entries ->
        parseZip TODAY nocMap opOverrides entries st = st).
Proof.
  split; [|split; [reflexivity|split; [reflexivity|split]]].
  - intros name. unfold isXmlEntry. rewrite String.eqb_eq. split.
    + intros Heq.
      assert (H4 : String.length (substring (String.length name - 4) 4 name) = 4%nat)
        by (rewrite <- lower_length, Heq; reflexivity).
      assert (Hlen : (4 <= String.length name)%nat).
      { destruct (le_lt_dec 4 (String.length name)) as [H|H]; [exact H|].
        replace (String.length name - 4)%nat with 0%nat in H4 by lia.
        destruct name as [|a [|b [|c [|d name]]]]; cbn in *; try discriminate; lia. }
      destruct (substring_tail name 4 Hlen) as (stem & Hname & _).
      destruct (substring (String.length name - 4) 4 name)
        as [|c0 [|c1 [|c2 [|c3 [|c4 r]]]]]; try discriminate.
      cbn [lower] in Heq. injection Heq as H0 H1 H2 H3.
      destruct (lowerAscii_cases c0) as (Hc0 & _).
      destruct (lowerAscii_cases c1) as (_ & Hc1 & _).
      destruct (lowerAscii_cases c2) as (_ & _ & Hc2 & _).
      destruct (lowerAscii_cases c3) as (_ & _ & _ & Hc3).
      rewrite (Hc0 H0) in Hname.
      exists stem, c1, c2, c3. auto.
    + intros (stem & x & m & l & -> & Hx & Hm & Hl).
      rewrite length_append. cbn [String.length].
      replace (String.length stem + 4 - 4)%nat with (String.length stem) by lia.
      change 4%nat with (String.length (String "." (String x (String m (String l EmptyString))))) at 1.
      rewrite substring_suffix.
      destruct Hx as [-> | ->], Hm as [-> | ->], Hl as [-> | ->]; reflexivity.
  - intros entries. unfold parseZip.
    induction entries as [|e entries IH]; intros st; cbn [fold_left List.filter].
    + reflexivity.
    + destruct (isXmlEntry (fileName e)) eqn:E; cbn [fold_left]; rewrite ?E;
        apply IH.
  - intros entries st H. unfold parseZip. revert st.
    induction H as [|e entries He _ IH]; intros st; cbn [fold_left]; [reflexivity|].
    assert (Hstep : (if isXmlEntry (fileName e)
                     then parseTXC TODAY nocMap opOverrides (document e) st
                     else st) = st).
    { destruct He as [He|He]; rewrite He; [reflexivity|].
      destruct (isXmlEntry (fileName e)); reflexivity. }
    rewrite Hstep. apply IH.
Qed.

End ValidityShape.

Section ResolverExamples.
Local Existing Instance Ref.runtime.

Lemma resolveOperator_range_witness :
  Js.trim "  " = EmptyString /\ Js.trim EmptyString = EmptyString.
Proof.
  apply (resolveOperator_range "  " EmptyString Example.nocTable Example.overrides).
  - intros k v [H|[]]. inversion H. discriminate.
  - intros k v H. unfold Example.nocTable in H.
    apply lookup_singleton_Some in H. destruct H as [_ <-]. discriminate.
  - vm_compute. reflexivity.
Defined.

(** The service that starts on 2024-01-01 in the document valid until
    2024-06-30 is active on 2024-03-01. *)
Lemma filter_by_reference_date_witness :
  serviceIsActiveToday (Some Example.mar2024) Example.openEnded Example.validToJune
  = true.
Proof.
  destruct (filter_by_reference_date Example.openEnded Example.validToJune)
    as (_ & H & _).
  apply H. split; intros x Hx; vm_compute in Hx; inversion Hx; subst;
    unfold Example.mar2024; lia.
Defined.

(** On 2024-01-01 at midnight the text of the instant reads back as the
    instant, and the two revisions agree on the service that ended in 2020;
    on 2024-03-13 the earlier revision rejects it and the current one keeps
    it. *)
Lemma earlier_revision_agrees_witness :
  serviceIsActiveToday (Clock.TODAY Example.jan2024) Example.ended2020
                       Example.endedDoc
  = serviceIsActiveTodayLegacy Example.jan2024 Example.ended2020
      {| s_OperatingPeriodStartDate := Js.undefined;
         s_OperatingPeriodEndDate := Js.undefined; s_Revision := Js.undefined |}
      Example.endedDoc
  /\ serviceIsActiveTodayLegacy Example.mar13 Example.ended2020
       {| s_OperatingPeriodStartDate := Js.undefined;
          s_OperatingPeriodEndDate := Js.undefined; s_Revision := Js.undefined |}
       Example.endedDoc = false
  /\ serviceIsActiveToday (Clock.TODAY Example.mar13) Example.ended2020
                          Example.endedDoc = true.
Proof.
  destruct earlier_revision_agrees as (_ & _ & _ & _ & Hvalid & Hinvalid).
  split; [|split].
  - apply Hvalid; reflexivity.
  - reflexivity.
  - apply Hinvalid. reflexivity.
Defined.

Lemma parseZip_reads_xml_entries_only_witness :
  isXmlEntry "timetables/route12.XML" = true.
Proof.
  destruct (parseZip_reads_xml_entries_only (Some Example.mar2024) ∅ []) as [H _].
  apply H. exists "timetables/route12"%string, "X"%char, "M"%char, "L"%char.
  repeat split; auto.
Defined.

End ResolverExamples.

(** ** Trimmed fields *)

Section TrimFacts.

(** Induction on strings three characters at a time. *)
Lemma string_ind3 (P : string -> Prop) :
  P EmptyString ->
  (forall a, P (String a EmptyString)) ->
  (forall a b, P (String a (String b EmptyString))) ->
  (forall a b c s, P s -> P (String c s) -> P (String b (String c s)) ->
                   P (String a (String b (String c s)))) ->
  forall s, P s.
Proof.
  intros H0 H1 H2 H3 s.
  assert (H : P s /\ (forall c, P (String c s))
              /\ (forall b c, P (String b (String c s)))); [|exact (proj1 H)].
  induction s as [|x s (IHs & IHc & IHbc)]; [auto|].
  split; [apply IHc|]. split; [intros c; apply IHbc|].
  intros b c. apply H3; [apply IHs|apply IHc|apply IHbc].
Qed.

Lemma trimStart_step (a : ascii) (r : string) :
  Js.trimStart (String a r)
  = if Js.white1 a then Js.trimStart r
    else match r with
         | EmptyString => String a r
         | String b r2 =>
             if Js.white2 a b then Js.trimStart r2
             else match r2 with
                  | EmptyString => String a r
                  | String c r3 =>
                      if Js.white3 a b c then Js.trimStart r3 else String a r
                  end
         end.
Proof. reflexivity. Qed.

Lemma whiteOnly_step (a : ascii) (r : string) :
  Js.whiteOnly (String a r)
  = (Js.white1 a && Js.whiteOnly r)
    || match r with
       | EmptyString => false
       | String b r2 =>
           (Js.white2 a b && Js.whiteOnly r2)
           || match r2 with
              | EmptyString => false
              | String c r3 => Js.white3 a b c && Js.whiteOnly r3
              end
       end.
Proof. reflexivity. Qed.

(** What [trimStart] returns does not begin with white space. *)
Lemma startsWhite_trimStart (s : string) : startsWhite (Js.trimStart s) = false.
Proof.
  induction s as [|a|a b|a b c s IH1 IH2 IH3] using string_ind3.
  - reflexivity.
  - rewrite trimStart_step. destruct (Js.white1 a) eqn:E1; [reflexivity|].
    cbn [startsWhite]. now rewrite E1.
  - rewrite trimStart_step. destruct (Js.white1 a) eqn:E1.
    + rewrite trimStart_step. destruct (Js.white1 b) eqn:E2; [reflexivity|].
      cbn [startsWhite]. now rewrite E2.
    + destruct (Js.white2 a b) eqn:E2; [reflexivity|].
      cbn [startsWhite]. now rewrite E1, E2.
  - rewrite trimStart_step. destruct (Js.white1 a) eqn:E1; [exact IH3|].
    destruct (Js.white2 a b) eqn:E2; [exact IH2|].
    destruct (Js.white3 a b c) eqn:E3; [exact IH1|].
    cbn [startsWhite]. now rewrite E1, E2, E3.
Qed.

Lemma trimStart_fixed (s : string) : startsWhite s = false -> Js.trimStart s = s.
Proof.
  destruct s as [|a [|b [|c s]]]; cbn [startsWhite]; rewrite ?trimStart_step;
    intros H; try reflexivity;
    (destruct (Js.white1 a); [discriminate|]);
    try (destruct (Js.white2 a b); [discriminate|]);
    try (destruct (Js.white3 a b c); [discriminate|]);
    reflexivity.
Qed.

(** A string that begins with white space still does with more behind it. *)
Lemma startsWhite_append (p w : string) :
  startsWhite p = true -> startsWhite (p ++ w) = true.
Proof.
  destruct p as [|a [|b [|c p]]]; cbn [startsWhite]; rewrite ?append_cons,
    ?append_nil_l; cbn [startsWhite]; intros H; try discriminate.
  - rewrite orb_false_r in H. now rewrite H.
  - rewrite orb_false_r in H. apply orb_true_iff in H.
    destruct H as [-> | ->]; [reflexivity|].
    destruct w; now rewrite ?orb_true_r.
  - exact H.
Qed.

Lemma whiteOnly_append (p w : string) :
  Js.whiteOnly p = true -> Js.whiteOnly w = true -> Js.whiteOnly (p ++ w) = true.
Proof.
  intros Hp Hw. revert Hp.
  induction p as [|a|a b|a b c p IH1 IH2 IH3] using string_ind3;
    rewrite ?append_cons, ?append_nil_l in *.
  - intros _. exact Hw.
  - rewrite !whiteOnly_step. cbn [Js.whiteOnly]. rewrite orb_false_r, andb_true_r.
    intros ->. now rewrite Hw.
  - rewrite (whiteOnly_step a), (whiteOnly_step b), (whiteOnly_step a (String b w)),
      (whiteOnly_step b w).
    cbn [Js.whiteOnly]. rewrite !orb_false_r, !andb_true_r.
    intros H. apply orb_true_iff in H. destruct H as [H|H].
    + apply andb_true_iff in H. destruct H as [-> ->]. now rewrite Hw.
    + rewrite H, Hw. cbn. apply orb_true_r.
  - rewrite (whiteOnly_step a), (whiteOnly_step a (String b (String c (p ++ w)))).
    intros H. apply orb_true_iff in H. destruct H as [H|H].
    + apply andb_true_iff in H. destruct H as [-> H]. now rewrite (IH3 H).
    + apply orb_true_iff in H. destruct H as [H|H].
      * apply andb_true_iff in H. destruct H as [-> H]. rewrite (IH2 H).
        cbn. apply orb_true_r.
      * apply andb_true_iff in H. destruct H as [-> H]. rewrite (IH1 H).
        cbn. now rewrite !orb_true_r.
Qed.

(** [trimEnd] drops a suffix of white space. *)
Lemma trimEnd_split (s : string) :
  exists w, s = (Js.trimEnd s ++ w)%string /\ Js.whiteOnly w = true.
Proof.
  induction s as [|a s (w & Hs & Hw)]; [now exists EmptyString|].
  cbn [Js.trimEnd]. destruct (Js.whiteOnly (String a s)) eqn:E.
  - exists (String a s). now split.
  - exists w. rewrite append_cons. now rewrite <- Hs.
Qed.

Lemma trimEnd_idempotent (s : string) : Js.trimEnd (Js.trimEnd s) = Js.trimEnd s.
Proof.
  induction s as [|a s IH]; [reflexivity|].
  cbn [Js.trimEnd]. destruct (Js.whiteOnly (String a s)) eqn:E; [reflexivity|].
  cbn [Js.trimEnd]. rewrite IH.
  destruct (Js.whiteOnly (String a (Js.trimEnd s))) eqn:E'; [|reflexivity].
  destruct (trimEnd_split s) as (w & Hs & Hw).
  pose proof (whiteOnly_append (String a (Js.trimEnd s)) w E' Hw) as H.
  rewrite append_cons, <- Hs in H. congruence.
Qed.

Lemma trim_idempotent (s : string) : Js.trim (Js.trim s) = Js.trim s.
Proof.
  unfold Js.trim.
  assert (H : startsWhite (Js.trimEnd (Js.trimStart s)) = false).
  { destruct (startsWhite (Js.trimEnd (Js.trimStart s))) eqn:E; [|reflexivity].
    destruct (trimEnd_split (Js.trimStart s)) as (w & Hs & _).
    apply (startsWhite_append _ w) in E. rewrite <- Hs in E.
    now rewrite startsWhite_trimStart in E. }
  rewrite (trimStart_fixed _ H). apply trimEnd_idempotent.
Qed.

End TrimFacts.

Section TrimmedRecords.
Context {rt : JsRuntime}.
Variables (TODAY : option Z) (nocMap : gmap string string) (opOverrides : Overrides).

Lemma buildSvc_trimmed (operatorIndex : JsMap.t OperatorInfo) (s : Service)
    (svc : Svc) :
  buildSvc nocMap opOverrides operatorIndex s (serviceCodeOf s) = Some svc ->
  svcTrimmed svc.
Proof.
  unfold buildSvc, svcTrimmed, serviceCodeOf.
  destruct (operatorOf operatorIndex s) as [[rawCode txcOpName]|]; [|discriminate].
  intros H. inversion H; subst svc.
  cbn [ref name operator operatorCode serviceCode].
  repeat split; apply trim_idempotent.
Qed.

Lemma processService_kept_built (txc : TransXChange) (stops vjCodes : list string)
    (operatorIndex : JsMap.t OperatorInfo) (st : State) (s : Service) (svc : Svc) :
  snd (processService TODAY nocMap opOverrides txc stops vjCodes
                      operatorIndex st s) = Kept svc ->
  buildSvc nocMap opOverrides operatorIndex s (serviceCodeOf s) = Some svc.
Proof.
  unfold processService.
  destruct (notUsedInFile _ _); [discriminate|].
  destruct (negb _); [discriminate|].
  destruct (versionCheck _ _ _); [|discriminate].
  destruct (buildSvc _ _ _ _ _); [|discriminate].
  cbn [snd]. congruence.
Qed.

Lemma add_allTrimmed (atco : string) (svc : Svc) (idx : JsMap.t (JsMap.t Svc)) :
  svcTrimmed svc -> allTrimmed idx -> allTrimmed (add atco svc idx).
Proof.
  intros Hsvc Hidx. rewrite add_cases.
  destruct (Js.nonEmpty atco); [|exact Hidx].
  destruct (JsMap.get idx atco) as [bucket|] eqn:Hb.
  - destruct (JsMap.has bucket (identityKey svc)); [exact Hidx|].
    intros a b k v Hab Hkv. apply In_set in Hab.
    destruct Hab as [[-> ->]|[[_ Hab]|[_ Hab]]]; try (eapply Hidx; eassumption).
    apply In_set in Hkv.
    destruct Hkv as [[-> ->]|[[_ Hkv]|[_ Hkv]]]; [exact Hsvc| |];
      eapply Hidx; [eapply get_In; exact Hb|exact Hkv|eapply get_In; exact Hb|exact Hkv].
  - intros a b k v Hab Hkv. apply In_set in Hab.
    destruct Hab as [[-> ->]|[[_ Hab]|[_ Hab]]]; try (eapply Hidx; eassumption).
    destruct Hkv as [Heq|[]]. inversion Heq; subst. exact Hsvc.
Qed.

Lemma processService_allTrimmed (txc : TransXChange) (stops vjCodes : list string)
    (operatorIndex : JsMap.t OperatorInfo) (st : State) (s : Service) :
  allTrimmed (stopToServices st) ->
  allTrimmed (stopToServices (fst (processService TODAY nocMap opOverrides txc
                                     stops vjCodes operatorIndex st s))).
Proof.
  intros H.
  pose proof (processService_index TODAY nocMap opOverrides txc stops vjCodes
                operatorIndex st s) as Hidx.
  pose proof (processService_kept_built txc stops vjCodes operatorIndex st s)
    as Hbuilt.
  cbn zeta in Hidx.
  destruct (snd (processService _ _ _ _ _ _ _ _ _)) as [| | |svc|];
    rewrite Hidx; try exact H.
  assert (Hsvc : svcTrimmed svc)
    by (eapply buildSvc_trimmed; apply Hbuilt; reflexivity).
  clear Hidx Hbuilt. revert H. generalize (stopToServices st).
  induction stops as [|atco stops' IH]; intros idx H; cbn [fold_left]; [exact H|].
  apply IH. now apply add_allTrimmed.
Qed.

(** Every record in the index of any run is trimmed: none of its five
    fields begins or ends with white space. *)
Theorem stored_records_are_trimmed (zips : list (list ZipEntry)) :
  forall atco bucket k v,
    In (atco, bucket) (stopToServices (run TODAY nocMap opOverrides zips)) ->
    In (k, v) bucket ->
    Js.trim (ref v) = ref v
    /\ Js.trim (name v) = name v
    /\ Js.trim (operator v) = operator v
    /\ Js.trim (operatorCode v) = operatorCode v
    /\ Js.trim (serviceCode v) = serviceCode v.
Proof.
  change (allTrimmed (stopToServices (run TODAY nocMap opOverrides zips))).
  unfold run.
  assert (H0 : allTrimmed (stopToServices initialState))
    by (intros atco bucket k v []).
  revert H0. generalize initialState.
  induction zips as [|entries zips IHz]; intros st H0; cbn [fold_left]; [exact H0|].
  apply IHz. unfold parseZip. revert st H0.
  induction entries as [|e entries IHe]; intros st H0; cbn [fold_left]; [exact H0|].
  apply IHe. destruct (isXmlEntry (fileName e)); [|exact H0].
  destruct (document e) as [txc|]; [|exact H0]. unfold parseTXC.
  apply (serviceLoop_invariant (fun st => allTrimmed (stopToServices st)));
    [|exact H0].
  intros st' s. apply processService_allTrimmed.
Qed.

(** [resolveOperator] looks at the trimmed code and name only: padding
    either argument with white space does not change the result. *)
Lemma resolveOperator_ignores_padding (rawCode txcName : string)
    (ov : Overrides) :
  resolveOperator (Js.trim rawCode) (Js.trim txcName) nocMap ov
  = resolveOperator rawCode txcName nocMap ov.
Proof. unfold resolveOperator. now rewrite !trim_idempotent. Qed.

End TrimmedRecords.

(** ** Sharder, continued *)

Section ShardCounts.
Context {V : Type}.

Lemma totalKeys_from (buckets : JsMap.t (JsMap.t V)) (n : nat) :
  fold_left (fun total pb => (total + JsMap.size (snd pb))%nat) buckets n
  = (n + totalKeys buckets)%nat.
Proof.
  unfold totalKeys. revert n.
  induction buckets as [|pb buckets IH]; intros n; cbn [fold_left]; [lia|].
  rewrite IH, (IH (0 + _)%nat). lia.
Qed.

Lemma totalKeys_cons (pb : string * JsMap.t V) (buckets : JsMap.t (JsMap.t V)) :
  totalKeys (pb :: buckets) = (JsMap.size (snd pb) + totalKeys buckets)%nat.
Proof. unfold totalKeys at 1. cbn [fold_left]. now rewrite totalKeys_from. Qed.

Lemma totalKeys_set (buckets : JsMap.t (JsMap.t V)) (p : string) (b : JsMap.t V) :
  (totalKeys (JsMap.set buckets p b)
   + JsMap.size (default [] (JsMap.get buckets p)))%nat
  = (totalKeys buckets + JsMap.size b)%nat.
Proof.
  induction buckets as [|[p' b'] buckets IH]; cbn [JsMap.set JsMap.get].
  - rewrite totalKeys_cons. unfold totalKeys, JsMap.size. cbn. lia.
  - destruct (String.eqb p' p); rewrite !totalKeys_cons; cbn [snd from_option id].
    + unfold JsMap.size. lia.
    + unfold JsMap.size in *. lia.
Qed.

(** [assign] without the intermediate empty bucket. *)
Lemma assign_cases (buckets : JsMap.t (JsMap.t V)) (atco : string) (v : V) :
  Shard.assign buckets (atco, v)
  = JsMap.set buckets (Shard.prefixOf atco)
      (JsMap.set (default [] (JsMap.get buckets (Shard.prefixOf atco))) atco v).
Proof.
  unfold Shard.assign, JsMap.has.
  destruct (JsMap.get buckets (Shard.prefixOf atco)) as [b|] eqn:Hb; cbn [negb].
  - now rewrite Hb.
  - rewrite get_set_eq. cbn [from_option id]. apply set_set.
Qed.

Lemma totalKeys_assign (buckets : JsMap.t (JsMap.t V)) (atco : string) (v : V) :
  totalKeys (Shard.assign buckets (atco, v))
  = (totalKeys buckets
     + match Shard.entry buckets (Shard.prefixOf atco) atco with
       | Some _ => 0
       | None => 1
       end)%nat.
Proof.
  rewrite assign_cases. unfold Shard.entry.
  pose proof (totalKeys_set buckets (Shard.prefixOf atco)
                (JsMap.set (default [] (JsMap.get buckets (Shard.prefixOf atco)))
                           atco v)) as H.
  rewrite size_set in H. unfold JsMap.has in H.
  destruct (JsMap.get buckets (Shard.prefixOf atco)) as [b|];
    cbn [from_option id] in *.
  - revert H.
    generalize (totalKeys (JsMap.set buckets (Shard.prefixOf atco)
                                     (JsMap.set b atco v))),
               (totalKeys buckets), (JsMap.size b).
    intros n m k H. destruct (JsMap.get b atco); lia.
  - revert H.
    generalize (totalKeys (JsMap.set buckets (Shard.prefixOf atco)
                                     (JsMap.set [] atco v))),
               (totalKeys buckets).
    intros n m H. cbn in H. lia.
Qed.

Lemma totalKeys_shard_from (src : JsMap.t V) (acc : JsMap.t (JsMap.t V)) :
  List.NoDup (JsMap.keys src) ->
  (forall a, In a (JsMap.keys src) -> Shard.entry acc (Shard.prefixOf a) a = None) ->
  totalKeys (fold_left Shard.assign src acc) = (totalKeys acc + length src)%nat.
Proof.
  revert acc. induction src as [|[atco v] src IH]; intros acc Hnd Hfree;
    cbn [fold_left length]; [lia|].
  cbn [JsMap.keys map fst] in Hnd, Hfree.
  inversion Hnd as [|? ? Hnot Hnd']; subst.
  rewrite IH; [|assumption|].
  - rewrite totalKeys_assign, (Hfree atco (or_introl eq_refl)). lia.
  - intros a Ha. rewrite entry_assign.
    destruct (String.eqb_spec atco a) as [->|Hne]; [contradiction|].
    rewrite andb_false_r. apply Hfree. now right.
Qed.

Lemma assign_wellFormed (buckets : JsMap.t (JsMap.t V)) (atco : string) (v : V) :
  bucketsWellFormed buckets -> bucketsWellFormed (Shard.assign buckets (atco, v)).
Proof.
  intros [Hnd Hall]. rewrite assign_cases.
  split; [now apply NoDup_keys_set|].
  intros p b Hin. apply In_set_NoDup in Hin; [|assumption].
  destruct Hin as [[-> ->]|[_ Hin]]; [|now apply Hall].
  split; [apply set_not_nil|]. split.
  - apply NoDup_keys_set.
    destruct (JsMap.get buckets (Shard.prefixOf atco)) as [b|] eqn:Hb;
      cbn [from_option id]; [|constructor].
    now destruct (Hall _ _ (get_In _ _ _ Hb)) as (_ & H & _).
  - exists atco. split; [|reflexivity].
    rewrite keys_set. destruct (JsMap.has _ atco) eqn:Hhas.
    + unfold JsMap.has in Hhas.
      destruct (JsMap.get _ atco) as [w|] eqn:Hg; [|discriminate].
      apply get_In in Hg. change atco with (fst (atco, w)). now apply in_map.
    + apply in_app_iff. right. now left.
Qed.

Lemma prefixOf_name (atco : string) :
  Shard.prefixOf atco <> EmptyString
  /\ (String.length (Shard.prefixOf atco) <= 4)%nat.
Proof.
  unfold Shard.prefixOf.
  destruct atco as [|a [|b [|c [|d rest]]]]; cbn; split; try discriminate; lia.
Qed.

End ShardCounts.

(** The buckets the sharder writes: their names are distinct, non-empty and
    at most four characters long; none is empty and none holds a stop
    twice; and for an input with distinct stops the total the script prints,
    the keys of all buckets together, is the number of stops of the input. *)
Theorem shard_loses_nothing (V : Type) (src : JsMap.t V) :
  let buckets := Shard.shard src in
  List.NoDup (JsMap.keys buckets)
  /\ (forall p b,
        In (p, b) buckets ->
        p <> EmptyString /\ (String.length p <= 4)%nat
        /\ b <> [] /\ List.NoDup (JsMap.keys b))
  /\ (List.NoDup (JsMap.keys src) -> totalKeys buckets = length src).
Proof.
  cbn zeta.
  assert (Hwf : bucketsWellFormed (Shard.shard src)).
  { unfold Shard.shard.
    assert (H0 : bucketsWellFormed (@JsMap.empty (JsMap.t V)))
      by (split; [constructor|intros p b []]).
    revert H0. generalize (@JsMap.empty (JsMap.t V)).
    induction src as [|[atco v] src IH]; intros acc H0; cbn [fold_left]; [exact H0|].
    apply IH. now apply assign_wellFormed. }
  destruct Hwf as [Hnd Hall]. split; [exact Hnd|]. split.
  - intros p b Hin. destruct (Hall p b Hin) as (Hne & Hb & atco & _ & ->).
    destruct (prefixOf_name atco). auto.
  - intros Hsrc. unfold Shard.shard.
    rewrite totalKeys_shard_from; [reflexivity|assumption|].
    intros a _. reflexivity.
Qed.

Lemma shard_loses_nothing_witness :
  totalKeys (Shard.shard [("123", 1%nat); ("18001", 2%nat); ("18002", 3%nat)]%string)
  = 3%nat.
Proof.
  destruct (shard_loses_nothing nat
              [("123", 1%nat); ("18001", 2%nat); ("18002", 3%nat)]%string)
    as (_ & _ & H).
  apply H. repeat constructor; cbn; intuition discriminate.
Defined.


(** ** The version table over a run *)

Section VersionTable.
Context {rt : JsRuntime}.
Variables (TODAY : option Z) (nocMap : gmap string string) (opOverrides : Overrides).

Lemma versionCheck_forward (code' : string) (ver : VersionKey)
    (best best' : gmap string VersionKey) (code : string) (p : VersionKey) :
  versionCheck code' ver best = Some best' ->
  best !! code = Some p ->
  exists q, best' !! code = Some q /\ newer p q = false.
Proof.
  unfold versionCheck. intros Hvc Hp.
  assert (Hsame : newer p p = false)
    by (apply newer_false_iff; unfold exceeds; lia).
  destruct (Js.nonEmpty code'); [|inversion Hvc; subst; eauto].
  destruct (String.eqb_spec code' code) as [->|Hne].
  - rewrite Hp in Hvc. destruct (newer ver p) eqn:Hn; cbn [negb] in Hvc;
      [|discriminate].
    inversion Hvc; subst. exists ver. split; [apply lookup_insert_eq|].
    now apply newer_asym.
  - exists p. split; [|exact Hsame].
    destruct (best !! code') as [prev|];
      [destruct (negb (newer ver prev)); [discriminate|]|];
      inversion Hvc; subst; now rewrite lookup_insert_ne.
Qed.

Lemma processService_forward (txc : TransXChange) (stops vjCodes : list string)
    (operatorIndex : JsMap.t OperatorInfo) (st : State) (s : Service)
    (code : string) (p : VersionKey) :
  bestServiceVersion st !! code = Some p ->
  exists q,
    bestServiceVersion
      (fst (processService TODAY nocMap opOverrides txc stops vjCodes
                           operatorIndex st s)) !! code = Some q
    /\ newer p q = false.
Proof.
  intros Hp.
  assert (Hsame : newer p p = false)
    by (apply newer_false_iff; unfold exceeds; lia).
  unfold processService.
  destruct (notUsedInFile _ _); [eauto|].
  destruct (negb _); [eauto|].
  destruct (versionCheck _ _ _) as [best'|] eqn:Hvc; [|eauto].
  destruct (buildSvc _ _ _ _ _); cbn [fst bestServiceVersion];
    eapply versionCheck_forward; eassumption.
Qed.

Lemma parseTXC_forward (doc : option TransXChange) (st : State)
    (code : string) (p : VersionKey) :
  bestServiceVersion st !! code = Some p ->
  exists q,
    bestServiceVersion (parseTXC TODAY nocMap opOverrides doc st) !! code = Some q
    /\ newer p q = false.
Proof.
  intros Hp.
  assert (Hsame : newer p p = false)
    by (apply newer_false_iff; unfold exceeds; lia).
  destruct doc as [txc|]; [|eauto]. unfold parseTXC.
  apply (serviceLoop_invariant
           (fun st => exists q, bestServiceVersion st !! code = Some q
                                /\ newer p q = false)); [|eauto].
  intros st' s (q & Hq & Hpq).
  destruct (processService_forward txc (sectionStopsOf txc) (vjCodesOf txc)
              (operatorIndexOf txc) st' s code q Hq) as (r & Hr & Hqr).
  exists r. split; [exact Hr|]. eapply newer_false_trans; eassumption.
Qed.

(** The retained keys only move forward: a key retained for a code
    before an archive is read is, after it, still retained or replaced by a
    key that it is not newer than; and no run retains a key for the empty
    code. *)
Theorem retained_versions_never_regress :
  (forall entries st code p,
     bestServiceVersion st !! code = Some p ->
     exists q,
       bestServiceVersion (parseZip TODAY nocMap opOverrides entries st) !! code
       = Some q
       /\ newer p q = false)
  /\ (forall zips,
        bestServiceVersion (run TODAY nocMap opOverrides zips) !! EmptyString
        = None).
Proof.
  split.
  - intros entries. unfold parseZip.
    induction entries as [|e entries IH]; intros st code p Hp; cbn [fold_left].
    + exists p. split; [exact Hp|]. apply newer_false_iff. unfold exceeds. lia.
    + destruct (isXmlEntry (fileName e)); [|now apply IH].
      destruct (parseTXC_forward (document e) st code p Hp) as (q & Hq & Hpq).
      destruct (IH _ code q Hq) as (r & Hr & Hqr).
      exists r. split; [exact Hr|]. eapply newer_false_trans; eassumption.
  - intros zips. unfold run.
    assert (H0 : bestServiceVersion initialState !! EmptyString = None)
      by apply lookup_empty.
    revert H0. generalize initialState.
    induction zips as [|entries zips IHz]; intros st H0; cbn [fold_left]; [exact H0|].
    apply IHz. unfold parseZip. revert st H0.
    induction entries as [|e entries IHe]; intros st H0; cbn [fold_left]; [exact H0|].
    apply IHe. destruct (isXmlEntry (fileName e)); [|exact H0].
    now apply parseTXC_keeps_empty.
Qed.

Lemma add_records (atco : string) (svc : Svc) (idx : JsMap.t (JsMap.t Svc))
    (a k : string) (b : JsMap.t Svc) (v : Svc) :
  In (a, b) (add atco svc idx) -> In (k, v) b ->
  v = svc \/ exists b', In (a, b') idx /\ In (k, v) b'.
Proof.
  rewrite add_cases.
  destruct (Js.nonEmpty atco); [|eauto].
  destruct (JsMap.get idx atco) as [bucket|] eqn:Hb.
  - destruct (JsMap.has bucket (identityKey svc)); [eauto|].
    intros Hab Hkv. apply In_set in Hab.
    destruct Hab as [[-> ->]|[[_ Hab]|[_ Hab]]]; eauto.
    apply In_set in Hkv. apply get_In in Hb.
    destruct Hkv as [[-> ->]|[[_ Hkv]|[_ Hkv]]]; eauto.
  - intros Hab Hkv. apply In_set in Hab.
    destruct Hab as [[-> ->]|[[_ Hab]|[_ Hab]]]; eauto.
    destruct Hkv as [Heq|[]]. inversion Heq. now left.
Qed.

Lemma add_all_records (stops : list string) (svc : Svc)
    (idx : JsMap.t (JsMap.t Svc)) (a k : string) (b : JsMap.t Svc) (v : Svc) :
  In (a, b) (fold_left (fun idx atco => add atco svc idx) stops idx) ->
  In (k, v) b ->
  v = svc \/ exists b', In (a, b') idx /\ In (k, v) b'.
Proof.
  revert idx b. induction stops as [|atco stops IH]; intros idx b Hab Hkv;
    cbn [fold_left] in Hab; [eauto|].
  destruct (IH _ _ Hab Hkv) as [H|(b' & Hab' & Hkv')]; [now left|].
  eapply add_records; eassumption.
Qed.

Lemma processService_codesVersioned (txc : TransXChange)
    (stops vjCodes : list string) (operatorIndex : JsMap.t OperatorInfo)
    (st : State) (s : Service) :
  codesVersioned st ->
  codesVersioned (fst (processService TODAY nocMap opOverrides txc stops vjCodes
                                      operatorIndex st s)).
Proof.
  intros H. unfold processService.
  destruct (notUsedInFile _ _); [exact H|].
  destruct (negb _); [exact H|].
  destruct (versionCheck _ _ _) as [best'|] eqn:Hvc; [|exact H].
  destruct (buildSvc _ _ _ _ _) as [svc|] eqn:Hsvc;
    intros atco bucket k v Hab Hkv Hcode;
    cbn [fst stopToServices bestServiceVersion] in *.
  - destruct (add_all_records _ _ _ _ _ _ _ Hab Hkv) as [->|(b' & Hab' & Hkv')].
    + unfold buildSvc in Hsvc. destruct (operatorOf operatorIndex s) as [[? ?]|];
        [|discriminate].
      inversion Hsvc; subst svc. cbn [serviceCode] in *.
      destruct (versionCheck_accepts _ (pickBest s txc) (bestServiceVersion st) Hcode)
        as [_ Hset].
      rewrite (Hset best' Hvc), lookup_insert_eq. eauto.
    + destruct (H atco b' k v Hab' Hkv' Hcode) as [p Hp].
      destruct (versionCheck_forward _ _ _ _ _ _ Hvc Hp) as (q & Hq & _). eauto.
  - destruct (H atco bucket k v Hab Hkv Hcode) as [p Hp].
    destruct (versionCheck_forward _ _ _ _ _ _ Hvc Hp) as (q & Hq & _). eauto.
Qed.

(** In every run, every service code that appears in a record of the
    index has a retained version key. *)
Theorem indexed_codes_have_versions (zips : list (list ZipEntry)) :
  let st := run TODAY nocMap opOverrides zips in
  forall atco bucket k v,
    In (atco, bucket) (stopToServices st) -> In (k, v) bucket ->
    serviceCode v <> EmptyString ->
    is_Some (bestServiceVersion st !! serviceCode v).
Proof.
  cbn zeta.
  change (codesVersioned (run TODAY nocMap opOverrides zips)).
  unfold run.
  assert (H0 : codesVersioned initialState) by (intros atco bucket k v []).
  revert H0. generalize initialState.
  induction zips as [|entries zips IHz]; intros st H0; cbn [fold_left]; [exact H0|].
  apply IHz. unfold parseZip. revert st H0.
  induction entries as [|e entries IHe]; intros st H0; cbn [fold_left]; [exact H0|].
  apply IHe. destruct (isXmlEntry (fileName e)); [|exact H0].
  destruct (document e) as [txc|]; [|exact H0]. unfold parseTXC.
  apply (serviceLoop_invariant codesVersioned); [|exact H0].
  intros st' s. apply processService_codesVersioned.
Qed.

End VersionTable.

(** ** The operators of a document *)

Section OperatorIndexFacts.

Lemma find_snoc {A} (f : A -> bool) (l : list A) (x : A) :
  List.find f (l ++ [x])
  = match List.find f l with
    | Some y => Some y
    | None => if f x then Some x else None
    end.
Proof.
  induction l as [|a l IH]; cbn [List.find app]; [reflexivity|].
  destruct (f a); [reflexivity|exact IH].
Qed.

(** One declared operator takes over each of its keys. *)
Lemma indexOperator_get (idx : JsMap.t OperatorInfo) (op : Operator) (k : string) :
  JsMap.get (indexOperator idx op) k
  = if hasKey k op then Some (operatorRecord op) else JsMap.get idx k.
Proof.
  unfold indexOperator, hasKey, operatorRecord.
  fold (operatorId op). fold (operatorNoc op). fold (operatorCodeOf op).
  destruct (String.eqb_spec k (operatorId op)) as [Hid|Hid];
    destruct (String.eqb_spec k (operatorNoc op)) as [Hnoc|Hnoc];
    destruct (String.eqb_spec k (operatorCodeOf op)) as [Hcode|Hcode];
    destruct (Js.nonEmpty k) eqn:Hk; cbn [orb andb];
    repeat match goal with
           | H : k = _ |- _ => rewrite <- H
           end;
    rewrite ?Hk, ?String.eqb_refl; cbn [andb negb];
    repeat match goal with
           | |- context [String.eqb ?a ?b] => destruct (String.eqb_spec a b)
           | |- context [Js.nonEmpty ?a] => destruct (Js.nonEmpty a) eqn:?
           end; cbn [andb negb];
    rewrite ?get_set, ?String.eqb_refl;
    repeat match goal with
           | |- context [String.eqb ?a ?b] => destruct (String.eqb_spec a b)
           end;
    try reflexivity; try congruence.
Qed.

Lemma operatorIndex_get (ops : list Operator) (idx : JsMap.t OperatorInfo)
    (k : string) :
  JsMap.get (fold_left indexOperator ops idx) k
  = match List.find (hasKey k) (List.rev ops) with
    | Some op => Some (operatorRecord op)
    | None => JsMap.get idx k
    end.
Proof.
  revert idx. induction ops as [|op ops IH]; intros idx; cbn [fold_left List.rev];
    [reflexivity|].
  rewrite IH, find_snoc, indexOperator_get.
  destruct (List.find (hasKey k) (List.rev ops)); [reflexivity|].
  destruct (hasKey k op); reflexivity.
Qed.

Lemma indexOperator_trimmed (idx : JsMap.t OperatorInfo) (op : Operator) :
  (forall k info, In (k, info) idx ->
     k <> EmptyString /\ Js.trim (oi_code info) = oi_code info) ->
  forall k info, In (k, info) (indexOperator idx op) ->
    k <> EmptyString /\ Js.trim (oi_code info) = oi_code info.
Proof.
  intros H k info. unfold indexOperator.
  fold (operatorId op). fold (operatorNoc op). fold (operatorCodeOf op).
  assert (Hrec : Js.trim (operatorCodeOf op) = operatorCodeOf op)
    by apply trim_idempotent.
  destruct (Js.nonEmpty (operatorId op)) eqn:Hid;
    destruct (Js.nonEmpty (operatorNoc op)) eqn:Hnoc;
    destruct (Js.nonEmpty (operatorCodeOf op) && _ && _) eqn:Hcode;
    intros Hin;
    repeat match type of Hin with
           | In _ (JsMap.set _ _ _) =>
               apply In_set in Hin;
               destruct Hin as [[-> ->]|[[_ Hin]|[_ Hin]]]
           end;
    try (now apply H);
    (split; [intros E; rewrite E in *; cbn in *; discriminate|exact Hrec]).
Qed.

Lemma operatorIndexOf_keys (txc : TransXChange) (k : string) (info : OperatorInfo) :
  In (k, info) (operatorIndexOf txc) ->
  k <> EmptyString /\ Js.trim (oi_code info) = oi_code info.
Proof.
  unfold operatorIndexOf.
  assert (H : forall ops idx,
            (forall k info, In (k, info) idx ->
               k <> EmptyString /\ Js.trim (oi_code info) = oi_code info) ->
            forall k info, In (k, info) (fold_left indexOperator ops idx) ->
              k <> EmptyString /\ Js.trim (oi_code info) = oi_code info).
  { induction ops as [|o ops IH]; intros idx Hidx; cbn [fold_left]; [exact Hidx|].
    apply IH. now apply indexOperator_trimmed. }
  apply (H (x_Operators txc) JsMap.empty
           (fun k info (F : In (k, info) []) => match F with end)).
Qed.

(** What the operator index of a document holds under a key is the
    record of the last declared operator that has the key among its
    identifier, its national operator code and its operator code: a later
    operator replaces an earlier one under a shared key. So every declared
    operator's non-empty keys are in the index, an operator that no later
    one shares a key with is found under it, and every key of the index is
    non-empty. *)
Theorem operators_are_indexed (txc : TransXChange) :
  (forall k,
     JsMap.get (operatorIndexOf txc) k
     = option_map operatorRecord
         (List.find (hasKey k) (List.rev (x_Operators txc))))
  /\ (forall op k,
        In op (x_Operators txc) -> hasKey k op = true ->
        is_Some (JsMap.get (operatorIndexOf txc) k))
  /\ (forall before op after k,
        x_Operators txc = before ++ op :: after ->
        hasKey k op = true ->
        List.forallb (fun later => negb (hasKey k later)) after = true ->
        JsMap.get (operatorIndexOf txc) k = Some (operatorRecord op))
  /\ (forall op k,
        hasKey k op = true <->
        k <> EmptyString
        /\ (k = operatorId op \/ k = operatorNoc op \/ k = operatorCodeOf op))
  /\ (forall k info, In (k, info) (operatorIndexOf txc) -> k <> EmptyString).
Proof.
  assert (Hget : forall k,
             JsMap.get (operatorIndexOf txc) k
             = option_map operatorRecord
                 (List.find (hasKey k) (List.rev (x_Operators txc)))).
  { intros k. unfold operatorIndexOf. rewrite operatorIndex_get.
    destruct (List.find _ _); reflexivity. }
  split; [exact Hget|]. split; [|split; [|split]].
  - intros op k Hin Hk. rewrite Hget.
    destruct (List.find (hasKey k) (List.rev (x_Operators txc))) eqn:Hf;
      [cbn; eauto|].
    apply List.in_rev in Hin.
    pose proof (List.find_none _ _ Hf op Hin) as Hno. congruence.
  - intros before op after k Hops Hk Hafter. rewrite Hget, Hops.
    rewrite List.rev_app_distr. cbn [List.rev]. rewrite <- List.app_assoc.
    cbn [app].
    assert (Hnone : List.find (hasKey k) (List.rev after) = None).
    { clear Hops. induction after as [|a after IH]; [reflexivity|].
      cbn [List.forallb] in Hafter. apply andb_true_iff in Hafter.
      destruct Hafter as [Ha Hafter]. cbn [List.rev]. rewrite find_snoc, IH by easy.
      apply negb_true_iff in Ha. now rewrite Ha. }
    revert Hnone. generalize (List.rev after). intros l Hnone.
    induction l as [|a l IH]; cbn [app List.find] in *.
    + now rewrite Hk.
    + destruct (hasKey k a); [discriminate|]. now apply IH.
  - intros op k. unfold hasKey.
    rewrite andb_true_iff, !orb_true_iff, !String.eqb_eq.
    destruct k; cbn [Js.nonEmpty]; intuition congruence.
  - intros k info Hin. now destruct (operatorIndexOf_keys txc k info Hin).
Qed.

End OperatorIndexFacts.

Section OperatorOfFacts.

Lemma operatorOf_code (idx : JsMap.t OperatorInfo) (s : Service)
    (rawCode txcOpName : string) :
  let opRef := Js.trim (Js.str (s_RegisteredOperatorRef s)) in
  opRef <> EmptyString ->
  operatorOf idx s = Some (rawCode, txcOpName) ->
  rawCode = opRef
  \/ exists k info,
       In (k, info) idx /\ rawCode = oi_code info /\ oi_code info <> EmptyString.
Proof.
  cbn zeta. intros Hne. unfold operatorOf, orStr.
  destruct (Js.trim (Js.str (s_RegisteredOperatorRef s))) as [|c opRef] eqn:Hop;
    [congruence|]. cbn [Js.nonEmpty].
  destruct (JsMap.get idx (String c opRef)) as [info|] eqn:Hg.
  - intros H. inversion H; subst.
    destruct (oi_code info) as [|x code] eqn:Hc; cbn [Js.nonEmpty]; [now left|].
    right. exists (String c opRef), info. rewrite Hc.
    split; [now apply get_In|]. split; [reflexivity|discriminate].
  - destruct idx as [|[k only] [|other idx]].
    + destruct (mapThrowing _ _); [|discriminate].
      intros H. inversion H. now left.
    + intros H. inversion H; subst.
      destruct (oi_code only) as [|x code] eqn:Hc; cbn [Js.nonEmpty]; [now left|].
      right. exists k, only. rewrite Hc.
      split; [now left|]. split; [reflexivity|discriminate].
    + destruct (mapThrowing _ _); [|discriminate].
      intros H. inversion H. now left.
Qed.

(** When reading the operator of a service throws: the reference finds no
    declared operator, the document does not declare exactly one, and one
    of the names hanging off the service is not a string. *)
Lemma buildSvc_throws (nocMap : gmap string string) (opOverrides : Overrides)
    (idx : JsMap.t OperatorInfo) (s : Service) (code : string) :
  let opRef := Js.trim (Js.str (s_RegisteredOperatorRef s)) in
  buildSvc nocMap opOverrides idx s code = None <->
  (opRef = EmptyString \/ JsMap.get idx opRef = None)
  /\ length idx <> 1%nat
  /\ mapThrowing serviceOperatorName (s_Operators s) = None.
Proof.
  cbn zeta. unfold buildSvc, operatorOf.
  destruct (Js.trim (Js.str (s_RegisteredOperatorRef s))) as [|c opRef];
    cbn [Js.nonEmpty].
  - destruct idx as [|[k only] [|other idx]]; cbn [length].
    + destruct (mapThrowing _ _); split; try discriminate; intuition congruence.
    + split; [discriminate|]. intros (_ & H & _). congruence.
    + destruct (mapThrowing _ _); split; try discriminate; intuition congruence.
  - destruct (JsMap.get idx (String c opRef)) as [info|].
    + split; [discriminate|]. intros ([H|H] & _); discriminate.
    + destruct idx as [|[k only] [|other idx]]; cbn [length].
      * destruct (mapThrowing _ _); split; try discriminate; intuition congruence.
      * split; [discriminate|]. intros (_ & H & _). congruence.
      * destruct (mapThrowing _ _); split; try discriminate; intuition congruence.
Qed.

(** A record built for a service with a registered operator reference
    always has an operator code: the code of the referenced operator of the
    document, or of its only operator, when that is not empty, and else the
    reference itself. The record is built unless the reference finds no
    declared operator, the document does not declare exactly one, and a
    name hanging off the service is not a string. *)
Theorem registered_operator_gives_code (nocMap : gmap string string)
    (opOverrides : Overrides) (txc : TransXChange) (s : Service) (code : string) :
  let opRef := Js.trim (Js.str (s_RegisteredOperatorRef s)) in
  let built := buildSvc nocMap opOverrides (operatorIndexOf txc) s code in
  opRef <> EmptyString ->
  (built = None <->
   JsMap.get (operatorIndexOf txc) opRef = None
   /\ length (operatorIndexOf txc) <> 1%nat
   /\ mapThrowing serviceOperatorName (s_Operators s) = None)
  /\ (forall svc,
        built = Some svc ->
        operatorCode svc <> EmptyString
        /\ (operatorCode svc = opRef
            \/ exists k info,
                 In (k, info) (operatorIndexOf txc)
                 /\ operatorCode svc = oi_code info)).
Proof.
  cbn zeta. intros Hne. split.
  - rewrite buildSvc_throws. intuition congruence.
  - intros svc. unfold buildSvc.
    destruct (operatorOf (operatorIndexOf txc) s) as [[rawCode txcOpName]|] eqn:Hop;
      [|discriminate].
    intros H. inversion H; subst svc. cbn [operatorCode].
    destruct (operatorOf_code (operatorIndexOf txc) s rawCode txcOpName Hne Hop)
      as [->|(k & info & Hin & -> & Hcode)].
    + rewrite trim_idempotent. split; [exact Hne|now left].
    + destruct (operatorIndexOf_keys txc k info Hin) as [_ ->].
      split; [exact Hcode|]. right. eauto.
Qed.

End OperatorOfFacts.

Section OperatorExamples.
Local Existing Instance Ref.runtime.

Lemma registered_operator_gives_code_witness :
  exists svc,
    buildSvc ∅ [] (operatorIndexOf Example.doc1) Example.s1rev1 "S1" = Some svc
    /\ operatorCode svc <> EmptyString.
Proof.
  destruct (registered_operator_gives_code ∅ [] Example.doc1 Example.s1rev1 "S1")
    as [_ H]; [vm_compute; discriminate|].
  destruct (buildSvc ∅ [] (operatorIndexOf Example.doc1) Example.s1rev1 "S1")
    as [svc|] eqn:E.
  - exists svc. split; [reflexivity|]. now apply H.
  - vm_compute in E. discriminate.
Defined.

Lemma retained_versions_never_regress_witness :
  exists q,
    bestServiceVersion
      (parseZip (Some Example.mar2024) ∅ []
         [{| fileName := "a.xml"; document := Some Example.doc1 |}]
         Example.afterDoc1) !! "S1"%string = Some q
    /\ newer {| rev := 1; pubTs := 0 |} q = false.
Proof.
  destruct (retained_versions_never_regress (Some Example.mar2024) ∅ []) as [H _].
  apply H. vm_compute. reflexivity.
Defined.

End OperatorExamples.

Section RunExamples.
Local Existing Instance Ref.runtime.

Lemma indexed_codes_have_versions_witness :
  is_Some (bestServiceVersion runOfArchive1 !! "S1"%string).
Proof.
  apply (indexed_codes_have_versions (Some Example.mar2024) ∅ [] [archive1]
           "A"%string [("12"%string, Example.svc1)] "12"%string Example.svc1).
  - vm_compute. left. reflexivity.
  - left. reflexivity.
  - discriminate.
Defined.

Lemma stored_records_are_trimmed_witness :
  Js.trim (operator Example.svc1) = operator Example.svc1.
Proof.
  apply (stored_records_are_trimmed (Some Example.mar2024) ∅ [] [archive1]
           "A"%string [("12"%string, Example.svc1)] "12"%string Example.svc1).
  - vm_compute. left. reflexivity.
  - left. reflexivity.
Defined.

End RunExamples.

